(** * vce2flashquiz: a shallow embedding of [vce2flashquiz.py]

    The script reads the text and the images of an exam PDF through pypdf,
    cuts the text into questions with regular expressions, attaches exhibit
    images and prints a Flashquiz document.  This development embeds the
    script's own logic: everything from the extracted page texts and the
    extracted image streams onwards.

    Conventions.
    - A Python [str] is a [string]; its characters are the code points
      U+0000..U+00FF, one per [ascii].  On that range [str.strip], [\s],
      [\d] and [str.lower] are the functions [is_space], [is_digit] and
      [lower_char] below.
    - A Python [bytes] is a [list byte].
    - [last_image_idx_used] starts at -1, so it is a [Z].
    - [all_images_list[idx]] raises [IndexError] out of range: the lookup is
      stdpp's [!!] and the code around it lives in the [option] monad. *)

From Stdlib Require Import Ascii String List ZArith Lia.
From Stdlib Require Import Strings.Byte.
From Stdlib Require Import DecimalString.
From stdpp Require Import base option list sorting gmap strings.

Local Open Scope Z_scope.
Local Open Scope nat_scope.

(** ** Characters and strings as Python sees them *)

Module Text.

Definition code (c : ascii) : N := N_of_ascii c.

(** [str.isspace] on U+0000..U+00FF, which is also [\s] of [re]. *)
Definition is_space (c : ascii) : bool :=
  let n := code c in
  ((9 <=? n) && (n <=? 13) || (28 <=? n) && (n <=? 32)
   || (n =? 133) || (n =? 160))%N.

(** [\d] of [re] on U+0000..U+00FF. *)
Definition is_digit (c : ascii) : bool :=
  let n := code c in ((48 <=? n) && (n <=? 57))%N.

(** The character class [[A-Z]]. *)
Definition is_AZ (c : ascii) : bool :=
  let n := code c in ((65 <=? n) && (n <=? 90))%N.

(** [str.lower] on one character of U+0000..U+00FF. *)
Definition lower_char (c : ascii) : ascii :=
  let n := code c in
  if ((65 <=? n) && (n <=? 90)
      || (192 <=? n) && (n <=? 222) && negb (n =? 215))%N
  then ascii_of_N (n + 32) else c.

Fixpoint lower (s : string) : string :=
  match s with
  | EmptyString => EmptyString
  | String c s' => String (lower_char c) (lower s')
  end.

Fixpoint lstrip (s : string) : string :=
  match s with
  | EmptyString => EmptyString
  | String c s' => if is_space c then lstrip s' else s
  end.

Fixpoint rstrip (s : string) : string :=
  match s with
  | EmptyString => EmptyString
  | String c s' =>
      match rstrip s' with
      | EmptyString => if is_space c then EmptyString else String c EmptyString
      | r => String c r
      end
  end.

(** [s.strip()] *)
Definition strip (s : string) : string := rstrip (lstrip s).

(** Truthiness of a [str]. *)
Definition nonempty (s : string) : bool :=
  match s with EmptyString => false | _ => true end.

(** [s.split(c)] for a one-character separator: never an empty list. *)
Fixpoint split_on (sep : ascii) (s : string) : list string :=
  match s with
  | EmptyString => [EmptyString]
  | String c s' =>
      if Ascii.eqb c sep then EmptyString :: split_on sep s'
      else match split_on sep s' with
           | [] => [String c EmptyString]
           | w :: ws => String c w :: ws
           end
  end.

(** [s[n:]] *)
Fixpoint drop (n : nat) (s : string) : string :=
  match n, s with
  | O, _ => s
  | S _, EmptyString => EmptyString
  | S k, String _ s' => drop k s'
  end.

(** [s[:n]] *)
Fixpoint take (n : nat) (s : string) : string :=
  match n, s with
  | O, _ => EmptyString
  | S _, EmptyString => EmptyString
  | S k, String c s' => String c (take k s')
  end.

(** [s[a:b]] for [0 <= a] and [0 <= b]. *)
Definition slice (a b : nat) (s : string) : string := take (b - a) (drop a s).

(** The first occurrence of [sep] in [s]: what stands before and after it. *)
Fixpoint partition (sep s : string) : option (string * string) :=
  if String.prefix sep s then Some (EmptyString, drop (String.length sep) s)
  else match s with
       | EmptyString => None
       | String c s' =>
           match partition sep s' with
           | Some (b, a) => Some (String c b, a)
           | None => None
           end
       end.

(** [sep in s] *)
Definition contains (sep s : string) : bool :=
  match partition sep s with Some _ => true | None => false end.

(** [s.split(sep)[1]], defined when [sep in s]. *)
Definition split_second (sep s : string) : option string :=
  match partition sep s with
  | None => None
  | Some (_, rest) =>
      match partition sep rest with
      | Some (mid, _) => Some mid
      | None => Some rest
      end
  end.

(** [sep.join(ls)] *)
Definition join (sep : string) (ls : list string) : string :=
  String.concat sep ls.

(** The number of leading characters of [s] that satisfy [p]. *)
Fixpoint span_len (p : ascii -> bool) (s : string) : nat :=
  match s with
  | EmptyString => 0
  | String c s' => if p c then S (span_len p s') else 0
  end.

(** [str(n)] for a natural number. *)
Definition of_nat (n : nat) : string :=
  NilZero.string_of_uint (Nat.to_uint n).

End Text.

(** ** Image data URIs: [get_image_base64_from_data] *)

Module Base64.

(** [base64.b64encode] of the Python standard library (RFC 4648, standard
    alphabet, [=] padding), followed by [.decode('utf-8')]. *)
Definition alphabet : string :=
  "ABCDEFGHIJKLMNOPQRSTUVWXYZabcdefghijklmnopqrstuvwxyz0123456789+/".

Definition sextet (n : N) : ascii :=
  match String.get (N.to_nat (N.land n 63)) alphabet with
  | Some c => c
  | None => "="%char
  end.

Definition pad : ascii := "="%char.

Fixpoint b64encode (data : list byte) : string :=
  match data with
  | [] => EmptyString
  | [a] =>
      let n := N.shiftl (Byte.to_N a) 16 in
      String (sextet (N.shiftr n 18)) (String (sextet (N.shiftr n 12))
        (String pad (String pad EmptyString)))
  | [a; b] =>
      let n := N.lor (N.shiftl (Byte.to_N a) 16) (N.shiftl (Byte.to_N b) 8) in
      String (sextet (N.shiftr n 18)) (String (sextet (N.shiftr n 12))
        (String (sextet (N.shiftr n 6)) (String pad EmptyString)))
  | a :: b :: c :: rest =>
      let n := N.lor (N.lor (N.shiftl (Byte.to_N a) 16)
                            (N.shiftl (Byte.to_N b) 8)) (Byte.to_N c) in
      String (sextet (N.shiftr n 18)) (String (sextet (N.shiftr n 12))
        (String (sextet (N.shiftr n 6)) (String (sextet n) (b64encode rest))))
  end.

End Base64.

Module ImageData.

(** [data.startswith(p)] on [bytes]. *)
Fixpoint startswith (p data : list byte) : bool :=
  match p, data with
  | [], _ => true
  | _ :: _, [] => false
  | x :: p', y :: data' => Byte.eqb x y && startswith p' data'
  end.

(** The literals [b'\xff\xd8'], [b'\x89PNG'] and [b'GIF']. *)
Definition sig_jpeg : list byte := [xff; xd8].
Definition sig_png : list byte := x89 :: list_byte_of_string "PNG".
Definition sig_gif : list byte := list_byte_of_string "GIF".

(** [name.split('.')[-1]] *)
Definition last_component (name : string) : string :=
  List.last (Text.split_on "."%char name) EmptyString.

(** [ext not in ['png', 'jpg', 'jpeg', 'gif']], negated. *)
Definition known_ext (ext : string) : bool :=
  bool_decide (ext ∈ ["png"; "jpg"; "jpeg"; "gif"]).

(** The [try] body never raises on a [bytes] and a [str], so the result is
    always [Some]; [None] is the [except] branch. *)
Definition get_image_base64_from_data (data : list byte) (name : string)
  : option string :=
  let ext :=
    if startswith sig_jpeg data then "jpg"
    else if startswith sig_png data then "png"
    else if startswith sig_gif data then "gif"
    else
      let ext := Text.lower (last_component name) in
      if negb (known_ext ext) then "png" else ext in
  let b64_data := Base64.b64encode data in
  Some ("data:image/" +:+ ext +:+ ";base64," +:+ b64_data).

End ImageData.

(** ** Shared helpers *)

(** [enumerate(l, n)] *)
Fixpoint enumerate_from {A} (n : nat) (l : list A) : list (nat * A) :=
  match l with
  | [] => []
  | x :: l' => (n, x) :: enumerate_from (S n) l'
  end.

Definition enumerate {A} (l : list A) : list (nat * A) := enumerate_from 0 l.

(** The line feed and the double quote. *)
Definition LF : ascii := "010"%char.
Definition nl : string := String LF EmptyString.
Definition dquote : string := String "034"%char EmptyString.

(** ** Text segmenter: lines 64 to 96 of [parse_vce_pdf] *)

Module Segmenter.

Record buffer := {
  full_text : string;
  page_offsets : list (nat * nat);
  current_offset : nat
}.

Definition empty_buffer : buffer :=
  {| full_text := EmptyString; page_offsets := []; current_offset := 0 |}.

(** One iteration of the page loop; [text] is [page.extract_text() or ""]. *)
Definition add_page (b : buffer) (ip : nat * string) : buffer :=
  let '(i, text) := ip in
  let text := text +:+ nl in
  {| full_text := full_text b +:+ text;
     page_offsets := page_offsets b ++ [(current_offset b, i)];
     current_offset := current_offset b + String.length text |}.

Definition read_pages (pages : list string) : buffer :=
  fold_left add_page (enumerate pages) empty_buffer.

(** A match of [QUESTION\s+\d+] at the very start of [s]: its length. *)
Definition marker_len (s : string) : option nat :=
  if String.prefix "QUESTION" s then
    let r := Text.drop 8 s in
    let w := Text.span_len Text.is_space r in
    let d := Text.span_len Text.is_digit (Text.drop w r) in
    if (0 <? w) && (0 <? d) then Some (8 + w + d) else None
  else None.

(** [re.finditer(r'QUESTION\s+\d+', s)], as the list of [m.start()]: the
    scan is at offset [pos] and [skip] characters of the last match are
    still to be stepped over. *)
Fixpoint scan_markers (pos skip : nat) (s : string) : list nat :=
  match s with
  | EmptyString => []
  | String _ s' =>
      match skip with
      | S k => scan_markers (S pos) k s'
      | O =>
          match marker_len s with
          | Some n => pos :: scan_markers (S pos) (n - 1) s'
          | None => scan_markers (S pos) 0 s'
          end
      end
  end.

Definition markers (text : string) : list nat := scan_markers 0 0 text.

Definition default_title : string := "VCE Quiz".

(** Lines 76 to 83. *)
Definition quiz_title (text : string) (ms : list nat) : string :=
  match ms with
  | [] => default_title
  | m0 :: _ =>
      let header := Text.strip (Text.take m0 text) in
      if Text.nonempty header then
        match Text.split_on LF header with
        | [] => default_title
        | l0 :: _ => Text.strip l0
        end
      else default_title
  end.

(** [(q_start, q_end)] for every marker: lines 88 and 89. *)
Fixpoint question_spans (ms : list nat) (len : nat) : list (nat * nat) :=
  match ms with
  | [] => []
  | q_start :: rest =>
      (q_start, match rest with next :: _ => next | [] => len end)
        :: question_spans rest len
  end.

(** One iteration of the loop of lines 94 to 96. *)
Definition page_step (q_start q_end : nat) (acc : nat * nat) (e : nat * nat)
  : nat * nat :=
  let '(q_start_page, q_end_page) := acc in
  let '(offset, page_idx) := e in
  (if offset <=? q_start then page_idx else q_start_page,
   if offset <=? q_end then page_idx else q_end_page).

(** Lines 92 to 96: [(q_start_page, q_end_page)]. *)
Definition span_pages (offsets : list (nat * nat)) (q_start q_end : nat)
  : nat * nat :=
  fold_left (page_step q_start q_end) offsets (0, 0).

End Segmenter.

(** ** Question parser: lines 98 to 124 and 153 to 188 *)

Record question := {
  qtype : string;
  qtext : string;
  qoptions : list string;
  qanswer : string
}.

Module Parser.

(** Line 98. *)
Definition span_lines (part : string) : list string :=
  List.map Text.strip
    (List.filter (fun line => Text.nonempty (Text.strip line))
       (Text.split_on LF (Text.strip part))).

(** [re.sub(r'^QUESTION\s+\d+\s*', '', line)] *)
Definition strip_marker (line : string) : string :=
  match Segmenter.marker_len line with
  | Some n => Text.lstrip (Text.drop n line)
  | None => line
  end.

(** Lines 101 to 104. *)
Definition clean_first (lines : list string) : list string :=
  match lines with
  | [] => []
  | first_line :: rest =>
      let first_line_clean := Text.strip (strip_marker first_line) in
      if Text.nonempty first_line_clean then first_line_clean :: rest
      else rest
  end.

Record lines_state := {
  question_text_lines : list string;
  options : list string;
  correct_answer_str : string;
  parsing_options : bool
}.

Definition lines_init : lines_state :=
  {| question_text_lines := []; options := [];
     correct_answer_str := EmptyString; parsing_options := false |}.

(** [re.match(r'^[A-Z]\.', line)] *)
Definition is_option_line (line : string) : bool :=
  match line with
  | String c (String d _) => Text.is_AZ c && Ascii.eqb d "."%char
  | _ => false
  end.

(** [opts[-1] += s] on a non-empty list. *)
Fixpoint extend_last (opts : list string) (s : string) : list string :=
  match opts with
  | [] => []
  | [o] => [o +:+ s]
  | o :: os => o :: extend_last os s
  end.

Definition answer_marker : string := "Correct Answer:".

(** One iteration of the loop of lines 111 to 122.  The test
    ["Correct Answer:" in line] is [split_second] being defined. *)
Definition classify (st : lines_state) (line : string) : lines_state :=
  if is_option_line line then
    {| question_text_lines := question_text_lines st;
       options := options st ++ [line];
       correct_answer_str := correct_answer_str st;
       parsing_options := true |}
  else
    match Text.split_second answer_marker line with
    | Some after =>
        {| question_text_lines := question_text_lines st;
           options := options st;
           correct_answer_str := Text.strip after;
           parsing_options := false |}
    | None =>
        if negb (parsing_options st) then
          {| question_text_lines := question_text_lines st ++ [line];
             options := options st;
             correct_answer_str := correct_answer_str st;
             parsing_options := parsing_options st |}
        else
          match options st with
          | _ :: _ =>
              {| question_text_lines := question_text_lines st;
                 options := extend_last (options st) (" " +:+ line);
                 correct_answer_str := correct_answer_str st;
                 parsing_options := parsing_options st |}
          | [] =>
              {| question_text_lines := question_text_lines st ++ [line];
                 options := options st;
                 correct_answer_str := correct_answer_str st;
                 parsing_options := parsing_options st |}
          end
    end.

Definition classify_lines (lines : list string) : lines_state :=
  fold_left classify lines lines_init.

(** Line 124: the span is dropped. *)
Definition unusable (st : lines_state) : bool :=
  match question_text_lines st with [] => true | _ => false end
  || negb (Text.nonempty (correct_answer_str st)).

(** Line 154: [[a.lower() for a in re.findall(r'[A-Z]', s)]]. *)
Fixpoint answers_of (s : string) : list string :=
  match s with
  | EmptyString => []
  | String c s' =>
      if Text.is_AZ c then Text.lower (String c EmptyString) :: answers_of s'
      else answers_of s'
  end.

(** What [.*] matches at the start of [s]: everything before a line feed. *)
Fixpoint dot_star (s : string) : string :=
  match s with
  | EmptyString => EmptyString
  | String c s' =>
      if Ascii.eqb c LF then EmptyString else String c (dot_star s')
  end.

(** [re.match] of line 169 on [opt] (one letter of [[A-Z]], a dot, white
    space, then the group [.*]): the two groups. *)
Definition option_match (opt : string) : option (ascii * string) :=
  match opt with
  | String c (String d rest) =>
      if Text.is_AZ c && Ascii.eqb d "."%char
      then Some (c, dot_star (Text.lstrip rest)) else None
  | _ => None
  end.

(** Lines 158 to 163. *)
Definition opt_texts (opts : list string) : list string :=
  omap (fun opt =>
          match option_match opt with
          | Some (_, g) => Some (Text.lower (Text.strip g))
          | None => None
          end) opts.

(** Lines 156 to 165. *)
Definition is_tf (opts : list string) : bool :=
  if length opts =? 2 then
    bool_decide ("true" ∈ opt_texts opts)
    && bool_decide ("false" ∈ opt_texts opts)
  else false.

(** Lines 167 to 173. *)
Definition formatted_options (opts : list string) : list string :=
  omap (fun opt =>
          match option_match opt with
          | Some (c, g) =>
              let letter := Text.lower (String c EmptyString) in
              let text := Text.strip g in
              Some (letter +:+ ") " +:+ text)
          | None => None
          end) opts.

(** Lines 153 to 188, for the body text [q_text] as it stands after the
    exhibit block. *)
Definition build_question (st : lines_state) (q_text : string) : question :=
  let answers := answers_of (correct_answer_str st) in
  let tf := is_tf (options st) in
  let '(q_type, final_answer) :=
    if tf then
      let ans_letter := match answers with a :: _ => a | [] => "a" end in
      ("@tf", if String.eqb ans_letter "a" then "true" else "false")
    else
      (if length answers =? 1 then "@mc" else "@sata",
       Text.join ", " answers) in
  {| qtype := q_type;
     qtext := q_text;
     qoptions := if negb tf then formatted_options (options st) else [];
     qanswer := final_answer |}.

End Parser.

(** ** Exhibit assigner: lines 128 to 151 *)

Record occurrence := { page : nat; b64 : string }.

Module Exhibit.

(** Lines 129 to 132. *)
Definition in_span (q_start_page q_end_page : nat) (e : nat * occurrence)
  : bool :=
  (q_start_page <=? page e.2) && (page e.2 <=? q_end_page).

Definition images_in_span_indices (all_images_list : list occurrence)
    (q_start_page q_end_page : nat) : list nat :=
  List.map fst
    (List.filter (in_span q_start_page q_end_page) (enumerate all_images_list)).

(** The variables the walk of lines 136 to 142 updates. *)
Record walk_state := {
  assigned_images : list string;
  seen_b64 : gset string;
  last_image_idx_used : Z
}.

Definition walk_init (last : Z) : walk_state :=
  {| assigned_images := []; seen_b64 := ∅; last_image_idx_used := last |}.

(** One iteration of the walk. *)
Definition visit (all_images_list : list occurrence) (st : walk_state)
    (idx : nat) : option walk_state :=
  if (last_image_idx_used st <? Z.of_nat idx)%Z then
    img ← all_images_list !! idx;
    let b := b64 img in
    if bool_decide (b ∉ seen_b64 st) then
      Some {| assigned_images := assigned_images st ++ [b];
              seen_b64 := seen_b64 st ∪ {[ b ]};
              last_image_idx_used := Z.of_nat idx |}
    else
      Some {| assigned_images := assigned_images st;
              seen_b64 := seen_b64 st;
              last_image_idx_used := Z.of_nat idx |}
  else Some st.

Fixpoint walk (all_images_list : list occurrence) (st : walk_state)
    (idxs : list nat) : option walk_state :=
  match idxs with
  | [] => Some st
  | idx :: rest =>
      st' ← visit all_images_list st idx;
      walk all_images_list st' rest
  end.

(** Lines 144 to 148: [images_in_span_indices[-1]] is [last idxs]. *)
Definition fallback (all_images_list : list occurrence) (idxs : list nat)
    (st : walk_state) : option walk_state :=
  match assigned_images st, last idxs with
  | [], Some i =>
      img ← all_images_list !! i;
      Some {| assigned_images := assigned_images st ++ [b64 img];
              seen_b64 := seen_b64 st;
              last_image_idx_used := last_image_idx_used st |}
  | _, _ => Some st
  end.

Definition exhibit_ref (b : string) : string :=
  nl +:+ nl +:+ "![Exhibit](" +:+ b +:+ ")".

(** Lines 150 and 151. *)
Definition append_refs (q_text : string) (assigned : list string) : string :=
  fold_left (fun t b => t +:+ exhibit_ref b) assigned q_text.

Definition mentions_exhibit (q_text : string) : bool :=
  Text.contains "exhibit" (Text.lower q_text).

(** Lines 128 to 151: the new body text and the new high-water mark. *)
Definition assign_exhibits (all_images_list : list occurrence) (last : Z)
    (q_start_page q_end_page : nat) (q_text : string) : option (string * Z) :=
  if mentions_exhibit q_text then
    let idxs :=
      images_in_span_indices all_images_list q_start_page q_end_page in
    st ← walk all_images_list (walk_init last) idxs;
    st ← fallback all_images_list idxs st;
    Some (append_refs q_text (assigned_images st), last_image_idx_used st)
  else Some (q_text, last).

End Exhibit.

(** ** The question loop and [parse_vce_pdf] *)

Record loop_state := {
  last_image_idx_used : Z;
  questions : list question
}.

Definition loop_init : loop_state :=
  {| last_image_idx_used := (-1)%Z; questions := [] |}.

(** Lines 90 to 122 on one span: the state of the line classifier after the
    last line; [None] is the [continue] of line 99. *)
Definition span_state (text : string) (span : nat * nat)
  : option Parser.lines_state :=
  let '(q_start, q_end) := span in
  let part := Text.slice q_start q_end text in
  match Parser.span_lines part with
  | [] => None
  | lines => Some (Parser.classify_lines (Parser.clean_first lines))
  end.

(** Lines 90 to 124: [None] is a [continue]. *)
Definition read_span (text : string) (span : nat * nat)
  : option Parser.lines_state :=
  st ← span_state text span;
  if Parser.unusable st then None else Some st.

(** The body of the loop of line 87; the outer [None] is an exception. *)
Definition loop_body (text : string) (offsets : list (nat * nat))
    (all_images_list : list occurrence) (ls : loop_state) (span : nat * nat)
  : option loop_state :=
  let '(q_start_page, q_end_page) :=
    Segmenter.span_pages offsets span.1 span.2 in
  match read_span text span with
  | None => Some ls
  | Some st =>
      let q_text := Text.join " " (Parser.question_text_lines st) in
      '(q_text, last) ←
        Exhibit.assign_exhibits all_images_list (last_image_idx_used ls)
          q_start_page q_end_page q_text;
      Some {| last_image_idx_used := last;
              questions := questions ls ++ [Parser.build_question st q_text] |}
  end.

Fixpoint run_loop (text : string) (offsets : list (nat * nat))
    (all_images_list : list occurrence) (ls : loop_state)
    (spans : list (nat * nat)) : option loop_state :=
  match spans with
  | [] => Some ls
  | span :: rest =>
      ls' ← loop_body text offsets all_images_list ls span;
      run_loop text offsets all_images_list ls' rest
  end.

(** [parse_vce_pdf], from the page texts [reader.pages[i].extract_text()]
    and the list [extract_all_image_occurrences] returned. *)
Definition parse_vce_pdf (pages : list string)
    (all_images_list : list occurrence) : option (string * list question) :=
  let buf := Segmenter.read_pages pages in
  let text := Segmenter.full_text buf in
  let ms := Segmenter.markers text in
  let title := Segmenter.quiz_title text ms in
  ls ← run_loop text (Segmenter.page_offsets buf) all_images_list loop_init
         (Segmenter.question_spans ms (String.length text));
  Some (title, questions ls).

(** ** Markup formatter: [format_flashquiz] *)

Module Formatter.

(** The objects a call can reach: the list of questions the caller passed
    and the list the local variable [output] is bound to. *)
Record store := {
  questions_arg : list question;
  output : list string
}.

Definition M (A : Type) : Type := store -> A * store.

#[export] Instance M_ret : MRet M := fun A a s => (a, s).
#[export] Instance M_bind : MBind M :=
  fun A B k m s => let '(a, s') := m s in k a s'.

(** [output = []] *)
Definition new_output : M unit :=
  fun s => (tt, {| questions_arg := questions_arg s; output := [] |}).

(** [output.append(line)] *)
Definition append (line : string) : M unit :=
  fun s => (tt, {| questions_arg := questions_arg s;
                   output := output s ++ [line] |}).

Definition read_output : M (list string) := fun s => (output s, s).

Definition read_questions : M (list question) :=
  fun s => (questions_arg s, s).

Fixpoint for_each {A} (l : list A) (body : A -> M unit) : M unit :=
  match l with
  | [] => mret tt
  | x :: l' => body x ;; for_each l' body
  end.

(** Lines 206 to 211. *)
Definition emit_question (iq : nat * question) : M unit :=
  let '(i, q) := iq in
  append (qtype q +:+ " " +:+ Text.of_nat i +:+ ") " +:+ qtext q) ;;
  match qoptions q with
  | [] => mret tt
  | opts => for_each opts append
  end ;;
  append ("= " +:+ qanswer q) ;;
  append "".

(** The body of [format_flashquiz]; the second argument is in the store. *)
Definition format_body (title : string) : M string :=
  new_output ;;
  append "---" ;;
  append ("quiz-title: " +:+ dquote +:+ title +:+ dquote) ;;
  append "time-limit: 0" ;;
  append "pass-score: 80" ;;
  append "shuffle: true" ;;
  append "show-answer: true" ;;
  append ("exam-range: " +:+ dquote +:+ "-" +:+ dquote) ;;
  append "---" ;;
  append "" ;;
  qs ← read_questions ;
  for_each (enumerate_from 1 qs) emit_question ;;
  out ← read_output ;
  mret (Text.join nl out).

(** A call [format_flashquiz(title, questions)] from a state where the
    previous binding of [output] is [junk]. *)
Definition call (title : string) (qs : list question) (junk : list string)
  : string * store :=
  format_body title {| questions_arg := qs; output := junk |}.

Definition format_flashquiz (title : string) (qs : list question) : string :=
  (call title qs []).1.

End Formatter.

(** ** Image extractor: [extract_all_image_occurrences]

    What pypdf hands to the script is data here.  A page is its extracted
    text, its [/XObject] resources and its content stream.  Each of the
    three can fail: [extract_text()] can raise; the resources can be
    something other than a dictionary of dictionaries, on which lines 33 to
    38 raise; the content stream can be absent or fail to parse, and an
    image stream whose [get_data()] raises has no data.  Only the last kind
    of failure happens inside the [try] of line 40. *)

Module Pdf.

(** A dictionary or stream of the [/XObject] dictionary, after
    [get_object()]: its [/Subtype] and its decoded data. *)
Record xobject := {
  subtype : string;
  stream_data : option (list byte)
}.

(** An entry of the [/XObject] dictionary: an object that has [get], or
    one that has not (a number, [null], ...), on which line 37 raises. *)
Inductive entry :=
| Object (obj : xobject)
| NotADictionary.

(** [page.get('/Resources', {}).get('/XObject', {})]: a dictionary, empty
    when a key is absent, or anything else, on which line 33 or the
    [items()] of line 35 raises. *)
Inductive resources :=
| XObjects (entries : gmap string entry)
| NoDictionary.

(** An operand of a content-stream operation: a name such as [/Im1], some
    other hashable object, or an object that cannot be hashed (an array or
    a dictionary), on which [name in images] raises. *)
Inductive operand :=
| Name (name : string)
| Scalar
| Unhashable.

Record operation := {
  operands : list operand;
  operator : list byte
}.

(** [page.get_contents()] and [ContentStream(contents, reader)]. *)
Inductive page_contents :=
| NoContents
| Unreadable
| Operations (ops : list operation).

Record pdf_page := {
  (** [page.extract_text() or ""]; [None] when [extract_text()] raises *)
  text : option string;
  xobjects : resources;
  contents : page_contents
}.

(** [a == b] on [bytes]. *)
Fixpoint bytes_eqb (a b : list byte) : bool :=
  match a, b with
  | [], [] => true
  | x :: a', y :: b' => Byte.eqb x y && bytes_eqb a' b'
  | _, _ => false
  end.

(** Line 37. *)
Definition is_image (o : xobject) : bool := String.eqb (subtype o) "/Image".

Definition has_get (e : entry) : bool :=
  match e with Object _ => true | NotADictionary => false end.

Definition image_entry (e : entry) : option xobject :=
  match e with
  | Object o => if is_image o then Some o else None
  | NotADictionary => None
  end.

(** Lines 33 to 38: the dictionary [images]; [None] when a line raises,
    which no [try] catches. *)
Definition image_objects (p : pdf_page) : option (gmap string xobject) :=
  match xobjects p with
  | NoDictionary => None
  | XObjects entries =>
      if bool_decide (map_Forall (fun _ e => has_get e = true) entries)
      then Some (omap image_entry entries)
      else None
  end.

(** Lines 45 to 53 from the operation [ops] on: the occurrences so far and
    whether an exception ended the loop. *)
Fixpoint run_operations (i : nat) (images : gmap string xobject)
    (ops : list operation) (all_occurrences : list occurrence)
  : list occurrence * bool :=
  match ops with
  | [] => (all_occurrences, false)
  | op :: rest =>
      if bytes_eqb (operator op) (list_byte_of_string "Do") then
        match operands op with
        | [] => (all_occurrences, true)
        | Unhashable :: _ => (all_occurrences, true)
        | Scalar :: _ => run_operations i images rest all_occurrences
        | Name name :: _ =>
            match images !! name with
            | None => run_operations i images rest all_occurrences
            | Some obj =>
                match stream_data obj with
                | None => (all_occurrences, true)
                | Some data =>
                    match ImageData.get_image_base64_from_data data name with
                    | Some b64 =>
                        if Text.nonempty b64 then
                          run_operations i images rest
                            (all_occurrences ++ [{| page := i; b64 := b64 |}])
                        else run_operations i images rest all_occurrences
                    | None => run_operations i images rest all_occurrences
                    end
                end
            end
        end
      else run_operations i images rest all_occurrences
  end.

(** Lines 40 to 55 for the page of index [i], whose images are [images]:
    the occurrences and whether the [except] branch ran. *)
Definition page_occurrences (i : nat) (images : gmap string xobject)
    (p : pdf_page) (all_occurrences : list occurrence)
  : list occurrence * bool :=
  match contents p with
  | NoContents => (all_occurrences, false)
  | Unreadable => (all_occurrences, true)
  | Operations ops => run_operations i images ops all_occurrences
  end.

(** One iteration of the loop of line 32: the occurrences and the numbers
    of the pages a warning was printed for; [None] when lines 33 to 38
    raise. *)
Definition add_page_images (st : list occurrence * list nat)
    (ip : nat * pdf_page) : option (list occurrence * list nat) :=
  let '(all_occurrences, warned) := st in
  let '(i, p) := ip in
  images ← image_objects p;
  let '(all_occurrences, raised) :=
    page_occurrences i images p all_occurrences in
  Some (all_occurrences, if raised then warned ++ [i + 1] else warned).

(** The loop of line 32 from some page on: the first page that raises ends
    the call. *)
Fixpoint extract_pages (l : list (nat * pdf_page))
    (st : list occurrence * list nat)
  : option (list occurrence * list nat) :=
  match l with
  | [] => Some st
  | ip :: rest => st' ← add_page_images st ip; extract_pages rest st'
  end.

Definition extract_all_image_occurrences (pages : list pdf_page)
  : option (list occurrence * list nat) :=
  extract_pages (enumerate pages) ([], []).

(** Lines 67 and 68: the texts of the pages; [None] when an
    [extract_text()] raises. *)
Fixpoint page_texts (pages : list pdf_page) : option (list string) :=
  match pages with
  | [] => Some []
  | p :: rest => t ← text p; ts ← page_texts rest; Some (t :: ts)
  end.

(** [parse_vce_pdf(pdf_path)] on the document [reader.pages]: line 62, then
    lines 64 to 190. *)
Definition parse_document (pages : list pdf_page)
  : option (string * list question) :=
  occurrences ← extract_all_image_occurrences pages;
  texts ← page_texts pages;
  parse_vce_pdf texts occurrences.1.

End Pdf.

(** ** Command line: [process_pdf] and [main]

    The file system and the terminal are data: which files a directory
    lists, which can be opened as PDF documents and which paths can be
    written are fields of a [world]; what is printed and written is a list
    of events. *)

Module Cli.

Inductive event :=
| PrintedDocument (markup : string)
| WroteFile (output_path : string) (markup : string)
| ErrorNoPdfFound
| FoundFiles (n : nat)
| Created (pdf_file : string)
| Failed (pdf_file : string)
| DoneFiles (n : nat)
| ErrorNotPdf
| ErrorInvalidPath.

(** How [main] ends: it returns, calls [sys.exit(code)], or lets an
    exception escape. *)
Inductive ending :=
| Returns
| Exits (code : nat)
| Raises.

Record world := {
  is_dir : bool;
  is_file : bool;
  (** [input_path.glob("*.pdf")] and [input_path.glob("*.PDF")] *)
  glob_lower : list string;
  glob_upper : list string;
  (** [pdf_file.with_suffix(".md")] *)
  md_path : string -> string;
  (** [PdfReader(path).pages]; [None] when the file cannot be read *)
  open_pdf : string -> option (list Pdf.pdf_page);
  (** whether [open(path, 'w')] and the write succeed *)
  can_write : string -> bool
}.

(** [s.endswith(suffix)] *)
Definition endswith (suffix s : string) : bool :=
  String.eqb (Text.drop (String.length s - String.length suffix) s) suffix.

(** The order of paths of one directory: the order of their names. *)
Definition path_le (a b : string) : Prop := String.leb a b = true.

#[export] Instance path_le_dec : RelDecision path_le :=
  fun a b => decide (String.leb a b = true).

(** [sorted(pdf_files)] *)
Definition sorted (files : list string) : list string :=
  merge_sort path_le files.

(** [process_pdf(pdf_path, output_path)]: the events, or [None] when an
    exception escapes. *)
Definition process_pdf (w : world) (pdf_path : string)
    (output_path : option string) : option (list event) :=
  pages ← open_pdf w pdf_path;
  '(title, questions) ← Pdf.parse_document pages;
  let output := Formatter.format_flashquiz title questions in
  match output_path with
  | Some path =>
      if Text.nonempty path then
        if can_write w path then Some [WroteFile path output] else None
      else Some [PrintedDocument output]
  | None => Some [PrintedDocument output]
  end.

(** One iteration of the loop of line 256. *)
Definition process_one (w : world) (pdf_file : string) : list event :=
  let output_file := md_path w pdf_file in
  match process_pdf w pdf_file (Some output_file) with
  | Some events => events ++ [Created pdf_file]
  | None => [Failed pdf_file]
  end.

(** [main()]; [input_path] is [str(input_path)], the path the argument
    names. *)
Definition main (w : world) (input_path : string) : list event * ending :=
  if is_dir w then
    let pdf_files := glob_lower w ++ glob_upper w in
    match pdf_files with
    | [] => ([ErrorNoPdfFound], Exits 1)
    | _ =>
        ([FoundFiles (length pdf_files)]
         ++ List.concat (List.map (process_one w) (sorted pdf_files))
         ++ [DoneFiles (length pdf_files)],
         Returns)
    end
  else if is_file w then
    if negb (endswith ".pdf" (Text.lower input_path)) then
      ([ErrorNotPdf], Exits 1)
    else
      match open_pdf w input_path with
      | None => ([], Raises)
      | Some pages =>
          match Pdf.parse_document pages with
          | None => ([], Raises)
          | Some (title, questions) =>
              ([PrintedDocument (Formatter.format_flashquiz title questions)],
               Returns)
          end
      end
  else ([ErrorInvalidPath], Exits 1).

End Cli.

(** * Specification side

    The definitions below do not come from the script: they say, in the
    words of the specification, what the theorems compare the script with. *)

Module Spec.

(** What the string helpers are to do. *)
Fixpoint all_space (s : string) : bool :=
  match s with
  | EmptyString => true
  | String c s' => Text.is_space c && all_space s'
  end.

Definition first_char (s : string) : option ascii :=
  match s with
  | EmptyString => None
  | String c _ => Some c
  end.

Fixpoint last_char (s : string) : option ascii :=
  match s with
  | EmptyString => None
  | String c EmptyString => Some c
  | String _ s' => last_char s'
  end.

(** [t] is [s] without the white space at its two ends. *)
Definition trimmed (s t : string) : Prop :=
  (exists l r, s = l +:+ t +:+ r /\ all_space l = true /\ all_space r = true)
  /\ (forall c, first_char t = Some c -> Text.is_space c = false)
  /\ (forall c, last_char t = Some c -> Text.is_space c = false).

(** The format a data URI announces, by the cascade of the specification:
    magic bytes first, then the extension of the resource name. *)
Definition recognised : list string := ["png"; "jpg"; "jpeg"; "gif"].

Inductive announced_ext (data : list byte) (name : string) : string -> Prop :=
| ext_jpg :
    [xff; xd8] `prefix_of` data ->
    announced_ext data name "jpg"
| ext_png :
    ¬ [xff; xd8] `prefix_of` data ->
    [x89; x50; x4e; x47] `prefix_of` data ->
    announced_ext data name "png"
| ext_gif :
    ¬ [xff; xd8] `prefix_of` data ->
    ¬ [x89; x50; x4e; x47] `prefix_of` data ->
    [x47; x49; x46] `prefix_of` data ->
    announced_ext data name "gif"
| ext_name e :
    ¬ [xff; xd8] `prefix_of` data ->
    ¬ [x89; x50; x4e; x47] `prefix_of` data ->
    ¬ [x47; x49; x46] `prefix_of` data ->
    e = Text.lower (ImageData.last_component name) ->
    e ∈ recognised ->
    announced_ext data name e
| ext_default :
    ¬ [xff; xd8] `prefix_of` data ->
    ¬ [x89; x50; x4e; x47] `prefix_of` data ->
    ¬ [x47; x49; x46] `prefix_of` data ->
    Text.lower (ImageData.last_component name) ∉ recognised ->
    announced_ext data name "png".

(** [r] is the largest page index whose start offset is at most [q], and 0
    when no page starts at or before [q]. *)
Definition largest_page (offsets : list (nat * nat)) (q r : nat) : Prop :=
  (exists off, (off, r) ∈ offsets /\ off <= q /\
     forall off' p, (off', p) ∈ offsets -> off' <= q -> p <= r)
  \/ ((forall off p, (off, p) ∈ offsets -> ¬ off <= q) /\ r = 0).

(** Page indices grow along the offset table. *)
Definition by_page (e1 e2 : nat * nat) : Prop := e1.2 < e2.2.

(** One component of the scan of lines 94 to 96. *)
Definition pick (q acc : nat) (e : nat * nat) : nat :=
  if e.1 <=? q then e.2 else acc.

(** [s] has no occurrence of the character [c]. *)
Fixpoint free_of (c : ascii) (s : string) : bool :=
  match s with
  | EmptyString => true
  | String d s' => negb (Ascii.eqb d c) && free_of c s'
  end.

(** The text of an option line: what follows the two characters of its
    letter-and-period prefix, trimmed. *)
Definition option_body (opt : string) : string := Text.strip (Text.drop 2 opt).

(** The same, lower-cased. *)
Definition option_text (opt : string) : string := Text.lower (option_body opt).

(** ["<lowercase letter>) <text>"] *)
Definition reformatted (opt : string) : string :=
  match opt with
  | String c _ => Text.lower (String c EmptyString) +:+ ") " +:+ option_body opt
  | EmptyString => EmptyString
  end.

(** What the line classifier guarantees of every entry of [options]. *)
Definition option_ok (opt : string) : Prop :=
  Parser.is_option_line opt = true /\ free_of LF opt = true.

(** The options are a true/false pair, in either order. *)
Definition true_false_pair (opts : list string) : Prop :=
  exists o1 o2, opts = [o1; o2] /\
    ((option_text o1 = "true" /\ option_text o2 = "false")
     \/ (option_text o1 = "false" /\ option_text o2 = "true")).

(** The answer of a true/false question, read off the first extracted
    letter: "true" if that letter is [a] and "false" otherwise. *)
Definition tf_answer_by_first_letter (answers : list string) : string :=
  match answers with
  | a :: _ => if String.eqb a "a" then "true" else "false"
  | [] => "false"
  end.

(** The same, with "true" when no letter was extracted. *)
Definition tf_answer (answers : list string) : string :=
  match answers with
  | a :: _ => if String.eqb a "a" then "true" else "false"
  | [] => "true"
  end.

(** C3 as it is stated, for the span [span] of [text]. *)
Definition tf_claim_as_stated (text : string) (span : nat * nat) : Prop :=
  forall st q_text,
    read_span text span = Some st ->
    true_false_pair (Parser.options st) ->
    let q := Parser.build_question st q_text in
    qtype q = "@tf" /\ qoptions q = [] /\
    qanswer q
    = tf_answer_by_first_letter
        (Parser.answers_of (Parser.correct_answer_str st)).

(** [sep] occurs in [s]. *)
Definition occurs_in (sep s : string) : Prop :=
  exists before after, s = before +:+ sep +:+ after.

(** The body text contains "exhibit", whatever the case of its letters. *)
Definition mentions_exhibit (q_text : string) : Prop :=
  occurs_in "exhibit" (Text.lower q_text).

(** The walk of the exhibit assigner, rule by rule: an index that is not
    above the high-water mark is passed over; an index above it whose data
    was not assigned in this pass is assigned; an index above it whose data
    was already assigned is not; both of the latter raise the mark. *)
Inductive walk_spec (imgs : list occurrence)
  : Exhibit.walk_state -> list nat -> Exhibit.walk_state -> Prop :=
| walk_end st :
    walk_spec imgs st [] st
| walk_pass st idx rest st' :
    (Z.of_nat idx <= Exhibit.last_image_idx_used st)%Z ->
    walk_spec imgs st rest st' ->
    walk_spec imgs st (idx :: rest) st'
| walk_assign st idx rest img st' :
    (Exhibit.last_image_idx_used st < Z.of_nat idx)%Z ->
    imgs !! idx = Some img ->
    b64 img ∉ Exhibit.seen_b64 st ->
    walk_spec imgs
      {| Exhibit.assigned_images := Exhibit.assigned_images st ++ [b64 img];
         Exhibit.seen_b64 := Exhibit.seen_b64 st ∪ {[ b64 img ]};
         Exhibit.last_image_idx_used := Z.of_nat idx |} rest st' ->
    walk_spec imgs st (idx :: rest) st'
| walk_duplicate st idx rest img st' :
    (Exhibit.last_image_idx_used st < Z.of_nat idx)%Z ->
    imgs !! idx = Some img ->
    b64 img ∈ Exhibit.seen_b64 st ->
    walk_spec imgs
      {| Exhibit.assigned_images := Exhibit.assigned_images st;
         Exhibit.seen_b64 := Exhibit.seen_b64 st;
         Exhibit.last_image_idx_used := Z.of_nat idx |} rest st' ->
    walk_spec imgs st (idx :: rest) st'.

(** Everything in the seen set has been assigned in this pass. *)
Definition covered (st : Exhibit.walk_state) : Prop :=
  forall b, b ∈ Exhibit.seen_b64 st -> b ∈ Exhibit.assigned_images st.

(** The fallback: when the walk assigned nothing and the list of in-span
    indices is not empty, the last in-span occurrence is assigned and
    nothing else changes; otherwise nothing happens. *)
Inductive fallback_spec (imgs : list occurrence) (idxs : list nat)
  (st : Exhibit.walk_state) : Exhibit.walk_state -> Prop :=
| fallback_reuse i img st' :
    Exhibit.assigned_images st = [] ->
    last idxs = Some i ->
    imgs !! i = Some img ->
    Exhibit.assigned_images st' = [b64 img] ->
    Exhibit.seen_b64 st' = Exhibit.seen_b64 st ->
    Exhibit.last_image_idx_used st' = Exhibit.last_image_idx_used st ->
    fallback_spec imgs idxs st st'
| fallback_none :
    Exhibit.assigned_images st <> [] \/ idxs = [] ->
    fallback_spec imgs idxs st st.

(** A markdown image: [![alt](url)]. *)
Definition markdown_image (alt url : string) : string :=
  "![" +:+ alt +:+ "](" +:+ url +:+ ")".

(** The reference to the image [b] in a question body: an empty line, then
    the markdown image named [Exhibit] whose address is the data [b]. *)
Definition image_reference (b : string) : string :=
  String LF (String LF (markdown_image "Exhibit" b)).

(** The markdown references of the images [bs], in order. *)
Fixpoint refs (bs : list string) : string :=
  match bs with
  | [] => EmptyString
  | b :: bs' => image_reference b +:+ refs bs'
  end.

(** [idxs] is the list of the indices of the occurrences whose page lies in
    [[sp, ep]], in increasing order. *)
Definition in_span_indices (imgs : list occurrence) (sp ep : nat)
    (idxs : list nat) : Prop :=
  StronglySorted lt idxs /\
  forall i, i ∈ idxs <->
    exists img, imgs !! i = Some img /\ sp <= page img <= ep.

(** The in-span indices the assigner walks for a span: none when the span
    is dropped or its body does not mention an exhibit. *)
Definition span_walk (text : string) (offsets : list (nat * nat))
    (imgs : list occurrence) (span : nat * nat) : list nat :=
  match read_span text span with
  | Some st =>
      if Exhibit.mentions_exhibit
           (Text.join " " (Parser.question_text_lines st))
      then
        let '(sp, ep) := Segmenter.span_pages offsets span.1 span.2 in
        Exhibit.images_in_span_indices imgs sp ep
      else []
  | None => []
  end.

(** [idxs] is the list a question walks: for a span that is kept and
    whose body mentions an exhibit, the indices of the occurrences on its
    pages, in increasing order; else the empty list. *)
Definition walks (text : string) (offsets : list (nat * nat))
    (imgs : list occurrence) (span : nat * nat) (idxs : list nat) : Prop :=
  match read_span text span with
  | Some st =>
      let body := Text.join " " (Parser.question_text_lines st) in
      let pages := Segmenter.span_pages offsets span.1 span.2 in
      (mentions_exhibit body /\ in_span_indices imgs pages.1 pages.2 idxs)
      \/ (¬ mentions_exhibit body /\ idxs = [])
  | None => idxs = []
  end.

(** What one question is handed, by the rules of the high-water mark: the
    mark before and after, the indices its walk consumes, and the index its
    fallback reuses, if it runs. *)
Record pass := {
  hwm_before : Z;
  consumed_idxs : list nat;
  reused_idx : option nat;
  hwm_after : Z
}.

(** The rules, for a question that walks the indices [idxs] from the mark
    [h]: the walk consumes the indices above the mark; the mark ends at the
    last of them, or stays; the fallback reuses the last index of the list
    when the walk consumed nothing. *)
Definition pass_from (h : Z) (idxs : list nat) : pass :=
  let consumed := filter (fun i => (h < Z.of_nat i)%Z) idxs in
  {| hwm_before := h;
     consumed_idxs := consumed;
     reused_idx := match consumed with [] => last idxs | _ => None end;
     hwm_after :=
       match last consumed with Some i => Z.of_nat i | None => h end |}.

Definition pass_of (text : string) (offsets : list (nat * nat))
    (imgs : list occurrence) (h : Z) (span : nat * nat) : pass :=
  pass_from h (span_walk text offsets imgs span).

(** The log of a run of the question loop from the mark [h]: one entry for
    each span, each starting from the mark the previous one left. *)
Fixpoint run_log (text : string) (offsets : list (nat * nat))
    (imgs : list occurrence) (h : Z) (spans : list (nat * nat))
  : list pass :=
  match spans with
  | [] => []
  | span :: rest =>
      let p := pass_of text offsets imgs h span in
      p :: run_log text offsets imgs (hwm_after p) rest
  end.

(** The data of the occurrences of the indices [idxs]. *)
Definition data_of (imgs : list occurrence) (idxs : list nat)
  : list string :=
  omap (fun i => b64 <$> imgs !! i) idxs.

(** The strings of [bs] that are not in [seen], each at its first
    occurrence. *)
Fixpoint first_occurrences (seen bs : list string) : list string :=
  match bs with
  | [] => []
  | b :: bs' =>
      if bool_decide (b ∈ seen) then first_occurrences seen bs'
      else b :: first_occurrences (b :: seen) bs'
  end.

(** The images a log entry hands to its question: the data of the index the
    fallback reuses, or else the data of the consumed indices, each once. *)
Definition handed (imgs : list occurrence) (p : pass) : list string :=
  match reused_idx p with
  | Some i => data_of imgs [i]
  | None => first_occurrences [] (data_of imgs (consumed_idxs p))
  end.

(** The question a span gives when its log entry is [p]: none for a span
    that is dropped; else the body of the span followed by the references
    of the images handed to it. *)
Definition question_of (text : string) (imgs : list occurrence)
    (sp : (nat * nat) * pass) : option question :=
  st ← read_span text sp.1;
  Some (Parser.build_question st
          (Text.join " " (Parser.question_text_lines st)
           +:+ refs (handed imgs sp.2))).

(** Each entry starts from the mark the previous one left. *)
Fixpoint chained (h : Z) (log : list pass) : Prop :=
  match log with
  | [] => True
  | p :: rest => hwm_before p = h /\ chained (hwm_after p) rest
  end.

(** The pattern [QUESTION\s+\d+] matches [text] at offset [n]. *)
Definition matches_at (text : string) (n : nat) : Prop :=
  is_Some (Segmenter.marker_len (Text.drop n text)).

(** The first line of a text. *)
Definition first_line (s : string) : string :=
  match Text.split_on LF s with
  | l :: _ => l
  | [] => EmptyString
  end.

(** C6 as it is stated, for the title: with markers and a non-blank text
    before the first one, the title is the trimmed first line of the text
    before the first marker. *)
Definition title_claim_as_stated (pages : list string)
    (imgs : list occurrence) : Prop :=
  let text := Segmenter.full_text (Segmenter.read_pages pages) in
  forall title qs m0 ms,
    parse_vce_pdf pages imgs = Some (title, qs) ->
    Segmenter.markers text = m0 :: ms ->
    Text.strip (Text.take m0 text) <> EmptyString ->
    title = Text.strip (first_line (Text.take m0 text)).

(** The answer string has no letter of [[A-Z]]. *)
Definition no_upper (s : string) : Prop :=
  forall c, c ∈ list_ascii_of_string s -> Text.is_AZ c = false.

(** What C10 says of a span that is kept: one question is appended, and
    its answer is "true" for a true/false pair, and empty with the tag
    [@sata] otherwise. *)
Definition kept_with_default (text : string) (offsets : list (nat * nat))
    (imgs : list occurrence) (ls : loop_state) (span : nat * nat)
    (st : Parser.lines_state) : Prop :=
  exists q ls',
    loop_body text offsets imgs ls span = Some ls'
    /\ questions ls' = questions ls ++ [q]
    /\ (true_false_pair (Parser.options st) ->
        qtype q = "@tf" /\ qanswer q = "true")
    /\ (¬ true_false_pair (Parser.options st) ->
        qtype q = "@sata" /\ qanswer q = EmptyString).

(** C10 as it is stated: every span whose answer string is not empty and
    has no upper-case letter is kept. *)
Definition kept_claim_as_stated (text : string) (offsets : list (nat * nat))
    (imgs : list occurrence) (ls : loop_state) (span : nat * nat) : Prop :=
  forall st,
    span_state text span = Some st ->
    Parser.correct_answer_str st <> EmptyString ->
    no_upper (Parser.correct_answer_str st) ->
    kept_with_default text offsets imgs ls span st.

(** All the indices the walks of a run consumed, in the order of the run. *)
Definition all_consumed (log : list pass) : list nat :=
  List.concat (List.map consumed_idxs log).

(** The mark at the end of a logged run that started at [h]. *)
Definition hwm_end (h : Z) (log : list pass) : Z :=
  fold_left (fun _ p => hwm_after p) log h.

(** The lines of the document, as a function of the two arguments. *)
Definition header_lines (title : string) : list string :=
  ["---"; "quiz-title: " +:+ dquote +:+ title +:+ dquote; "time-limit: 0";
   "pass-score: 80"; "shuffle: true"; "show-answer: true";
   "exam-range: " +:+ dquote +:+ "-" +:+ dquote; "---"; EmptyString].

Definition question_lines (iq : nat * question) : list string :=
  [qtype iq.2 +:+ " " +:+ Text.of_nat iq.1 +:+ ") " +:+ qtext iq.2]
  ++ qoptions iq.2 ++ ["= " +:+ qanswer iq.2; EmptyString].

Definition document_lines (title : string) (qs : list question)
  : list string :=
  header_lines title
  ++ List.concat (List.map question_lines (enumerate_from 1 qs)).

End Spec.


(** * Sample inputs *)

Module Samples.

(** The text of a page made of the lines [ls]. *)
Definition page_of (ls : list string) : string := Text.join nl ls.

Definition whole (text : string) : nat * nat := (0, String.length text).

Definition tf_text : string :=
  page_of ["QUESTION 1"; "Is it so?"; "A. True"; "B. False";
           "Correct Answer: B"] +:+ nl.

Definition tf_state : Parser.lines_state :=
  {| Parser.question_text_lines := ["Is it so?"];
     Parser.options := ["A. True"; "B. False"];
     Parser.correct_answer_str := "B";
     Parser.parsing_options := false |}.

(** The same question with the answer spelled out in lower case. *)
Definition tf_lower_text : string :=
  page_of ["QUESTION 1"; "Is it so?"; "A. True"; "B. False";
           "Correct Answer: true"] +:+ nl.

Definition tf_lower_state : Parser.lines_state :=
  {| Parser.question_text_lines := ["Is it so?"];
     Parser.options := ["A. True"; "B. False"];
     Parser.correct_answer_str := "true";
     Parser.parsing_options := false |}.

(** A choice question whose answer has no upper-case letter. *)
Definition mc_lower_text : string :=
  page_of ["QUESTION 4"; "Which one?"; "A. one"; "B. two";
           "Correct Answer: b"] +:+ nl.

Definition mc_lower_state : Parser.lines_state :=
  {| Parser.question_text_lines := ["Which one?"];
     Parser.options := ["A. one"; "B. two"];
     Parser.correct_answer_str := "b";
     Parser.parsing_options := false |}.

(** A marker followed by an answer line only. *)
Definition no_body_text : string :=
  page_of ["QUESTION 1"; "Correct Answer: true"] +:+ nl.

Definition no_body_state : Parser.lines_state :=
  {| Parser.question_text_lines := [];
     Parser.options := [];
     Parser.correct_answer_str := "true";
     Parser.parsing_options := false |}.

Definition sata_text : string :=
  page_of ["QUESTION 7 Pick two."; "A. one"; "B. two"; "or so";
           "C. three"; "D. four"; "Correct Answer: B, D"; "Section: none"]
  +:+ nl.

Definition sata_state : Parser.lines_state :=
  {| Parser.question_text_lines := ["Pick two."; "Section: none"];
     Parser.options := ["A. one"; "B. two or so"; "C. three"; "D. four"];
     Parser.correct_answer_str := "B, D";
     Parser.parsing_options := false |}.

(** A page whose text starts with an empty line. *)
Definition blank_first_page : string :=
  page_of [""; "My Exam"; "QUESTION 1"; "Is it so?"; "A. True"; "B. False";
           "Correct Answer: A"].

(** A two-page exam.  Two questions of the first page share its exhibit;
    the exhibit of the second page is drawn twice. *)
Definition exam_pages : list string :=
  [page_of ["Sample Exam"; "version 1"; "QUESTION 1";
            "Refer to the Exhibit. Which one?"; "A. one"; "B. two";
            "Correct Answer: B"; "QUESTION 2"; "Same exhibit. Is it so?";
            "A. True"; "B. False"; "Correct Answer: A";
            "QUESTION 3 Pick two."; "A. one"; "B. two"; "or so"; "C. three";
            "Correct Answer: A, C"];
   page_of ["QUESTION 4"; "Look at the EXHIBIT."; "A. left"; "B. right";
            "Correct Answer: A"; "Explanation: none"]].

Definition exam_images : list occurrence :=
  [{| page := 0; b64 := "data:image/png;base64,AA==" |};
   {| page := 1; b64 := "data:image/gif;base64,R0lG" |};
   {| page := 1; b64 := "data:image/gif;base64,R0lG" |}].

Definition exam_text : string :=
  Segmenter.full_text (Segmenter.read_pages exam_pages).

Definition exam_offsets : list (nat * nat) :=
  Segmenter.page_offsets (Segmenter.read_pages exam_pages).

Definition exam_spans : list (nat * nat) :=
  Segmenter.question_spans (Segmenter.markers exam_text)
    (String.length exam_text).

End Samples.

(** * Further properties: specification side *)

Module Props.

(** The text buffer of a document: every page text followed by a line feed. *)
Fixpoint concat_pages (pages : list string) : string :=
  match pages with
  | [] => EmptyString
  | t :: rest => (t +:+ nl) +:+ concat_pages rest
  end.

(** The offset table of a document whose first page has index [n] and
    starts at offset [off]. *)
Fixpoint offsets_from (off n : nat) (pages : list string)
  : list (nat * nat) :=
  match pages with
  | [] => []
  | t :: rest =>
      (off, n) :: offsets_from (off + String.length (t +:+ nl)) (S n) rest
  end.

(** The raw texts of the spans. *)
Definition span_parts (text : string) (spans : list (nat * nat))
  : list string :=
  List.map (fun span => Text.slice span.1 span.2 text) spans.

Fixpoint concat_all (ls : list string) : string :=
  match ls with
  | [] => EmptyString
  | l :: rest => l +:+ concat_all rest
  end.

(** Each span ends where the next one starts, and the last one at [len]. *)
Fixpoint contiguous (spans : list (nat * nat)) (len : nat) : Prop :=
  match spans with
  | [] => True
  | (a, b) :: rest =>
      a < b /\ b <= len /\
      match rest with
      | (a', _) :: _ => b = a'
      | [] => b = len
      end /\ contiguous rest len
  end.

(** The matches that start at the offsets [ms] of the suffix [s] of a text,
    [s] starting at offset [pos]: each lies inside [s] and ends before the
    next one starts. *)
Fixpoint well_spaced (pos : nat) (s : string) (ms : list nat) : Prop :=
  match ms with
  | [] => True
  | m :: rest =>
      (exists n,
         pos <= m
         /\ Segmenter.marker_len (Text.drop (m - pos) s) = Some n
         /\ 10 <= n
         /\ m + n <= pos + String.length s
         /\ match rest with m' :: _ => m + n <= m' | [] => True end)
      /\ well_spaced pos s rest
  end.

(** A line that neither starts an option nor carries the answer marker. *)
Definition plain (line : string) : Prop :=
  Parser.is_option_line line = false
  /\ Text.split_second Parser.answer_marker line = None.

(** An option line with the plain lines that continue it. *)
Definition option_group (g : string * list string) : Prop :=
  Parser.is_option_line g.1 = true /\ Forall plain g.2.

Definition group_lines (g : string * list string) : list string :=
  g.1 :: g.2.

(** [b] is the data of an occurrence drawn on a page of [[sp, ep]]. *)
Definition image_in_span (imgs : list occurrence) (sp ep : nat)
    (b : string) : Prop :=
  exists i img, imgs !! i = Some img /\ sp <= page img <= ep /\ b64 img = b.

(** The seen set and the assigned list hold the same data, once each. *)
Definition seen_is_assigned (st : Exhibit.walk_state) : Prop :=
  NoDup (Exhibit.assigned_images st)
  /\ forall b, b ∈ Exhibit.seen_b64 st <-> b ∈ Exhibit.assigned_images st.

(** The body of a question before the exhibit block: line 126. *)
Definition base_text (st : Parser.lines_state) : string :=
  Text.join " " (Parser.question_text_lines st).

(** [b] is the data of some occurrence of the document. *)
Definition from_images (imgs : list occurrence) (b : string) : Prop :=
  exists img, img ∈ imgs /\ b64 img = b.

(** How a kept span shows in the question list. *)
Definition question_of (imgs : list occurrence) (st : Parser.lines_state)
    (q : question) : Prop :=
  exists bs,
    q = Parser.build_question st (base_text st +:+ Spec.refs bs)
    /\ NoDup bs /\ Forall (from_images imgs) bs.

(** Two questions that differ by exhibit references only. *)
Definition same_but_images (imgs : list occurrence) (q q0 : question)
  : Prop :=
  qtype q = qtype q0 /\ qoptions q = qoptions q0 /\ qanswer q = qanswer q0
  /\ exists bs, qtext q = qtext q0 +:+ Spec.refs bs
               /\ NoDup bs /\ Forall (from_images imgs) bs.

(** The character class [[a-z]]. *)
Definition is_az (c : ascii) : bool :=
  let n := Text.code c in ((97 <=? n) && (n <=? 122))%N.

Definition single_az (a : string) : Prop :=
  exists c, is_az c = true /\ a = String c EmptyString.

(** ["<a-z>) ..."] *)
Definition option_shape (o : string) : Prop :=
  exists c rest, is_az c = true /\ o = String c (") " +:+ rest).

(** What every question handed to the formatter looks like. *)
Definition well_formed (q : question) : Prop :=
  qtext q <> EmptyString
  /\ Forall option_shape (qoptions q)
  /\ ((qtype q = "@tf" /\ qoptions q = []
       /\ (qanswer q = "true" \/ qanswer q = "false"))
      \/ (qtype q = "@mc" /\ single_az (qanswer q))
      \/ (qtype q = "@sata"
          /\ exists letters, Forall single_az letters
                /\ length letters <> 1
                /\ qanswer q = Text.join ", " letters)).

(** The operator [Do]. *)
Definition is_do (op : Pdf.operation) : bool :=
  Pdf.bytes_eqb (Pdf.operator op) (list_byte_of_string "Do").

(** The image an operation paints: a [Do] whose first operand names an
    image of the page whose data can be read. *)
Definition drawn (images : gmap string Pdf.xobject) (op : Pdf.operation)
  : option (string * list byte) :=
  if is_do op then
    match Pdf.operands op with
    | Pdf.Name name :: _ =>
        obj ← images !! name;
        data ← Pdf.stream_data obj;
        Some (name, data)
    | _ => None
    end
  else None.

(** The operations on which the loop body raises: a [Do] without operand,
    with an operand that cannot be hashed, or naming an image whose data
    cannot be read. *)
Definition raises (images : gmap string Pdf.xobject) (op : Pdf.operation)
  : bool :=
  is_do op
  && match Pdf.operands op with
     | [] => true
     | Pdf.Unhashable :: _ => true
     | Pdf.Scalar :: _ => false
     | Pdf.Name name :: _ =>
         match images !! name with
         | Some obj =>
             match Pdf.stream_data obj with None => true | Some _ => false end
         | None => false
         end
     end.

(** The occurrence recorded for an operation of page [i]. *)
Definition occurrence_of (i : nat) (images : gmap string Pdf.xobject)
    (op : Pdf.operation) : option occurrence :=
  '(name, data) ← drawn images op;
  b ← ImageData.get_image_base64_from_data data name;
  Some {| page := i; b64 := b |}.

(** The page [p] paints the image [name], whose bytes are [data]. *)
Definition paints (p : Pdf.pdf_page) (name : string) (data : list byte)
  : Prop :=
  exists entries images obj ops op,
    Pdf.xobjects p = Pdf.XObjects entries
    /\ entries !! name = Some (Pdf.Object obj)
    /\ Pdf.subtype obj = "/Image"
    /\ Pdf.stream_data obj = Some data
    /\ Pdf.contents p = Pdf.Operations ops
    /\ op ∈ ops
    /\ Pdf.image_objects p = Some images
    /\ drawn images op = Some (name, data).

(** The occurrence [o] is an image of its page. *)
Definition occurrence_sound (pages : list Pdf.pdf_page) (o : occurrence)
  : Prop :=
  exists p name data,
    pages !! page o = Some p
    /\ paints p name data
    /\ ImageData.get_image_base64_from_data data name = Some (b64 o).

Definition page_le (a b : occurrence) : Prop := page a <= page b.

(** The occurrence [o] moved [n] pages on. *)
Definition shift_page (n : nat) (o : occurrence) : occurrence :=
  {| page := n + page o; b64 := b64 o |}.

(** The resources and the text of the page can be read: lines 33 to 38
    and line 68 do not raise on it. *)
Definition readable (p : Pdf.pdf_page) : Prop :=
  is_Some (Pdf.image_objects p) /\ is_Some (Pdf.text p).

(** The file whose outcome an event reports. *)
Definition outcome_file (e : Cli.event) : option string :=
  match e with
  | Cli.Created f => Some f
  | Cli.Failed f => Some f
  | _ => None
  end.

(** Decoding of base64 (RFC 4648): the index of a character in the
    alphabet, the three bytes four indices stand for, and the bytes of an
    encoded string. *)
Fixpoint index_from (c : ascii) (s : string) (i : N) : N :=
  match s with
  | EmptyString => 0
  | String x s' => if Ascii.eqb x c then i else index_from c s' (N.succ i)
  end.

Definition sextet_index (c : ascii) : N := index_from c Base64.alphabet 0.

(** The three bytes of four indices. *)
Definition byte_a (i0 i1 : N) : N := N.lor (N.shiftl i0 2) (N.shiftr i1 4).

Definition byte_b (i1 i2 : N) : N :=
  N.lor (N.shiftl (N.land i1 15) 4) (N.shiftr i2 2).

Definition byte_c (i2 i3 : N) : N := N.lor (N.shiftl (N.land i2 3) 6) i3.

Definition byte_of (n : N) : byte :=
  match Byte.of_N n with Some b => b | None => x00 end.

Fixpoint b64decode (s : string) : list byte :=
  match s with
  | String c0 (String c1 (String c2 (String c3 rest))) =>
      let i0 := sextet_index c0 in
      let i1 := sextet_index c1 in
      let i2 := sextet_index c2 in
      let i3 := sextet_index c3 in
      if Ascii.eqb c2 Base64.pad then [byte_of (byte_a i0 i1)]
      else if Ascii.eqb c3 Base64.pad then
        [byte_of (byte_a i0 i1); byte_of (byte_b i1 i2)]
      else
        byte_of (byte_a i0 i1) :: byte_of (byte_b i1 i2)
        :: byte_of (byte_c i2 i3) :: b64decode rest
  | _ => []
  end.

(** The six bits of [n] from bit [k] on, and the bytes of the 24 bits
    [n]. *)
Definition field (k n : N) : N := N.land (N.shiftr n k) 63.

Definition first_byte (n : N) : N := byte_a (field 18 n) (field 12 n).
Definition second_byte (n : N) : N := byte_b (field 12 n) (field 6 n).
Definition third_byte (n : N) : N := byte_c (field 6 n) (field 0 n).

(** The stripped non-blank lines of a string: line 98 without the first
    [strip]. *)
Definition lines_of (s : string) : list string :=
  List.map Text.strip
    (List.filter (fun line => Text.nonempty (Text.strip line))
       (Text.split_on LF s)).

End Props.

(** * More sample inputs *)

Module Cases.

Definition plain_image (data : list byte) : Pdf.xobject :=
  {| Pdf.subtype := "/Image"; Pdf.stream_data := Some data |}.

(** An image whose [get_data()] raises. *)
Definition no_data_image : Pdf.xobject :=
  {| Pdf.subtype := "/Image"; Pdf.stream_data := None |}.

Definition image_of (data : list byte) : Pdf.entry :=
  Pdf.Object (plain_image data).

Definition form : Pdf.entry :=
  Pdf.Object {| Pdf.subtype := "/Form"; Pdf.stream_data := Some [] |}.

Definition broken_image : Pdf.entry := Pdf.Object no_data_image.

Definition paint (name : string) : Pdf.operation :=
  {| Pdf.operands := [Pdf.Name name];
     Pdf.operator := list_byte_of_string "Do" |}.

Definition other (op : string) : Pdf.operation :=
  {| Pdf.operands := [Pdf.Scalar]; Pdf.operator := list_byte_of_string op |}.

(** The two pages of the sample exam, with their drawings. *)
Definition exam_document : list Pdf.pdf_page :=
  match Samples.exam_pages with
  | [t0; t1] =>
      [{| Pdf.text := Some t0;
          Pdf.xobjects :=
            Pdf.XObjects {[ "/Fm1" := form; "/Im1" := image_of [x00] ]};
          Pdf.contents :=
            Pdf.Operations
              [other "cm"; paint "/Fm1"; paint "/Im1"; paint "/Im9";
               other "Tj"] |};
       {| Pdf.text := Some t1;
          Pdf.xobjects :=
            Pdf.XObjects
              {[ "/Im2" := image_of (list_byte_of_string "GIF") ]};
          Pdf.contents :=
            Pdf.Operations [paint "/Im2"; other "Tj"; paint "/Im2"] |}]
  | _ => []
  end.

(** A page whose second drawing cannot be decoded. *)
Definition damaged_page : Pdf.pdf_page :=
  {| Pdf.text := Some "";
     Pdf.xobjects :=
       Pdf.XObjects {[ "/Im1" := image_of [x00]; "/Bad" := broken_image ]};
     Pdf.contents :=
       Pdf.Operations [paint "/Im1"; paint "/Bad"; paint "/Im1"] |}.

(** A page that paints one image twice, and a name it has no image
    for. *)
Definition redrawn_page : Pdf.pdf_page :=
  {| Pdf.text := Some "";
     Pdf.xobjects := Pdf.XObjects {[ "/Im2" := image_of [x00; x01] ]};
     Pdf.contents :=
       Pdf.Operations
         [paint "/Im2"; other "Tj"; paint "/Im7"; paint "/Im2"] |}.

(** A page with an entry of its [/XObject] dictionary that is not a
    dictionary. *)
Definition torn_page : Pdf.pdf_page :=
  {| Pdf.text := Some "";
     Pdf.xobjects :=
       Pdf.XObjects
         {[ "/Im1" := image_of [x00]; "/X" := Pdf.NotADictionary ]};
     Pdf.contents := Pdf.Operations [paint "/Im1"] |}.

(** A directory with two readable files and one that is not a PDF
    document. *)
Definition batch_world : Cli.world :=
  {| Cli.is_dir := true;
     Cli.is_file := false;
     Cli.glob_lower := ["b.pdf"; "a.pdf"];
     Cli.glob_upper := ["C.PDF"];
     Cli.md_path := fun f => Text.take (String.length f - 4) f +:+ ".md";
     Cli.open_pdf :=
       fun f => if String.eqb f "a.pdf" then Some exam_document
                else if String.eqb f "b.pdf" then Some [damaged_page]
                else None;
     Cli.can_write := fun _ => true |}.

End Cases.

(** * Theorems *)

(** ** The string helpers *)

Lemma append_assoc (s1 s2 s3 : string) :
  (s1 +:+ s2) +:+ s3 = s1 +:+ (s2 +:+ s3).
Proof.
  induction s1 as [|c s1 IH]; [done|].
  change (String c ((s1 +:+ s2) +:+ s3) = String c (s1 +:+ (s2 +:+ s3))).
  by rewrite IH.
Qed.

Lemma append_empty_r (s : string) : s +:+ EmptyString = s.
Proof.
  induction s as [|c s IH]; [done|].
  change (String c (s +:+ EmptyString) = String c s). by rewrite IH.
Qed.

Lemma take_drop (n : nat) (s : string) : Text.take n s +:+ Text.drop n s = s.
Proof.
  revert s; induction n as [|n IH]; intros [|c s]; try done.
  cbn [Text.take Text.drop].
  change (String c (Text.take n s +:+ Text.drop n s) = String c s).
  by rewrite IH.
Qed.

Lemma lstrip_spec (s : string) :
  exists l, s = l +:+ Text.lstrip s /\ Spec.all_space l = true
            /\ forall c, Spec.first_char (Text.lstrip s) = Some c ->
                         Text.is_space c = false.
Proof.
  induction s as [|d s (l & Hs & Hl & Hc)].
  { exists EmptyString. by repeat split. }
  cbn [Text.lstrip]. destruct (Text.is_space d) eqn:Hd.
  - exists (String d l). split; [|split; [|done]].
    + change (String d s = String d (l +:+ Text.lstrip s)). by rewrite <- Hs.
    + cbn. by rewrite Hd, Hl.
  - exists EmptyString. split; [done|]. split; [done|].
    cbn. by intros c [= <-].
Qed.

Lemma rstrip_spec (s : string) :
  exists r, s = Text.rstrip s +:+ r /\ Spec.all_space r = true
            /\ forall c, Spec.last_char (Text.rstrip s) = Some c ->
                         Text.is_space c = false.
Proof.
  induction s as [|d s (r & Hs & Hr & Hc)].
  { exists EmptyString. by repeat split. }
  cbn [Text.rstrip]. destruct (Text.rstrip s) as [|e t] eqn:Ht.
  - change (s = r) in Hs. subst r.
    destruct (Text.is_space d) eqn:Hd.
    + exists (String d s). split; [done|]. split; [|done].
      cbn. by rewrite Hd, Hr.
    + exists s. split; [done|]. split; [done|]. cbn. by intros c [= <-].
  - exists r. split; [|split; [done|]].
    + change (String d s = String d (String e t +:+ r)). by rewrite <- Hs.
    + intros c Hlast. apply Hc. exact Hlast.
Qed.

Lemma rstrip_first_char (s : string) (c : ascii) :
  Spec.first_char (Text.rstrip s) = Some c ->
  Spec.first_char s = Some c.
Proof.
  destruct s as [|d s]; [done|]. cbn [Text.rstrip].
  destruct (Text.rstrip s); [|done]. by destruct (Text.is_space d).
Qed.

(** [strip] removes the white space at the two ends, and nothing else. *)
Lemma strip_trimmed (s : string) : Spec.trimmed s (Text.strip s).
Proof.
  unfold Text.strip.
  destruct (lstrip_spec s) as (l & Hs & Hl & Hfirst).
  destruct (rstrip_spec (Text.lstrip s)) as (r & Hs' & Hr & Hlast).
  split; [|split].
  - exists l, r. split; [|done]. by rewrite <- Hs', <- Hs.
  - intros c Hc. by apply Hfirst, rstrip_first_char.
  - done.
Qed.

Lemma split_on_nonempty (c : ascii) (s : string) : Text.split_on c s <> [].
Proof.
  destruct s as [|d s]; [done|]. cbn.
  destruct (Ascii.eqb d c); [done|]. by destruct (Text.split_on c s).
Qed.

Lemma split_on_cons (c : ascii) (s : string) :
  exists l ls, Text.split_on c s = l :: ls.
Proof.
  induction s as [|d s (l & ls & IH)]; [by eexists _, _|].
  cbn. destruct (Ascii.eqb d c); [by eexists _, _|].
  rewrite IH. by eexists _, _.
Qed.

(** [split_on] cuts at every occurrence of the separator: joining the
    pieces with the separator gives the string back. *)
Lemma join_split_on (c : ascii) (s : string) :
  Text.join (String c EmptyString) (Text.split_on c s) = s.
Proof.
  unfold Text.join. induction s as [|d s IH]; [done|].
  cbn [Text.split_on].
  destruct (Text.split_on c s) as [|w ws] eqn:Hsplit.
  { by destruct (split_on_nonempty c s). }
  destruct (Ascii.eqb_spec d c) as [->|Hne].
  - change (String c (String.concat (String c EmptyString) (w :: ws))
            = String c s).
    by rewrite IH.
  - destruct ws as [|w' ws].
    + cbn in IH |- *. by rewrite IH.
    + change (String d (String.concat (String c EmptyString) (w :: w' :: ws))
              = String d s).
      by rewrite IH.
Qed.

(** ** Image data URIs *)

Lemma startswith_prefix (p data : list byte) :
  ImageData.startswith p data = true <-> p `prefix_of` data.
Proof.
  revert data; induction p as [|x p IH]; intros data; simpl.
  - split; [intros _; apply prefix_nil | done].
  - destruct data as [|y data].
    + split; [done | intros H; by apply prefix_nil_inv in H].
    + rewrite andb_true_iff, IH. split.
      * intros [Hxy Hp]. apply Byte.byte_dec_bl in Hxy. subst y.
        by apply prefix_cons.
      * intros H. pose proof (prefix_cons_inv_1 _ _ _ _ H) as ->.
        apply prefix_cons_inv_2 in H. split; [|done].
        by apply Byte.byte_dec_lb.
Qed.

Lemma sig_png_bytes : ImageData.sig_png = [x89; x50; x4e; x47].
Proof. reflexivity. Qed.

Lemma sig_gif_bytes : ImageData.sig_gif = [x47; x49; x46].
Proof. reflexivity. Qed.

Lemma known_ext_recognised (e : string) :
  ImageData.known_ext e = true <-> e ∈ Spec.recognised.
Proof. unfold ImageData.known_ext. by rewrite bool_decide_eq_true. Qed.

(** The [try] body cannot raise: a result is always produced. *)
Lemma get_image_base64_total (data : list byte) (name : string) :
  is_Some (ImageData.get_image_base64_from_data data name).
Proof. unfold ImageData.get_image_base64_from_data. eauto. Qed.

(** C7. Whenever [get_image_base64_from_data] returns a result, the result
    is ["data:image/<ext>;base64,"] followed by the base64 encoding of the
    bytes, where [<ext>] is [jpg] for bytes that start with FF D8, else
    [png] for 89 50 4E 47, else [gif] for 47 49 46 ("GIF"), else the
    lower-cased last dot-separated component of the name when that is one
    of png, jpg, jpeg, gif, else [png]. *)
Theorem data_uri_format (data : list byte) (name uri : string) :
  ImageData.get_image_base64_from_data data name = Some uri ->
  exists ext,
    Spec.announced_ext data name ext /\
    uri = "data:image/" +:+ ext +:+ ";base64," +:+ Base64.b64encode data.
Proof.
  unfold ImageData.get_image_base64_from_data.
  rewrite sig_png_bytes, sig_gif_bytes. unfold ImageData.sig_jpeg.
  destruct (ImageData.startswith [xff; xd8] data) eqn:Hj.
  { intros [= <-]. eexists; split; [|reflexivity].
    apply Spec.ext_jpg. by apply startswith_prefix. }
  assert (¬ [xff; xd8] `prefix_of` data) as Nj
    by (rewrite <- startswith_prefix; congruence).
  destruct (ImageData.startswith [x89; x50; x4e; x47] data) eqn:Hp.
  { intros [= <-]. eexists; split; [|reflexivity].
    apply Spec.ext_png; [done|]. by apply startswith_prefix. }
  assert (¬ [x89; x50; x4e; x47] `prefix_of` data) as Np
    by (rewrite <- startswith_prefix; congruence).
  destruct (ImageData.startswith [x47; x49; x46] data) eqn:Hg.
  { intros [= <-]. eexists; split; [|reflexivity].
    apply Spec.ext_gif; [done..|]. by apply startswith_prefix. }
  assert (¬ [x47; x49; x46] `prefix_of` data) as Ng
    by (rewrite <- startswith_prefix; congruence).
  destruct (ImageData.known_ext _) eqn:Hk; cbn [negb]; intros [= <-].
  - eexists; split; [|reflexivity].
    apply Spec.ext_name; [done..|reflexivity|]. by apply known_ext_recognised.
  - eexists; split; [|reflexivity].
    apply Spec.ext_default; [done..|].
    rewrite <- known_ext_recognised. congruence.
Qed.

Lemma data_uri_format_witness :
  exists ext,
    Spec.announced_ext [x00; x01] "/Im7.tar.JPEG" ext /\
    "data:image/jpeg;base64,AAE="
    = "data:image/" +:+ ext +:+ ";base64," +:+ Base64.b64encode [x00; x01].
Proof. apply (data_uri_format [x00; x01] "/Im7.tar.JPEG"). reflexivity. Defined.

(** ** Page spans *)

Lemma add_pages_sorted (pages : list string) (n : nat)
    (b : Segmenter.buffer) :
  StronglySorted Spec.by_page (Segmenter.page_offsets b) ->
  (forall e, e ∈ Segmenter.page_offsets b -> e.2 < n) ->
  StronglySorted Spec.by_page
    (Segmenter.page_offsets
       (fold_left Segmenter.add_page (enumerate_from n pages) b)).
Proof.
  revert n b; induction pages as [|text pages IH]; intros n b Hs Hlt; [done|].
  cbn [enumerate_from fold_left]. apply IH.
  - cbn. apply StronglySorted_app_2; [|done|repeat constructor].
    intros e1 e2 H1 ->%list_elem_of_singleton. by apply Hlt.
  - cbn. intros e [H| ->%list_elem_of_singleton]%elem_of_app.
    + apply Hlt in H. lia.
    + cbn. lia.
Qed.

Lemma page_offsets_sorted (pages : list string) :
  StronglySorted Spec.by_page (Segmenter.page_offsets (Segmenter.read_pages pages)).
Proof.
  apply add_pages_sorted; [constructor|].
  intros e H. by apply elem_of_nil in H.
Qed.

Lemma span_pages_split (offsets : list (nat * nat)) (q_start q_end a b : nat) :
  fold_left (Segmenter.page_step q_start q_end) offsets (a, b)
  = (fold_left (Spec.pick q_start) offsets a,
     fold_left (Spec.pick q_end) offsets b).
Proof.
  revert a b; induction offsets as [|[off p] offsets IH]; intros a b; [done|].
  cbn [fold_left]. unfold Segmenter.page_step at 2. rewrite IH. reflexivity.
Qed.

Lemma pick_largest (q : nat) (offsets : list (nat * nat)) (a : nat) :
  StronglySorted Spec.by_page offsets ->
  let r := fold_left (Spec.pick q) offsets a in
  (exists off, (off, r) ∈ offsets /\ off <= q /\
     forall off' p, (off', p) ∈ offsets -> off' <= q -> p <= r)
  \/ ((forall off p, (off, p) ∈ offsets -> ¬ off <= q) /\ r = a).
Proof.
  intros Hs; revert a; induction Hs as [|[off0 p0] offsets Hs IH Hall];
    intros a; cbn zeta.
  { right. split; [|done]. intros off p H. by apply elem_of_nil in H. }
  cbn [fold_left]. rewrite Forall_forall in Hall.
  destruct (IH (Spec.pick q a (off0, p0)))
    as [(off & Hin & Hle & Hmax)|[Hnone Hr]].
  - left. exists off. split; [by right|]. split; [done|].
    intros off' p [[= -> ->]|Hin']%elem_of_cons Hq.
    + apply Hall in Hin. unfold Spec.by_page in Hin; cbn in Hin. lia.
    + by eapply Hmax.
  - rewrite Hr.
    replace (Spec.pick q a (off0, p0)) with (if off0 <=? q then p0 else a)
      by reflexivity.
    destruct (Nat.leb_spec off0 q) as [Hq|Hq].
    + left. exists off0. split; [by left|]. split; [done|].
      intros off' p [[= -> ->]|Hin']%elem_of_cons Hq'; [done|].
      by apply Hnone in Hin'.
    + right. split; [|done].
      intros off p [[= -> ->]|Hin']%elem_of_cons; [lia|by eapply Hnone].
Qed.

(** C8. For every span, [q_start_page] is the largest page index whose
    recorded start offset is at most [q_start], and [q_end_page] is the
    largest page index whose recorded start offset is at most [q_end];
    either is 0 when there is no such page. *)
Theorem span_pages_largest (pages : list string) (q_start q_end : nat) :
  let offsets := Segmenter.page_offsets (Segmenter.read_pages pages) in
  Spec.largest_page offsets q_start
    (Segmenter.span_pages offsets q_start q_end).1
  /\ Spec.largest_page offsets q_end
    (Segmenter.span_pages offsets q_start q_end).2.
Proof.
  cbn zeta. unfold Segmenter.span_pages. rewrite span_pages_split.
  pose proof (page_offsets_sorted pages) as Hs.
  split; apply pick_largest, Hs.
Qed.

(** ** Strings without line feeds *)

Lemma free_of_app (c : ascii) (s1 s2 : string) :
  Spec.free_of c (s1 +:+ s2) = Spec.free_of c s1 && Spec.free_of c s2.
Proof.
  induction s1 as [|d s1 IH]; [done|].
  simpl. rewrite IH. by rewrite andb_assoc.
Qed.

Lemma free_of_lstrip (c : ascii) (s : string) :
  Spec.free_of c s = true -> Spec.free_of c (Text.lstrip s) = true.
Proof.
  induction s as [|d s IH]; [done|].
  cbn [Text.lstrip]. destruct (Text.is_space d); [|done].
  cbn. intros [_ H]%andb_true_iff. by apply IH.
Qed.

Lemma free_of_rstrip (c : ascii) (s : string) :
  Spec.free_of c s = true -> Spec.free_of c (Text.rstrip s) = true.
Proof.
  induction s as [|d s IH]; [done|].
  cbn. intros [Hd H]%andb_true_iff. specialize (IH H).
  destruct (Text.rstrip s) as [|e r].
  - destruct (Text.is_space d); [done|]. cbn. by rewrite Hd.
  - cbn in *. by rewrite Hd, IH.
Qed.

Lemma free_of_strip (c : ascii) (s : string) :
  Spec.free_of c s = true -> Spec.free_of c (Text.strip s) = true.
Proof. intros H. by apply free_of_rstrip, free_of_lstrip. Qed.

Lemma free_of_drop (c : ascii) (n : nat) (s : string) :
  Spec.free_of c s = true -> Spec.free_of c (Text.drop n s) = true.
Proof.
  revert s; induction n as [|n IH]; intros [|d s]; try done.
  cbn. intros [_ H]%andb_true_iff. by apply IH.
Qed.

Lemma split_on_free (c : ascii) (s : string) :
  Forall (fun w => Spec.free_of c w = true) (Text.split_on c s).
Proof.
  induction s as [|d s IH]; [by repeat constructor|].
  cbn. destruct (Ascii.eqb d c) eqn:Hd.
  - by constructor.
  - destruct (Text.split_on c s) as [|w ws].
    + constructor; [|done]. simpl. by rewrite Hd.
    + inversion IH as [|? ? Hw Hws]; subst. constructor; [|done].
      simpl. by rewrite Hd, Hw.
Qed.

Lemma dot_star_free (s : string) :
  Spec.free_of LF s = true -> Parser.dot_star s = s.
Proof.
  induction s as [|d s IH]; [done|].
  cbn. intros [Hd H]%andb_true_iff. apply negb_true_iff in Hd.
  rewrite Hd. by rewrite IH.
Qed.

Lemma lstrip_idem (s : string) : Text.lstrip (Text.lstrip s) = Text.lstrip s.
Proof.
  induction s as [|d s IH]; [done|].
  cbn [Text.lstrip]. destruct (Text.is_space d) eqn:Hd; [done|].
  cbn [Text.lstrip]. by rewrite Hd.
Qed.

Lemma strip_lstrip (s : string) : Text.strip (Text.lstrip s) = Text.strip s.
Proof. unfold Text.strip. by rewrite lstrip_idem. Qed.

(** ** What the line classifier keeps in [options] *)

Lemma span_lines_free (part : string) :
  Forall (fun l => Spec.free_of LF l = true) (Parser.span_lines part).
Proof.
  unfold Parser.span_lines. apply List.Forall_map.
  apply Forall_forall. intros l Hl.
  apply list_elem_of_In, List.filter_In in Hl as [Hl _].
  apply free_of_strip.
  pose proof (split_on_free LF (Text.strip part)) as H.
  rewrite Forall_forall in H. by apply H, list_elem_of_In.
Qed.

Lemma strip_marker_free (line : string) :
  Spec.free_of LF line = true ->
  Spec.free_of LF (Parser.strip_marker line) = true.
Proof.
  intros H. unfold Parser.strip_marker.
  destruct (Segmenter.marker_len line); [|done].
  by apply free_of_lstrip, free_of_drop.
Qed.

Lemma clean_first_free (lines : list string) :
  Forall (fun l => Spec.free_of LF l = true) lines ->
  Forall (fun l => Spec.free_of LF l = true) (Parser.clean_first lines).
Proof.
  intros H. destruct lines as [|l ls]; [done|].
  inversion H as [|? ? Hl Hls]; subst. cbn.
  destruct (Text.nonempty _); [|done].
  constructor; [|done]. by apply free_of_strip, strip_marker_free.
Qed.

Lemma is_option_line_app (o s : string) :
  Parser.is_option_line o = true -> Parser.is_option_line (o +:+ s) = true.
Proof. by destruct o as [|c [|d o]]. Qed.

Lemma extend_last_ok (opts : list string) (s : string) :
  Spec.free_of LF s = true ->
  Forall Spec.option_ok opts ->
  Forall Spec.option_ok (Parser.extend_last opts s).
Proof.
  intros Hs. induction opts as [|o opts IH]; [done|].
  intros H. inversion H as [|? ? [Ho1 Ho2] Hos]; subst.
  destruct opts as [|o' opts].
  - cbn. constructor; [|done]. split; [by apply is_option_line_app|].
    by rewrite free_of_app, Ho2, Hs.
  - change (Forall Spec.option_ok (o :: Parser.extend_last (o' :: opts) s)).
    constructor; [done|]. by apply IH.
Qed.

Lemma classify_ok (st : Parser.lines_state) (line : string) :
  Spec.free_of LF line = true ->
  Forall Spec.option_ok (Parser.options st) ->
  Forall Spec.option_ok (Parser.options (Parser.classify st line)).
Proof.
  intros Hl Hst. unfold Parser.classify.
  destruct (Parser.is_option_line line) eqn:Ho; cbn.
  { apply Forall_app; split; [done|]. by repeat constructor. }
  destruct (Text.split_second _ _); cbn; [done|].
  destruct (Parser.parsing_options st); cbn; [|done].
  destruct (Parser.options st) as [|o os] eqn:Hopts; cbn [Parser.options].
  { done. }
  apply extend_last_ok; [|done].
  by rewrite free_of_app, Hl.
Qed.

Lemma classify_lines_ok (lines : list string) (st : Parser.lines_state) :
  Forall (fun l => Spec.free_of LF l = true) lines ->
  Forall Spec.option_ok (Parser.options st) ->
  Forall Spec.option_ok (Parser.options (fold_left Parser.classify lines st)).
Proof.
  revert st; induction lines as [|l lines IH]; intros st Hl Hst; [done|].
  inversion Hl; subst. cbn. apply IH; [done|]. by apply classify_ok.
Qed.

Lemma span_state_ok (text : string) (span : nat * nat)
    (st : Parser.lines_state) :
  span_state text span = Some st ->
  Forall Spec.option_ok (Parser.options st).
Proof.
  unfold span_state. destruct span as [q_start q_end].
  pose proof (span_lines_free (Text.slice q_start q_end text)) as Hfree.
  destruct (Parser.span_lines _) as [|l ls] eqn:Hlines; [done|].
  intros [= <-]. apply classify_lines_ok; [|by constructor].
  exact (clean_first_free (l :: ls) Hfree).
Qed.

Lemma read_span_inv (text : string) (span : nat * nat)
    (st : Parser.lines_state) :
  read_span text span = Some st <->
  span_state text span = Some st /\ Parser.unusable st = false.
Proof.
  unfold read_span. destruct (span_state text span) as [st'|]; cbn.
  - destruct (Parser.unusable st') eqn:Hu; split.
    + done.
    + intros [[= ->] ?]. congruence.
    + by intros [= ->].
    + by intros [[= ->] _].
  - split; [done|by intros [? _]].
Qed.

Lemma read_span_ok (text : string) (span : nat * nat)
    (st : Parser.lines_state) :
  read_span text span = Some st ->
  Forall Spec.option_ok (Parser.options st).
Proof. intros [H _]%read_span_inv. by eapply span_state_ok. Qed.

(** ** Options and answers *)

Lemma option_match_ok (o : string) :
  Spec.option_ok o ->
  exists c g,
    Parser.option_match o = Some (c, g)
    /\ Text.strip g = Spec.option_body o
    /\ Spec.reformatted o
       = Text.lower (String c EmptyString) +:+ ") " +:+ Spec.option_body o.
Proof.
  intros [Hline Hfree]. destruct o as [|c [|d rest]]; try done.
  cbn in Hline. exists c, (Parser.dot_star (Text.lstrip rest)).
  cbn [Parser.option_match]. rewrite Hline. split; [done|].
  split; [|done].
  assert (Spec.free_of LF rest = true) as Hrest
    by (by apply (free_of_drop LF 2) in Hfree).
  rewrite dot_star_free by (by apply free_of_lstrip).
  by rewrite strip_lstrip.
Qed.

Lemma omap_cons_eq {A B} (f : A -> option B) (x : A) (l : list A) :
  omap f (x :: l)
  = match f x with Some y => y :: omap f l | None => omap f l end.
Proof. reflexivity. Qed.

Lemma formatted_options_map (opts : list string) :
  Forall Spec.option_ok opts ->
  Parser.formatted_options opts = List.map Spec.reformatted opts.
Proof.
  unfold Parser.formatted_options.
  induction 1 as [|o opts Ho _ IH]; [done|].
  destruct (option_match_ok o Ho) as (c & g & Hm & Hg & Hr).
  cbn [List.map]. rewrite omap_cons_eq, Hm, Hg, Hr, IH. reflexivity.
Qed.

Lemma opt_texts_map (opts : list string) :
  Forall Spec.option_ok opts ->
  Parser.opt_texts opts = List.map Spec.option_text opts.
Proof.
  unfold Parser.opt_texts.
  induction 1 as [|o opts Ho _ IH]; [done|].
  destruct (option_match_ok o Ho) as (c & g & Hm & Hg & _).
  cbn [List.map]. rewrite omap_cons_eq, Hm, Hg, IH. reflexivity.
Qed.

Lemma is_tf_pair (opts : list string) :
  Forall Spec.option_ok opts ->
  Parser.is_tf opts = true <-> Spec.true_false_pair opts.
Proof.
  intros Hok. unfold Parser.is_tf, Spec.true_false_pair.
  rewrite (opt_texts_map _ Hok). split.
  - destruct (Nat.eqb_spec (length opts) 2) as [Hlen|]; [|done].
    destruct opts as [|o1 [|o2 [|? ?]]]; try done.
    rewrite andb_true_iff, !bool_decide_eq_true. cbn [List.map].
    intros [Ht Hf]. exists o1, o2. split; [done|].
    apply elem_of_cons in Ht as [Ht|Ht%list_elem_of_singleton];
      apply elem_of_cons in Hf as [Hf|Hf%list_elem_of_singleton];
      try (left; by split); try (right; by split); congruence.
  - intros (o1 & o2 & -> & H). cbn [length Nat.eqb List.map].
    rewrite andb_true_iff, !bool_decide_eq_true.
    destruct H as [[-> ->]|[-> ->]]; split; set_solver.
Qed.

Lemma answers_of_filter (s : string) :
  Parser.answers_of s
  = List.map (fun c => Text.lower (String c EmptyString))
      (List.filter Text.is_AZ (list_ascii_of_string s)).
Proof.
  induction s as [|c s IH]; [done|].
  cbn. destruct (Text.is_AZ c); cbn; by rewrite IH.
Qed.

(** C3, amended. A question read from a span whose options are exactly two
    lines with the texts "true" and "false" (prefix stripped, trimmed,
    lower-cased; either order) is emitted with the tag [@tf] and without
    option lines; its answer is "true" if the first extracted answer letter
    is [a] or if no letter was extracted, and "false" otherwise. *)
Theorem tf_question (text : string) (span : nat * nat)
    (st : Parser.lines_state) (q_text : string) :
  read_span text span = Some st ->
  Spec.true_false_pair (Parser.options st) ->
  let q := Parser.build_question st q_text in
  qtype q = "@tf" /\ qoptions q = [] /\
  qanswer q
  = Spec.tf_answer (Parser.answers_of (Parser.correct_answer_str st)).
Proof.
  intros Hread Hpair. apply read_span_ok in Hread.
  apply (is_tf_pair _ Hread) in Hpair.
  cbn zeta. unfold Parser.build_question. rewrite Hpair. cbn.
  repeat split. by destruct (Parser.answers_of _).
Qed.

(** ** The in-span indices *)

Lemma elem_of_enumerate_from {A} (l : list A) (n i : nat) (x : A) :
  (i, x) ∈ enumerate_from n l <-> n <= i /\ l !! (i - n) = Some x.
Proof.
  revert n; induction l as [|y l IH]; intros n; cbn [enumerate_from].
  { split; [by intros ?%elem_of_nil|by intros [_ ?]]. }
  rewrite elem_of_cons, IH. split.
  - intros [[= -> ->]|[Hle Hl]].
    + split; [lia|]. by rewrite Nat.sub_diag.
    + split; [lia|]. by replace (i - n) with (S (i - S n)) by lia.
  - intros [Hle Hl]. destruct (decide (i = n)) as [->|Hne].
    + left. rewrite Nat.sub_diag in Hl. cbn in Hl. congruence.
    + right. split; [lia|].
      by replace (i - n) with (S (i - S n)) in Hl by lia.
Qed.

Lemma elem_of_in_span (imgs : list occurrence) (sp ep i : nat) :
  i ∈ Exhibit.images_in_span_indices imgs sp ep <->
  exists img, imgs !! i = Some img /\ sp <= page img <= ep.
Proof.
  unfold Exhibit.images_in_span_indices, enumerate.
  rewrite list_elem_of_In, List.in_map_iff. split.
  - intros ([j img] & <- & [Hin Hp]%List.filter_In).
    apply list_elem_of_In, elem_of_enumerate_from in Hin as [_ Hl].
    rewrite Nat.sub_0_r in Hl. exists img. split; [done|].
    unfold Exhibit.in_span in Hp. cbn in Hp.
    apply andb_true_iff in Hp as [?%Nat.leb_le ?%Nat.leb_le]. done.
  - intros (img & Hl & Hlo & Hhi). exists (i, img). split; [done|].
    apply List.filter_In. split.
    + apply list_elem_of_In, elem_of_enumerate_from.
      split; [lia|]. by rewrite Nat.sub_0_r.
    + unfold Exhibit.in_span. cbn.
      apply andb_true_iff. split; by apply Nat.leb_le.
Qed.

Lemma in_span_sorted_from {A} (P : nat * A -> bool) (l : list A) (n : nat) :
  StronglySorted lt (List.map fst (List.filter P (enumerate_from n l))).
Proof.
  revert n; induction l as [|y l IH]; intros n; [constructor|].
  cbn [enumerate_from List.filter].
  destruct (P (n, y)); [|apply IH].
  cbn [List.map]. constructor; [apply IH|].
  apply Forall_forall. intros j Hj.
  apply list_elem_of_In, List.in_map_iff in Hj
    as ([j' x] & <- & [Hin _]%List.filter_In).
  apply list_elem_of_In, elem_of_enumerate_from in Hin as [Hle _].
  cbn. lia.
Qed.

Lemma images_in_span_spec (imgs : list occurrence) (sp ep : nat) :
  Spec.in_span_indices imgs sp ep
    (Exhibit.images_in_span_indices imgs sp ep).
Proof.
  split; [apply in_span_sorted_from|]. intros i. apply elem_of_in_span.
Qed.

Lemma in_span_valid (imgs : list occurrence) (sp ep : nat) :
  Forall (fun i => is_Some (imgs !! i))
    (Exhibit.images_in_span_indices imgs sp ep).
Proof.
  apply Forall_forall. intros i (img & Hl & _)%elem_of_in_span. by exists img.
Qed.

(** ** The walk *)

Lemma visit_below (imgs : list occurrence) (st : Exhibit.walk_state)
    (idx : nat) :
  (Z.of_nat idx <= Exhibit.last_image_idx_used st)%Z ->
  Exhibit.visit imgs st idx = Some st.
Proof.
  intros H. unfold Exhibit.visit.
  destruct (Z.ltb_spec (Exhibit.last_image_idx_used st) (Z.of_nat idx));
    [lia|done].
Qed.

Lemma visit_above (imgs : list occurrence) (st : Exhibit.walk_state)
    (idx : nat) (img : occurrence) :
  (Exhibit.last_image_idx_used st < Z.of_nat idx)%Z ->
  imgs !! idx = Some img ->
  Exhibit.visit imgs st idx
  = Some (if bool_decide (b64 img ∉ Exhibit.seen_b64 st) then
            {| Exhibit.assigned_images :=
                 Exhibit.assigned_images st ++ [b64 img];
               Exhibit.seen_b64 := Exhibit.seen_b64 st ∪ {[ b64 img ]};
               Exhibit.last_image_idx_used := Z.of_nat idx |}
          else
            {| Exhibit.assigned_images := Exhibit.assigned_images st;
               Exhibit.seen_b64 := Exhibit.seen_b64 st;
               Exhibit.last_image_idx_used := Z.of_nat idx |}).
Proof.
  intros H Hl. unfold Exhibit.visit.
  destruct (Z.ltb_spec (Exhibit.last_image_idx_used st) (Z.of_nat idx));
    [|lia].
  rewrite Hl. cbn. by destruct (bool_decide _).
Qed.

Lemma visit_inv (imgs : list occurrence) (st st' : Exhibit.walk_state)
    (idx : nat) :
  Exhibit.visit imgs st idx = Some st' ->
  ((Z.of_nat idx <= Exhibit.last_image_idx_used st)%Z /\ st' = st)
  \/ ((Exhibit.last_image_idx_used st < Z.of_nat idx)%Z
      /\ Exhibit.last_image_idx_used st' = Z.of_nat idx
      /\ exists img, imgs !! idx = Some img
         /\ (((b64 img ∉ Exhibit.seen_b64 st)
              /\ (Exhibit.assigned_images st'
                  = Exhibit.assigned_images st ++ [b64 img])
              /\ Exhibit.seen_b64 st' = Exhibit.seen_b64 st ∪ {[ b64 img ]})
             \/ (b64 img ∈ Exhibit.seen_b64 st
                 /\ Exhibit.assigned_images st' = Exhibit.assigned_images st
                 /\ Exhibit.seen_b64 st' = Exhibit.seen_b64 st))).
Proof.
  destruct (Z.le_gt_cases (Z.of_nat idx) (Exhibit.last_image_idx_used st))
    as [Hle|Hgt].
  - rewrite visit_below by done. intros [= <-]. by left.
  - destruct (imgs !! idx) as [img|] eqn:Hl.
    + rewrite (visit_above _ _ _ img) by done. intros [= <-]. right.
      split; [done|]. case_bool_decide as Hseen; cbn.
      * split; [done|]. exists img. split; [done|]. by left.
      * split; [done|]. exists img. split; [done|]. by right.
    + unfold Exhibit.visit.
      destruct (Z.ltb_spec (Exhibit.last_image_idx_used st) (Z.of_nat idx));
        [|lia].
      by rewrite Hl.
Qed.

(** The walk follows the rules of the specification, and it cannot raise
    on indices of the list. *)
Lemma walk_sound (imgs : list occurrence) (idxs : list nat)
    (st : Exhibit.walk_state) :
  Forall (fun i => is_Some (imgs !! i)) idxs ->
  exists st', Exhibit.walk imgs st idxs = Some st'
              /\ Spec.walk_spec imgs st idxs st'.
Proof.
  intros Hv; revert st; induction Hv as [|idx idxs [img Hl] _ IH]; intros st.
  { exists st. split; [done|constructor]. }
  cbn [Exhibit.walk].
  destruct (Z.le_gt_cases (Z.of_nat idx) (Exhibit.last_image_idx_used st))
    as [Hle|Hgt].
  - rewrite visit_below by done. cbn.
    destruct (IH st) as (st' & Hw & Hs). exists st'. split; [done|].
    by apply Spec.walk_pass.
  - rewrite (visit_above _ _ _ img) by done. cbn.
    case_bool_decide as Hseen.
    + edestruct IH as (st' & Hw & Hs). exists st'. split; [exact Hw|].
      by eapply Spec.walk_assign.
    + edestruct IH as (st' & Hw & Hs). exists st'. split; [exact Hw|].
      by eapply Spec.walk_duplicate.
Qed.

(** The rules leave no choice: a walk has one outcome. *)
Lemma walk_spec_deterministic (imgs : list occurrence) (idxs : list nat)
    (st st1 st2 : Exhibit.walk_state) :
  Spec.walk_spec imgs st idxs st1 ->
  Spec.walk_spec imgs st idxs st2 ->
  st1 = st2.
Proof.
  intros H1; revert st2.
  induction H1 as [st|st idx rest st1 Hle _ IH
                  |st idx rest img st1 Hgt Hl Hnew _ IH
                  |st idx rest img st1 Hgt Hl Hold _ IH];
    intros st2 H2; inversion H2; subst; try done; try lia;
    try (apply IH; congruence);
    match goal with
    | Ha : imgs !! idx = Some ?a, Hb : imgs !! idx = Some ?b |- _ =>
        assert (a = b) by congruence; subst; try done; by apply IH
    end.
Qed.

Lemma walk_cons_inv (imgs : list occurrence) (st st' : Exhibit.walk_state)
    (idx : nat) (rest : list nat) :
  Exhibit.walk imgs st (idx :: rest) = Some st' ->
  exists st1, Exhibit.visit imgs st idx = Some st1
              /\ Exhibit.walk imgs st1 rest = Some st'.
Proof.
  cbn [Exhibit.walk]. destruct (Exhibit.visit imgs st idx) as [st1|]; [|done].
  cbn. intros H. by exists st1.
Qed.

Lemma walk_mono (imgs : list occurrence) (idxs : list nat)
    (st st' : Exhibit.walk_state) :
  Exhibit.walk imgs st idxs = Some st' ->
  (Exhibit.last_image_idx_used st <= Exhibit.last_image_idx_used st')%Z.
Proof.
  revert st; induction idxs as [|idx idxs IH]; intros st.
  { intros [= <-]. lia. }
  intros (st1 & Hv & Hw)%walk_cons_inv. apply IH in Hw.
  apply visit_inv in Hv as [[_ ->]|(? & ? & _)]; lia.
Qed.

Lemma walk_grows (imgs : list occurrence) (idxs : list nat)
    (st st' : Exhibit.walk_state) :
  Exhibit.walk imgs st idxs = Some st' ->
  exists l, Exhibit.assigned_images st' = Exhibit.assigned_images st ++ l.
Proof.
  revert st; induction idxs as [|idx idxs IH]; intros st.
  { intros [= <-]. exists []. by rewrite app_nil_r. }
  intros (st1 & Hv & Hw)%walk_cons_inv. apply IH in Hw as [l Hl].
  apply visit_inv in Hv
    as [[_ ->]|(_ & _ & img & _ & [(_ & Ha & _)|(_ & Ha & _)])].
  - by exists l.
  - exists (b64 img :: l). rewrite Hl, Ha. by rewrite <- app_assoc.
  - exists l. by rewrite Hl, Ha.
Qed.

Lemma covered_init (last : Z) : Spec.covered (Exhibit.walk_init last).
Proof. intros b Hb. cbn in Hb. set_solver. Qed.

(** A walk that assigns nothing has changed nothing. *)
Lemma walk_assigned_nil (imgs : list occurrence) (idxs : list nat)
    (st st' : Exhibit.walk_state) :
  Exhibit.walk imgs st idxs = Some st' ->
  Spec.covered st ->
  Exhibit.assigned_images st' = [] ->
  st' = st.
Proof.
  revert st; induction idxs as [|idx idxs IH]; intros st.
  { by intros [= <-]. }
  intros (st1 & Hv & Hw)%walk_cons_inv Hcov Hnil.
  destruct (walk_grows _ _ _ _ Hw) as [l Hl]. rewrite Hnil in Hl.
  symmetry in Hl. apply app_eq_nil in Hl as [Hl _].
  apply visit_inv in Hv
    as [[Hle ->]|(_ & _ & img & _ & [(_ & Ha & _)|(Hseen & Ha & _)])].
  - by apply IH.
  - rewrite Ha in Hl. by apply app_eq_nil in Hl as [_ ?].
  - rewrite Ha in Hl. apply Hcov in Hseen. rewrite Hl in Hseen.
    by apply elem_of_nil in Hseen.
Qed.

(** ** The exhibit assigner *)

Lemma prefix_drop (sep s : string) :
  String.prefix sep s = true ->
  s = sep +:+ Text.drop (String.length sep) s.
Proof.
  revert s; induction sep as [|c sep IH]; intros s; [done|].
  destruct s as [|d s]; [done|]. cbn [String.prefix].
  destruct (ascii_dec c d) as [->|]; [|done].
  intros H. cbn [String.length Text.drop].
  change (String d s = String d (sep +:+ Text.drop (String.length sep) s)).
  by rewrite <- IH.
Qed.

Lemma prefix_app (sep a : string) : String.prefix sep (sep +:+ a) = true.
Proof.
  induction sep as [|c sep IH]; [by destruct a|].
  change (String.prefix (String c sep) (String c (sep +:+ a)) = true).
  cbn [String.prefix]. by destruct (ascii_dec c c).
Qed.

Lemma partition_some (sep s b a : string) :
  Text.partition sep s = Some (b, a) -> s = b +:+ sep +:+ a.
Proof.
  revert b; induction s as [|c s IH]; intros b; cbn [Text.partition];
    destruct (String.prefix sep _) eqn:Hp; try done;
    try (intros [= <- <-]; by apply prefix_drop).
  destruct (Text.partition sep s) as [[b' a']|]; [|done].
  intros [= <- <-]. by rewrite (IH b').
Qed.

Lemma partition_none (sep s : string) :
  Text.partition sep s = None -> ¬ Spec.occurs_in sep s.
Proof.
  induction s as [|c s IH]; cbn [Text.partition];
    destruct (String.prefix sep _) eqn:Hp; try done.
  - intros _ ([|d b] & a & H); [|done].
    change (EmptyString = sep +:+ a) in H.
    rewrite H, prefix_app in Hp. done.
  - destruct (Text.partition sep s) as [[b' a']|] eqn:E; [done|].
    intros _ ([|d b] & a & H).
    + change (String c s = sep +:+ a) in H.
      rewrite H, prefix_app in Hp. done.
    + change (String c s = String d (b +:+ sep +:+ a)) in H.
      injection H as _ H. apply IH; [done|]. by exists b, a.
Qed.

(** [sep in s] holds exactly when [sep] occurs in [s]. *)
Lemma contains_occurs (sep s : string) :
  Text.contains sep s = true <-> Spec.occurs_in sep s.
Proof.
  unfold Text.contains.
  destruct (Text.partition sep s) as [[b a]|] eqn:E.
  - split; [|done]. intros _. exists b, a. by apply partition_some.
  - split; [done|]. intros H. by apply partition_none in E.
Qed.

Lemma mentions_exhibit_iff (q_text : string) :
  Exhibit.mentions_exhibit q_text = true <-> Spec.mentions_exhibit q_text.
Proof. apply contains_occurs. Qed.

Lemma append_refs_eq (q_text : string) (bs : list string) :
  Exhibit.append_refs q_text bs = q_text +:+ Spec.refs bs.
Proof.
  unfold Exhibit.append_refs.
  revert q_text; induction bs as [|b bs IH]; intros q_text;
    cbn [fold_left Spec.refs].
  - by rewrite append_empty_r.
  - by rewrite IH, append_assoc.
Qed.

Lemma fallback_sound (imgs : list occurrence) (idxs : list nat)
    (st : Exhibit.walk_state) :
  Forall (fun i => is_Some (imgs !! i)) idxs ->
  exists st', Exhibit.fallback imgs idxs st = Some st'
              /\ Spec.fallback_spec imgs idxs st st'.
Proof.
  intros Hv. unfold Exhibit.fallback.
  destruct (Exhibit.assigned_images st) as [|a l] eqn:Ha.
  - destruct (last idxs) as [i|] eqn:Hlast.
    + pose proof (last_Some_elem_of _ _ Hlast) as Hi.
      rewrite Forall_forall in Hv. destruct (Hv _ Hi) as [img Hl].
      rewrite Hl. cbn. eexists. split; [done|].
      by eapply Spec.fallback_reuse.
    + exists st. split; [done|]. apply Spec.fallback_none.
      right. by apply last_None.
  - exists st. split; [done|]. apply Spec.fallback_none. left. congruence.
Qed.

Lemma assign_exhibits_skip (imgs : list occurrence) (last : Z) (sp ep : nat)
    (q_text : string) :
  Exhibit.mentions_exhibit q_text = false ->
  Exhibit.assign_exhibits imgs last sp ep q_text = Some (q_text, last).
Proof. intros H. unfold Exhibit.assign_exhibits. by rewrite H. Qed.

Lemma assign_exhibits_walk (imgs : list occurrence) (last : Z) (sp ep : nat)
    (q_text : string) :
  Exhibit.mentions_exhibit q_text = true ->
  let idxs := Exhibit.images_in_span_indices imgs sp ep in
  Spec.in_span_indices imgs sp ep idxs /\
  exists st st',
    Spec.walk_spec imgs (Exhibit.walk_init last) idxs st
    /\ Spec.fallback_spec imgs idxs st st'
    /\ (Exhibit.assigned_images st = [] ->
        Exhibit.last_image_idx_used st = last)
    /\ Exhibit.assign_exhibits imgs last sp ep q_text
       = Some (q_text +:+ Spec.refs (Exhibit.assigned_images st'),
               Exhibit.last_image_idx_used st').
Proof.
  intros Hm idxs. split; [apply images_in_span_spec|].
  pose proof (in_span_valid imgs sp ep) as Hv. fold idxs in Hv.
  destruct (walk_sound imgs idxs (Exhibit.walk_init last) Hv)
    as (st & Hw & Hspec).
  destruct (fallback_sound imgs idxs st Hv) as (st' & Hf & Hfspec).
  exists st, st'. split; [done|]. split; [done|]. split.
  - intros Hnil.
    by rewrite (walk_assigned_nil _ _ _ _ Hw (covered_init last) Hnil).
  - unfold Exhibit.assign_exhibits. rewrite Hm. fold idxs.
    rewrite Hw. cbn. rewrite Hf. cbn. by rewrite append_refs_eq.
Qed.

(** C1. For a body text that mentions an exhibit, the assigner walks the
    indices of the occurrences whose page lies in the inclusive page span,
    in increasing order, by the rules of [walk_spec]: an index above the
    high-water mark has its data assigned unless that data was already
    assigned in this pass, and raises the mark either way.  If the walk
    assigned nothing (the mark is then where it was) and the in-span list is
    not empty, the last in-span occurrence alone is assigned, with the mark
    and the seen set unchanged.  The body gets one markdown reference for
    each assigned image, in assignment order. *)
Theorem exhibit_assignment (imgs : list occurrence) (last : Z) (sp ep : nat)
    (q_text : string) :
  Spec.mentions_exhibit q_text ->
  let idxs := Exhibit.images_in_span_indices imgs sp ep in
  Spec.in_span_indices imgs sp ep idxs /\
  exists st st',
    Spec.walk_spec imgs (Exhibit.walk_init last) idxs st
    /\ Spec.fallback_spec imgs idxs st st'
    /\ (Exhibit.assigned_images st = [] ->
        Exhibit.last_image_idx_used st = last)
    /\ Exhibit.assign_exhibits imgs last sp ep q_text
       = Some (q_text +:+ Spec.refs (Exhibit.assigned_images st'),
               Exhibit.last_image_idx_used st').
Proof. intros H%mentions_exhibit_iff. by apply assign_exhibits_walk. Qed.

(** ** The question loop *)

Lemma assign_exhibits_total (imgs : list occurrence) (last : Z) (sp ep : nat)
    (q_text : string) :
  exists t l,
    Exhibit.assign_exhibits imgs last sp ep q_text = Some (t, l).
Proof.
  destruct (Exhibit.mentions_exhibit q_text) eqn:Hm.
  - destruct (assign_exhibits_walk imgs last sp ep q_text Hm)
      as (_ & st & st' & _ & _ & _ & H).
    eauto.
  - rewrite assign_exhibits_skip by done. eauto.
Qed.

Lemma loop_body_dropped (text : string) (offsets : list (nat * nat))
    (imgs : list occurrence) (ls : loop_state) (span : nat * nat) :
  read_span text span = None ->
  loop_body text offsets imgs ls span = Some ls.
Proof.
  intros H. unfold loop_body.
  destruct (Segmenter.span_pages _ _ _) as [sp ep]. by rewrite H.
Qed.

Lemma loop_body_kept (text : string) (offsets : list (nat * nat))
    (imgs : list occurrence) (ls : loop_state) (span : nat * nat)
    (st : Parser.lines_state) :
  read_span text span = Some st ->
  exists q_text last,
    Exhibit.assign_exhibits imgs (last_image_idx_used ls)
      (Segmenter.span_pages offsets span.1 span.2).1
      (Segmenter.span_pages offsets span.1 span.2).2
      (Text.join " " (Parser.question_text_lines st)) = Some (q_text, last)
    /\ loop_body text offsets imgs ls span
       = Some {| last_image_idx_used := last;
                 questions :=
                   questions ls ++ [Parser.build_question st q_text] |}.
Proof.
  intros H. unfold loop_body.
  destruct (Segmenter.span_pages _ _ _) as [sp ep]. rewrite H.
  destruct (assign_exhibits_total imgs (last_image_idx_used ls) sp ep
              (Text.join " " (Parser.question_text_lines st)))
    as (t & l & Ha).
  exists t, l. cbn [fst snd]. rewrite Ha. by cbn.
Qed.

Lemma loop_body_total (text : string) (offsets : list (nat * nat))
    (imgs : list occurrence) (ls : loop_state) (span : nat * nat) :
  is_Some (loop_body text offsets imgs ls span).
Proof.
  destruct (read_span text span) as [st|] eqn:H.
  - destruct (loop_body_kept text offsets imgs ls span st H)
      as (? & ? & _ & ->).
    eauto.
  - rewrite loop_body_dropped by done. eauto.
Qed.

Lemma run_loop_total (text : string) (offsets : list (nat * nat))
    (imgs : list occurrence) (spans : list (nat * nat)) (ls : loop_state) :
  is_Some (run_loop text offsets imgs ls spans).
Proof.
  revert ls; induction spans as [|span spans IH]; intros ls; [by eexists|].
  cbn [run_loop].
  destruct (loop_body_total text offsets imgs ls span) as [ls' ->].
  cbn. apply IH.
Qed.

Lemma unusable_iff (st : Parser.lines_state) :
  Parser.unusable st = true <->
  Parser.question_text_lines st = []
  \/ Parser.correct_answer_str st = EmptyString.
Proof.
  unfold Parser.unusable. rewrite orb_true_iff.
  destruct (Parser.question_text_lines st), (Parser.correct_answer_str st);
    cbn; intuition congruence.
Qed.

(** C5. A span whose body-text line list is empty or whose raw answer
    string is empty after line classification adds no question, leaves the
    loop state as it was, and the loop goes on with the remaining spans
    exactly as if the span had not been there. *)
Theorem unusable_span_dropped (text : string) (offsets : list (nat * nat))
    (imgs : list occurrence) (ls : loop_state) (span : nat * nat)
    (rest : list (nat * nat)) (st : Parser.lines_state) :
  span_state text span = Some st ->
  Parser.question_text_lines st = []
  \/ Parser.correct_answer_str st = EmptyString ->
  loop_body text offsets imgs ls span = Some ls
  /\ run_loop text offsets imgs ls (span :: rest)
     = run_loop text offsets imgs ls rest.
Proof.
  intros Hst Hbad. apply unusable_iff in Hbad.
  assert (read_span text span = None) as Hnone.
  { unfold read_span. rewrite Hst. cbn. by rewrite Hbad. }
  pose proof (loop_body_dropped text offsets imgs ls span Hnone) as Hb.
  split; [done|]. cbn [run_loop]. by rewrite Hb.
Qed.

(** ** Question types and answers *)

Lemma tf_question_witness :
  let q := Parser.build_question Samples.tf_state "Is it so?" in
  qtype q = "@tf" /\ qoptions q = [] /\
  qanswer q
  = Spec.tf_answer
      (Parser.answers_of (Parser.correct_answer_str Samples.tf_state)).
Proof.
  apply (tf_question Samples.tf_text (Samples.whole Samples.tf_text)).
  - vm_compute. reflexivity.
  - exists "A. True", "B. False". split; [reflexivity|].
    left. split; vm_compute; reflexivity.
Defined.

(** C3 as stated fails when no letter is extracted: the answer line
    [Correct Answer: true] yields no letter, so no first letter is [a], and
    the answer is "true" all the same. *)
Lemma tf_answer_counterexample :
  ¬ Spec.tf_claim_as_stated Samples.tf_lower_text
      (Samples.whole Samples.tf_lower_text).
Proof.
  intros H.
  destruct (H Samples.tf_lower_state "Is it so?") as (_ & _ & Hans).
  - vm_compute. reflexivity.
  - exists "A. True", "B. False". split; [reflexivity|].
    left. split; vm_compute; reflexivity.
  - vm_compute in Hans. discriminate Hans.
Qed.

Lemma answer_line_BD (st : Parser.lines_state) :
  Parser.correct_answer_str (Parser.classify st "Correct Answer: B, D")
  = "B, D".
Proof. reflexivity. Qed.

Lemma elem_of_answers (s a : string) :
  a ∈ Parser.answers_of s <->
  exists c, c ∈ list_ascii_of_string s /\ Text.is_AZ c = true
            /\ a = Text.lower (String c EmptyString).
Proof.
  rewrite answers_of_filter, list_elem_of_In, List.in_map_iff. split.
  - intros (c & <- & [Hin Hc]%List.filter_In). exists c.
    split; [by apply list_elem_of_In|done].
  - intros (c & Hin & Hc & ->). exists c. split; [done|].
    apply List.filter_In. split; [by apply list_elem_of_In|done].
Qed.

(** C4. For a question that is not true/false: the answer letters are the
    upper-case letters of the raw answer string, each lower-cased (as a
    list, hence as a set); the tag is [@mc] when exactly one letter was
    extracted and [@sata] otherwise; every option is reformatted as
    ["<lowercase letter>) <text>"]; the answer is the letters joined by
    [", "].  The answer line [Correct Answer: B, D] gives the raw answer
    string [B, D], for which the letters are [b] and [d], the tag is
    [@sata] and the answer is ["b, d"]. *)
Theorem choice_question (text : string) (span : nat * nat)
    (st : Parser.lines_state) (q_text : string) :
  read_span text span = Some st ->
  ¬ Spec.true_false_pair (Parser.options st) ->
  let answers := Parser.answers_of (Parser.correct_answer_str st) in
  let q := Parser.build_question st q_text in
  (answers
   = List.map (fun c => Text.lower (String c EmptyString))
       (List.filter Text.is_AZ
          (list_ascii_of_string (Parser.correct_answer_str st))))
  /\ (forall a, a ∈ answers <->
        exists c, c ∈ list_ascii_of_string (Parser.correct_answer_str st)
                  /\ Text.is_AZ c = true
                  /\ a = Text.lower (String c EmptyString))
  /\ (length answers = 1 -> qtype q = "@mc")
  /\ (length answers <> 1 -> qtype q = "@sata")
  /\ qoptions q = List.map Spec.reformatted (Parser.options st)
  /\ qanswer q = Text.join ", " answers
  /\ (forall st0,
        Parser.correct_answer_str
          (Parser.classify st0 "Correct Answer: B, D") = "B, D")
  /\ (Parser.correct_answer_str st = "B, D" ->
      answers = ["b"; "d"] /\ qtype q = "@sata" /\ qanswer q = "b, d").
Proof.
  intros Hread Hntf. apply read_span_ok in Hread.
  assert (Parser.is_tf (Parser.options st) = false) as Htf.
  { destruct (Parser.is_tf _) eqn:E; [|done].
    by apply (is_tf_pair _ Hread) in E. }
  cbn zeta. split; [apply answers_of_filter|].
  split; [apply elem_of_answers|].
  unfold Parser.build_question. rewrite Htf. cbn - [Parser.answers_of].
  split; [by intros ->|]. split.
  { intros Hne. by destruct (Nat.eqb_spec
      (length (Parser.answers_of (Parser.correct_answer_str st))) 1). }
  split; [by apply formatted_options_map|]. split; [done|].
  split; [apply answer_line_BD|]. by intros ->.
Qed.

Lemma choice_question_witness :
  let st := Samples.sata_state in
  let q := Parser.build_question st "Pick two. Section: none" in
  Parser.answers_of (Parser.correct_answer_str st) = ["b"; "d"]
  /\ qtype q = "@sata"
  /\ qoptions q = ["a) one"; "b) two or so"; "c) three"; "d) four"]
  /\ qanswer q = "b, d".
Proof.
  destruct (choice_question Samples.sata_text
              (Samples.whole Samples.sata_text) Samples.sata_state
              "Pick two. Section: none")
    as (_ & _ & _ & _ & Hopts & _ & _ & HBD).
  - vm_compute. reflexivity.
  - intros (o1 & o2 & Ho & _). vm_compute in Ho. discriminate Ho.
  - destruct HBD as (Ha & Ht & Hq); [reflexivity|].
    split; [exact Ha|]. split; [exact Ht|]. split; [|exact Hq].
    rewrite Hopts. vm_compute. reflexivity.
Defined.

Lemma answers_of_no_upper (s : string) :
  Spec.no_upper s -> Parser.answers_of s = [].
Proof.
  unfold Spec.no_upper. induction s as [|c s IH]; [done|].
  intros H. cbn [Parser.answers_of].
  rewrite (H c) by (cbn; by left). apply IH.
  intros d Hd. apply H. cbn. by right.
Qed.

Lemma kept_default (text : string) (offsets : list (nat * nat))
    (imgs : list occurrence) (ls : loop_state) (span : nat * nat)
    (st : Parser.lines_state) :
  read_span text span = Some st ->
  Spec.no_upper (Parser.correct_answer_str st) ->
  Spec.kept_with_default text offsets imgs ls span st.
Proof.
  intros Hread Hno.
  destruct (loop_body_kept text offsets imgs ls span st Hread)
    as (q_text & last & _ & Hbody).
  exists (Parser.build_question st q_text). eexists.
  split; [exact Hbody|]. split; [done|].
  pose proof (read_span_ok _ _ _ Hread) as Hok.
  unfold Parser.build_question.
  rewrite (answers_of_no_upper _ Hno). split.
  - intros Hpair. apply (is_tf_pair _ Hok) in Hpair. by rewrite Hpair.
  - intros Hnpair.
    destruct (Parser.is_tf (Parser.options st)) eqn:E; [|done].
    by apply (is_tf_pair _ Hok) in E.
Qed.

(** C10, amended. A span with a non-empty body-text line list whose raw
    answer string is non-empty and has no upper-case letter is kept: one
    question is appended for it.  If its options are a true/false pair the
    question is tagged [@tf] with the answer "true"; otherwise it is
    tagged [@sata] with the empty answer. *)
Theorem lowercase_answer_kept (text : string) (offsets : list (nat * nat))
    (imgs : list occurrence) (ls : loop_state) (span : nat * nat)
    (st : Parser.lines_state) :
  span_state text span = Some st ->
  Parser.question_text_lines st <> [] ->
  Parser.correct_answer_str st <> EmptyString ->
  Spec.no_upper (Parser.correct_answer_str st) ->
  Spec.kept_with_default text offsets imgs ls span st.
Proof.
  intros Hst Hbody Hans Hno. apply kept_default; [|done].
  apply read_span_inv. split; [done|].
  destruct (Parser.unusable st) eqn:Hu; [|done].
  apply unusable_iff in Hu as [?|?]; congruence.
Qed.

Lemma no_upper_true : Spec.no_upper "true".
Proof.
  intros c Hc. cbn in Hc.
  repeat (apply elem_of_cons in Hc as [->|Hc]; [reflexivity|]).
  by apply elem_of_nil in Hc.
Qed.

Lemma lowercase_answer_kept_witness :
  Spec.kept_with_default Samples.tf_lower_text [(0, 0)] [] loop_init
    (Samples.whole Samples.tf_lower_text) Samples.tf_lower_state.
Proof.
  apply lowercase_answer_kept.
  - vm_compute. reflexivity.
  - discriminate.
  - discriminate.
  - exact no_upper_true.
Defined.

(** C10 as stated fails on a span without body text: its answer string
    [true] is non-empty and has no upper-case letter, and the span is
    dropped by the test of line 124. *)
Lemma lowercase_answer_counterexample :
  ¬ Spec.kept_claim_as_stated Samples.no_body_text [(0, 0)] [] loop_init
      (Samples.whole Samples.no_body_text).
Proof.
  intros H.
  destruct (H Samples.no_body_state) as (q & ls' & Hbody & Hq & _).
  - vm_compute. reflexivity.
  - discriminate.
  - exact no_upper_true.
  - vm_compute in Hbody. injection Hbody as <-.
    cbn in Hq. discriminate Hq.
Qed.

(** ** Title and question list *)

Lemma quiz_title_spec (text : string) (m0 : nat) (ms : list nat) :
  Segmenter.quiz_title text (m0 :: ms)
  = let before := Text.strip (Text.take m0 text) in
    if Text.nonempty before then Text.strip (Spec.first_line before)
    else Segmenter.default_title.
Proof.
  unfold Segmenter.quiz_title, Spec.first_line. cbn zeta.
  destruct (Text.nonempty _); [|done].
  by destruct (split_on_cons LF (Text.strip (Text.take m0 text)))
    as (l & ls & ->).
Qed.

Lemma drop_empty (n : nat) : Text.drop n EmptyString = EmptyString.
Proof. by destruct n. Qed.

Lemma scan_markers_nil (s : string) (pos : nat) :
  Segmenter.scan_markers pos 0 s = [] <->
  forall n, Segmenter.marker_len (Text.drop n s) = None.
Proof.
  revert pos; induction s as [|c s IH]; intros pos.
  { split; [|done]. intros _ n. by rewrite drop_empty. }
  cbn [Segmenter.scan_markers].
  destruct (Segmenter.marker_len (String c s)) as [len|] eqn:E.
  - split; [done|]. intros H. specialize (H 0). cbn in H. congruence.
  - rewrite IH. split.
    + intros H [|n]; [done|]. apply H.
    + intros H n. apply (H (S n)).
Qed.

Lemma scan_markers_first (s : string) (pos m0 : nat) (ms : list nat) :
  Segmenter.scan_markers pos 0 s = m0 :: ms ->
  exists k, m0 = pos + k
            /\ is_Some (Segmenter.marker_len (Text.drop k s))
            /\ forall j, j < k -> Segmenter.marker_len (Text.drop j s) = None.
Proof.
  revert pos; induction s as [|c s IH]; intros pos; [done|].
  cbn [Segmenter.scan_markers].
  destruct (Segmenter.marker_len (String c s)) as [len|] eqn:E.
  - intros [= <- _]. exists 0. split; [lia|]. split; [by eexists|]. lia.
  - intros (k & -> & Hk & Hj)%IH. exists (S k). split; [lia|].
    split; [done|]. intros [|j] Hlt; [done|]. apply Hj. lia.
Qed.

(** The first marker is the first offset at which the pattern matches. *)
Lemma markers_first (text : string) (m0 : nat) (ms : list nat) :
  Segmenter.markers text = m0 :: ms ->
  Spec.matches_at text m0
  /\ forall n, n < m0 -> ¬ Spec.matches_at text n.
Proof.
  unfold Segmenter.markers.
  intros (k & -> & Hk & Hj)%scan_markers_first. split; [done|].
  intros n Hn [len Hlen]. rewrite Hj in Hlen by lia. done.
Qed.

Lemma markers_none (text : string) :
  Segmenter.markers text = [] ->
  forall n, ¬ Spec.matches_at text n.
Proof.
  unfold Segmenter.markers. intros H n [len Hlen].
  apply scan_markers_nil with (n := n) in H. congruence.
Qed.

(** C6, amended. When the pattern [QUESTION\s+\d+] matches nowhere in the
    text buffer the question list is empty and the title is the default
    one.  When it matches, the title is the trimmed first line of the
    trimmed text that stands before the first match when that trimmed text
    is not empty, and the default one otherwise. *)
Theorem title_and_questions (pages : list string) (imgs : list occurrence) :
  let text := Segmenter.full_text (Segmenter.read_pages pages) in
  exists title qs,
    parse_vce_pdf pages imgs = Some (title, qs) /\
    match Segmenter.markers text with
    | [] =>
        (forall n, ¬ Spec.matches_at text n)
        /\ title = Segmenter.default_title /\ qs = []
    | m0 :: _ =>
        let before := Text.strip (Text.take m0 text) in
        Spec.matches_at text m0
        /\ (forall n, n < m0 -> ¬ Spec.matches_at text n)
        /\ title = if Text.nonempty before
                   then Text.strip (Spec.first_line before)
                   else Segmenter.default_title
    end.
Proof.
  cbn zeta. unfold parse_vce_pdf.
  destruct (Segmenter.markers _) as [|m0 ms] eqn:Hm.
  - cbn. eexists _, _. split; [reflexivity|].
    split; [by apply markers_none|done].
  - match goal with |- context [run_loop ?t ?o ?i ?l ?s] =>
      destruct (run_loop_total t o i s l) as [ls Hls]; rewrite Hls end.
    eexists (Segmenter.quiz_title _ (m0 :: ms)), (questions ls).
    split; [reflexivity|].
    destruct (markers_first _ _ _ Hm) as [H0 Hlt].
    split; [done|]. split; [done|]. apply quiz_title_spec.
Qed.

(** C6 as stated fails for a text that starts with a blank line: the text
    before the first marker is not blank, its first line is, and the title
    is the first line that is not blank. *)
Lemma title_counterexample :
  ¬ Spec.title_claim_as_stated [Samples.blank_first_page] [].
Proof.
  intros H.
  specialize (H "My Exam"
    [{| qtype := "@tf"; qtext := "Is it so?"; qoptions := [];
        qanswer := "true" |}] 9 []).
  assert ("My Exam" = EmptyString) as Habs; [|discriminate Habs].
  apply H.
  - vm_compute. reflexivity.
  - vm_compute. reflexivity.
  - vm_compute. discriminate.
Qed.

(** ** The high-water mark along a run *)

Lemma fallback_last (imgs : list occurrence) (idxs : list nat)
    (st st' : Exhibit.walk_state) :
  Exhibit.fallback imgs idxs st = Some st' ->
  Exhibit.last_image_idx_used st' = Exhibit.last_image_idx_used st.
Proof.
  unfold Exhibit.fallback.
  destruct (Exhibit.assigned_images st); [|by intros [= <-]].
  destruct (last idxs) as [i|]; [|by intros [= <-]].
  destruct (imgs !! i); [|done]. by intros [= <-].
Qed.

Lemma filter_above_all (h : Z) (l : list nat) :
  Forall (fun i => (h < Z.of_nat i)%Z) l ->
  filter (fun i => (h < Z.of_nat i)%Z) l = l.
Proof.
  induction 1 as [|i l Hi _ IH]; [done|].
  by rewrite filter_cons_True, IH.
Qed.

Lemma data_of_cons (imgs : list occurrence) (i : nat) (rest : list nat)
    (img : occurrence) :
  imgs !! i = Some img ->
  Spec.data_of imgs (i :: rest) = b64 img :: Spec.data_of imgs rest.
Proof.
  intros Hl. unfold Spec.data_of. rewrite omap_cons_eq, Hl. done.
Qed.

(** The walk, on an increasing list of valid indices, by the rules of the
    mark: it assigns the data of the indices above the mark it starts
    from, each at its first occurrence and unless the data was seen, and
    leaves the mark at the last of these indices. *)
Lemma walk_by_mark (imgs : list occurrence) (idxs : list nat) :
  StronglySorted lt idxs ->
  Forall (fun i => is_Some (imgs !! i)) idxs ->
  forall (st : Exhibit.walk_state) (seen : list string),
    (forall b, b ∈ Exhibit.seen_b64 st <-> b ∈ seen) ->
    exists st',
      Exhibit.walk imgs st idxs = Some st'
      /\ Exhibit.assigned_images st'
         = Exhibit.assigned_images st
           ++ Spec.first_occurrences seen
                (Spec.data_of imgs
                   (filter (fun i =>
                      (Exhibit.last_image_idx_used st < Z.of_nat i)%Z) idxs))
      /\ Exhibit.last_image_idx_used st'
         = match last (filter (fun i =>
                   (Exhibit.last_image_idx_used st < Z.of_nat i)%Z) idxs) with
           | Some i => Z.of_nat i
           | None => Exhibit.last_image_idx_used st
           end.
Proof.
  induction 1 as [|idx rest Hs IH Hgt]; intros Hv st seen Hseen.
  { exists st. cbn. by rewrite app_nil_r. }
  apply Forall_cons in Hv as [[img Himg] Hv]. specialize (IH Hv).
  cbn [Exhibit.walk]. unfold Exhibit.visit.
  destruct (Z.ltb_spec (Exhibit.last_image_idx_used st) (Z.of_nat idx))
    as [Hlt|Hle].
  - rewrite Himg. cbn [mbind option_bind].
    rewrite filter_cons_True by done.
    rewrite (filter_above_all (Exhibit.last_image_idx_used st) rest)
      by (eapply Forall_impl; [exact Hgt|]; cbn; lia).
    rewrite (data_of_cons _ _ _ _ Himg). cbn [Spec.first_occurrences].
    assert (filter (fun i => (Z.of_nat idx < Z.of_nat i)%Z) rest = rest)
      as Hall.
    { apply filter_above_all. eapply Forall_impl; [exact Hgt|]. cbn. lia. }
    rewrite last_cons.
    case_bool_decide as Hnew.
    + destruct (IH {| Exhibit.assigned_images :=
                        Exhibit.assigned_images st ++ [b64 img];
                      Exhibit.seen_b64 := Exhibit.seen_b64 st ∪ {[ b64 img ]};
                      Exhibit.last_image_idx_used := Z.of_nat idx |}
                  (b64 img :: seen))
        as (st' & Hw & Ha & Hm).
      { intros b. cbn. rewrite elem_of_union, elem_of_singleton,
          elem_of_cons, Hseen. tauto. }
      cbn [Exhibit.assigned_images Exhibit.last_image_idx_used] in Ha, Hm.
      rewrite Hall in Ha, Hm.
      exists st'. split; [exact Hw|].
      rewrite bool_decide_eq_false_2 by (by rewrite <- Hseen).
      split; [by rewrite Ha, <- app_assoc|].
      rewrite Hm. by destruct (last rest).
    + destruct (IH {| Exhibit.assigned_images := Exhibit.assigned_images st;
                      Exhibit.seen_b64 := Exhibit.seen_b64 st;
                      Exhibit.last_image_idx_used := Z.of_nat idx |} seen)
        as (st' & Hw & Ha & Hm); [exact Hseen|].
      cbn [Exhibit.assigned_images Exhibit.last_image_idx_used] in Ha, Hm.
      rewrite Hall in Ha, Hm.
      exists st'. split; [exact Hw|].
      apply Hseen in Hnew.
      rewrite bool_decide_eq_true_2 by done.
      split; [exact Ha|]. rewrite Hm. by destruct (last rest).
  - cbn [mbind option_bind].
    rewrite filter_cons_False by lia. by apply IH.
Qed.

(** The exhibit block, by the rules of the mark. *)
Lemma assign_exhibits_by_mark (imgs : list occurrence) (h : Z) (sp ep : nat)
    (q_text : string) :
  let idxs := if Exhibit.mentions_exhibit q_text
              then Exhibit.images_in_span_indices imgs sp ep else [] in
  let p := Spec.pass_from h idxs in
  Exhibit.assign_exhibits imgs h sp ep q_text
  = Some (q_text +:+ Spec.refs (Spec.handed imgs p), Spec.hwm_after p).
Proof.
  cbn zeta. destruct (Exhibit.mentions_exhibit q_text) eqn:Hm.
  2:{ rewrite assign_exhibits_skip by done. cbn. by rewrite append_empty_r. }
  unfold Exhibit.assign_exhibits. rewrite Hm. cbn zeta.
  destruct (images_in_span_spec imgs sp ep) as [Hs _].
  pose proof (in_span_valid imgs sp ep) as Hv.
  remember (Exhibit.images_in_span_indices imgs sp ep) as idxs eqn:E.
  clear E.
  destruct (walk_by_mark imgs idxs Hs Hv (Exhibit.walk_init h) [])
    as (st & Hw & Ha & Hmark).
  { intros b. cbn. set_solver. }
  cbn [Exhibit.walk_init Exhibit.assigned_images Exhibit.last_image_idx_used
       app] in Ha, Hmark.
  rewrite Hw. cbn [mbind option_bind].
  unfold Spec.pass_from, Spec.handed, Exhibit.fallback.
  cbn [Spec.reused_idx Spec.consumed_idxs Spec.hwm_after].
  rewrite <- Hmark, Ha.
  destruct (filter (fun i => (h < Z.of_nat i)%Z) idxs) as [|i0 c] eqn:Hc.
  - cbn [Spec.data_of omap list_omap Spec.first_occurrences].
    destruct (last idxs) as [i|] eqn:Hlast.
    + pose proof (last_Some_elem_of _ _ Hlast) as Hi.
      rewrite Forall_forall in Hv. destruct (Hv _ Hi) as [img Hl].
      rewrite Hl. cbn [mbind option_bind].
      cbn [Exhibit.assigned_images Exhibit.last_image_idx_used app].
      by rewrite append_refs_eq.
    + cbn [mbind option_bind]. by rewrite append_refs_eq, Ha.
  - assert (i0 ∈ idxs) as Hi0.
    { assert (i0 ∈ filter (fun i => (h < Z.of_nat i)%Z) idxs) as Hin
        by (rewrite Hc; by left).
      by apply list_elem_of_filter in Hin as [_ ?]. }
    rewrite Forall_forall in Hv. destruct (Hv _ Hi0) as [img0 Hl0].
    rewrite (data_of_cons _ _ _ _ Hl0). cbn [Spec.first_occurrences].
    rewrite bool_decide_eq_false_2 by (by intros ?%elem_of_nil).
    cbn [mbind option_bind]. rewrite append_refs_eq, Ha.
    rewrite (data_of_cons _ _ _ _ Hl0). cbn [Spec.first_occurrences].
    by rewrite bool_decide_eq_false_2 by (by intros ?%elem_of_nil).
Qed.

(** One iteration of the question loop, by the rules of the mark. *)
Lemma loop_body_by_mark (text : string) (offsets : list (nat * nat))
    (imgs : list occurrence) (ls : loop_state) (span : nat * nat) :
  let p := Spec.pass_of text offsets imgs (last_image_idx_used ls) span in
  loop_body text offsets imgs ls span
  = Some {| last_image_idx_used := Spec.hwm_after p;
            questions :=
              questions ls
              ++ omap (Spec.question_of text imgs) [(span, p)] |}.
Proof.
  cbn zeta. unfold loop_body, Spec.pass_of, Spec.span_walk.
  rewrite omap_cons_eq. unfold Spec.question_of. cbn [fst snd].
  destruct (Segmenter.span_pages _ _ _) as [sp ep].
  destruct (read_span text span) as [st|].
  - rewrite assign_exhibits_by_mark. cbn [mbind option_bind]. done.
  - cbn. rewrite app_nil_r. by destruct ls.
Qed.

Lemma run_loop_by_log (text : string) (offsets : list (nat * nat))
    (imgs : list occurrence) (spans : list (nat * nat)) (ls : loop_state) :
  let log := Spec.run_log text offsets imgs (last_image_idx_used ls) spans in
  exists ls',
    run_loop text offsets imgs ls spans = Some ls'
    /\ last_image_idx_used ls'
       = Spec.hwm_end (last_image_idx_used ls) log
    /\ questions ls'
       = questions ls ++ omap (Spec.question_of text imgs) (zip spans log).
Proof.
  revert ls; induction spans as [|span spans IH]; intros ls; cbn zeta.
  { exists ls. cbn. by rewrite app_nil_r. }
  cbn [run_loop Spec.run_log]. rewrite loop_body_by_mark.
  cbn [mbind option_bind].
  set (p := Spec.pass_of text offsets imgs (last_image_idx_used ls) span).
  destruct (IH {| last_image_idx_used := Spec.hwm_after p;
                  questions :=
                    questions ls
                    ++ omap (Spec.question_of text imgs) [(span, p)] |})
    as (ls' & Hrun & Hmark & Hqs).
  cbn [last_image_idx_used questions] in Hrun, Hmark, Hqs.
  exists ls'. split; [exact Hrun|]. split.
  - rewrite Hmark. unfold Spec.hwm_end. done.
  - rewrite Hqs, <- app_assoc. f_equal.
    change (zip (span :: spans)
              (p :: Spec.run_log text offsets imgs (Spec.hwm_after p) spans))
      with ([(span, p)]
            ++ zip spans
                 (Spec.run_log text offsets imgs (Spec.hwm_after p) spans)).
    by rewrite omap_app.
Qed.

Lemma strongly_sorted_filter {A} (R : A -> A -> Prop) (P : A -> Prop)
    `{!forall x, Decision (P x)} (l : list A) :
  StronglySorted R l -> StronglySorted R (filter P l).
Proof.
  induction 1 as [|x l _ IH Hall]; [constructor|].
  destruct (decide (P x)).
  - rewrite filter_cons_True by done. constructor; [done|].
    apply Forall_forall. intros y [_ Hy]%list_elem_of_filter.
    rewrite Forall_forall in Hall. by apply Hall.
  - by rewrite filter_cons_False.
Qed.

Lemma sorted_last_max (l : list nat) (m : nat) :
  StronglySorted lt l -> last l = Some m -> Forall (fun i => i <= m) l.
Proof.
  induction 1 as [|x l Hs IH Hall]; [done|].
  rewrite last_cons. destruct (last l) as [y|] eqn:Hy.
  - intros [= ->]. constructor; [|by apply IH].
    apply last_Some_elem_of in Hy. rewrite Forall_forall in Hall.
    apply Hall in Hy. lia.
  - intros [= ->]. apply last_None in Hy as ->. by constructor.
Qed.

Lemma span_walk_sorted (text : string) (offsets : list (nat * nat))
    (imgs : list occurrence) (span : nat * nat) :
  StronglySorted lt (Spec.span_walk text offsets imgs span).
Proof.
  unfold Spec.span_walk. destruct (read_span text span); [|constructor].
  destruct (Exhibit.mentions_exhibit _); [|constructor].
  destruct (Segmenter.span_pages _ _ _) as [sp ep].
  by destruct (images_in_span_spec imgs sp ep).
Qed.

Lemma span_walk_walks (text : string) (offsets : list (nat * nat))
    (imgs : list occurrence) (span : nat * nat) :
  Spec.walks text offsets imgs span (Spec.span_walk text offsets imgs span).
Proof.
  unfold Spec.walks, Spec.span_walk.
  destruct (read_span text span) as [st|]; [|done]. cbn zeta.
  destruct (Exhibit.mentions_exhibit _) eqn:Hm.
  - left. split; [by apply mentions_exhibit_iff|].
    destruct (Segmenter.span_pages _ _ _) as [sp ep].
    apply images_in_span_spec.
  - right. split; [|done]. rewrite <- mentions_exhibit_iff. congruence.
Qed.

Lemma run_log_walks (text : string) (offsets : list (nat * nat))
    (imgs : list occurrence) (spans : list (nat * nat)) (h : Z) :
  Forall2 (fun span p =>
             exists idxs,
               Spec.walks text offsets imgs span idxs
               /\ p = Spec.pass_from (Spec.hwm_before p) idxs)
    spans (Spec.run_log text offsets imgs h spans).
Proof.
  revert h; induction spans as [|span spans IH]; intros h; [constructor|].
  cbn [Spec.run_log]. constructor; [|apply IH].
  exists (Spec.span_walk text offsets imgs span).
  split; [apply span_walk_walks|done].
Qed.

(** What the rules give for one question. *)
Lemma pass_from_facts (h : Z) (idxs : list nat) :
  StronglySorted lt idxs ->
  let p := Spec.pass_from h idxs in
  Spec.hwm_before p = h
  /\ (Spec.hwm_before p <= Spec.hwm_after p)%Z
  /\ (forall i, i ∈ Spec.consumed_idxs p ->
        (Spec.hwm_before p < Z.of_nat i)%Z
        /\ (Z.of_nat i <= Spec.hwm_after p)%Z)
  /\ StronglySorted lt (Spec.consumed_idxs p)
  /\ (is_Some (Spec.reused_idx p) ->
      Spec.consumed_idxs p = []
      /\ Spec.hwm_after p = Spec.hwm_before p).
Proof.
  intros Hs. cbn zeta. unfold Spec.pass_from.
  cbn [Spec.hwm_before Spec.hwm_after Spec.consumed_idxs Spec.reused_idx].
  pose proof (strongly_sorted_filter lt
                (fun i => (h < Z.of_nat i)%Z) idxs Hs) as Hsc.
  remember (filter (fun i => (h < Z.of_nat i)%Z) idxs) as c eqn:Hc.
  assert (forall i, i ∈ c -> (h < Z.of_nat i)%Z) as Habove.
  { intros i Hi. rewrite Hc in Hi. by apply list_elem_of_filter in Hi as [? _]. }
  split; [done|].
  destruct (last c) as [m|] eqn:Hlast.
  - pose proof (sorted_last_max c m Hsc Hlast) as Hmax.
    pose proof (Habove _ (last_Some_elem_of _ _ Hlast)) as Hm.
    split; [lia|]. split.
    { intros i Hi. split; [by apply Habove|].
      rewrite Forall_forall in Hmax. apply Hmax in Hi. lia. }
    split; [done|].
    destruct c; [done|]. by intros [? ?].
  - apply last_None in Hlast as ->.
    split; [lia|]. split; [by intros i ?%elem_of_nil|]. by split.
Qed.

Lemma run_log_facts (text : string) (offsets : list (nat * nat))
    (imgs : list occurrence) (spans : list (nat * nat)) (h : Z) :
  let log := Spec.run_log text offsets imgs h spans in
  length log = length spans
  /\ Spec.chained h log
  /\ Forall (fun p => (Spec.hwm_before p <= Spec.hwm_after p)%Z) log
  /\ Forall (fun p => forall i, i ∈ Spec.consumed_idxs p ->
               (Spec.hwm_before p < Z.of_nat i)%Z
               /\ (Z.of_nat i <= Spec.hwm_after p)%Z) log
  /\ Forall (fun p => is_Some (Spec.reused_idx p) ->
               Spec.consumed_idxs p = []
               /\ Spec.hwm_after p = Spec.hwm_before p) log
  /\ StronglySorted lt (Spec.all_consumed log)
  /\ Forall (fun i => (h < Z.of_nat i)%Z) (Spec.all_consumed log).
Proof.
  revert h; induction spans as [|span spans IH]; intros h; cbn zeta.
  { cbn. repeat split; constructor. }
  cbn [Spec.run_log].
  destruct (pass_from_facts h (Spec.span_walk text offsets imgs span)
              (span_walk_sorted text offsets imgs span))
    as (Hbefore & Hle & Hbounds & Hsorted & Hreuse).
  fold (Spec.pass_of text offsets imgs h span) in *.
  remember (Spec.pass_of text offsets imgs h span) as p eqn:Hp.
  destruct (IH (Spec.hwm_after p))
    as (Hlen & Hchain & Hmono & Hin & Hre & Hs & Hgt).
  remember (Spec.run_log text offsets imgs (Spec.hwm_after p) spans)
    as log eqn:Hlog.
  clear Hp Hlog.
  assert (Forall (fun i => (h < Z.of_nat i)%Z) (Spec.consumed_idxs p))
    as Hgt0.
  { apply Forall_forall. intros i Hi. apply Hbounds in Hi. lia. }
  split; [cbn; by rewrite Hlen|].
  split; [by cbn|].
  split; [by constructor|]. split; [by constructor|].
  split; [by constructor|].
  unfold Spec.all_consumed in *. cbn [List.map List.concat].
  split.
  - apply StronglySorted_app_2; [|done..].
    intros x y Hx Hy. apply Hbounds in Hx.
    rewrite Forall_forall in Hgt. apply Hgt in Hy. lia.
  - apply Forall_app. split; [done|].
    eapply Forall_impl; [exact Hgt|]. cbn. intros i Hi. lia.
Qed.

(** C2. Along any run of the question loop, what the questions are handed
    follows the rules of the high-water mark.  The log of the run gives,
    for each span, the mark before and after, the indices the walk
    consumes (the in-span indices above the mark) and the index the
    fallback reuses (the last in-span index, when the walk consumes
    nothing); the list a question walks is the increasing list of the
    indices of the occurrences on its pages when its body mentions an
    exhibit, and empty otherwise.  The run of the code ends at the mark
    the log ends at, and
    the questions it appends are, for each span that is kept, the body of
    the span followed by the references of the images its log entry hands
    to it: the data of the consumed indices, each once, or the data of the
    reused index.  The mark never decreases from one question to the next;
    every consumed index is above the mark the question started from and at
    most the mark it leaves, so the consumed indices of the whole run,
    taken in order, increase strictly and no index is consumed by two
    questions; and a question that takes the fallback consumed nothing and
    leaves the mark as it was. *)
Theorem high_water_mark_run (text : string) (offsets : list (nat * nat))
    (imgs : list occurrence) (ls : loop_state) (spans : list (nat * nat)) :
  let log := Spec.run_log text offsets imgs (last_image_idx_used ls) spans in
  (exists ls',
     run_loop text offsets imgs ls spans = Some ls'
     /\ last_image_idx_used ls' = Spec.hwm_end (last_image_idx_used ls) log
     /\ questions ls'
        = questions ls
          ++ omap (Spec.question_of text imgs) (zip spans log))
  /\ Forall2 (fun span p =>
                exists idxs,
                  Spec.walks text offsets imgs span idxs
                  /\ p = Spec.pass_from (Spec.hwm_before p) idxs) spans log
  /\ length log = length spans
  /\ Spec.chained (last_image_idx_used ls) log
  /\ Forall (fun p => (Spec.hwm_before p <= Spec.hwm_after p)%Z) log
  /\ Forall (fun p => forall i, i ∈ Spec.consumed_idxs p ->
               (Spec.hwm_before p < Z.of_nat i)%Z
               /\ (Z.of_nat i <= Spec.hwm_after p)%Z) log
  /\ StronglySorted lt (Spec.all_consumed log)
  /\ NoDup (Spec.all_consumed log)
  /\ Forall (fun p => is_Some (Spec.reused_idx p) ->
               Spec.consumed_idxs p = []
               /\ Spec.hwm_after p = Spec.hwm_before p) log.
Proof.
  destruct (run_log_facts text offsets imgs spans (last_image_idx_used ls))
    as (Hlen & Hchain & Hmono & Hin & Hre & Hs & _).
  cbn zeta. split; [apply run_loop_by_log|].
  split; [apply run_log_walks|].
  repeat (split; [done|]). split; [|done].
  clear -Hs. induction Hs as [|x l _ IH Hall]; constructor; [|done].
  intros Hx. rewrite Forall_forall in Hall. apply Hall in Hx. lia.
Qed.

(** ** The formatter *)

Lemma bind_run {A B} (m : Formatter.M A) (k : A -> Formatter.M B)
    (s : Formatter.store) :
  @mbind Formatter.M Formatter.M_bind A B k m s
  = let '(a, s') := m s in k a s'.
Proof. reflexivity. Qed.

Lemma ret_run {A} (a : A) (s : Formatter.store) :
  @mret Formatter.M Formatter.M_ret A a s = (a, s).
Proof. reflexivity. Qed.

(** Run the next statements of a monadic block. *)
Ltac run_block :=
  repeat progress
    (rewrite ?bind_run, ?ret_run;
     unfold Formatter.new_output, Formatter.append, Formatter.read_questions,
       Formatter.read_output;
     cbn [Formatter.questions_arg Formatter.output]).

Lemma for_each_append (l : list string) (s : Formatter.store) :
  Formatter.for_each l Formatter.append s
  = (tt, {| Formatter.questions_arg := Formatter.questions_arg s;
            Formatter.output := Formatter.output s ++ l |}).
Proof.
  revert s; induction l as [|x l IH]; intros s.
  - cbn [Formatter.for_each]. rewrite ret_run, app_nil_r. by destruct s.
  - cbn [Formatter.for_each]. run_block.
    rewrite IH. cbn. by rewrite <- app_assoc.
Qed.

Lemma emit_question_run (iq : nat * question) (s : Formatter.store) :
  Formatter.emit_question iq s
  = (tt, {| Formatter.questions_arg := Formatter.questions_arg s;
            Formatter.output :=
              Formatter.output s ++ Spec.question_lines iq |}).
Proof.
  destruct iq as [i q]. unfold Formatter.emit_question, Spec.question_lines.
  cbn [fst snd]. run_block.
  destruct (qoptions q) as [|o os] eqn:Ho.
  - run_block. by rewrite <- !app_assoc.
  - rewrite for_each_append. run_block. by rewrite <- !app_assoc.
Qed.

Lemma for_each_emit (iqs : list (nat * question)) (s : Formatter.store) :
  Formatter.for_each iqs Formatter.emit_question s
  = (tt, {| Formatter.questions_arg := Formatter.questions_arg s;
            Formatter.output :=
              Formatter.output s
              ++ List.concat (List.map Spec.question_lines iqs) |}).
Proof.
  revert s; induction iqs as [|iq iqs IH]; intros s.
  - cbn [Formatter.for_each]. rewrite ret_run, app_nil_r. by destruct s.
  - cbn [Formatter.for_each]. rewrite bind_run, emit_question_run, IH.
    cbn. by rewrite <- app_assoc.
Qed.

(** A call returns the document of its two arguments and leaves the list
    of questions as it found it. *)
Lemma format_body_run (title : string) (s : Formatter.store) :
  Formatter.format_body title s
  = (Text.join nl (Spec.document_lines title (Formatter.questions_arg s)),
     {| Formatter.questions_arg := Formatter.questions_arg s;
        Formatter.output :=
          Spec.document_lines title (Formatter.questions_arg s) |}).
Proof.
  unfold Formatter.format_body. run_block.
  rewrite for_each_emit. run_block. reflexivity.
Qed.

(** C9. Two calls of the formatter on the same title and the same list of
    questions return the same string, whatever the list [output] was bound
    to before; the string is a function of the two arguments; the list of
    questions is not changed by a call; and a second call made in the
    state the first one left returns the same string again. *)
Theorem format_flashquiz_deterministic (title : string) (qs : list question)
    (junk1 junk2 : list string) :
  let r1 := Formatter.call title qs junk1 in
  let r2 := Formatter.call title qs junk2 in
  r1.1 = r2.1
  /\ r1.1 = Formatter.format_flashquiz title qs
  /\ r1.1 = Text.join nl (Spec.document_lines title qs)
  /\ Formatter.questions_arg r1.2 = qs
  /\ (Formatter.format_body title r1.2).1 = r1.1.
Proof.
  cbn zeta. unfold Formatter.format_flashquiz, Formatter.call.
  rewrite !format_body_run. cbn [fst snd Formatter.questions_arg].
  rewrite ?format_body_run. done.
Qed.

(** ** The theorems at work *)

Lemma exhibit_assignment_witness :
  let imgs := Samples.exam_images in
  let idxs := Exhibit.images_in_span_indices imgs 1 1 in
  Spec.in_span_indices imgs 1 1 idxs /\
  exists st st',
    Spec.walk_spec imgs (Exhibit.walk_init 0) idxs st
    /\ Spec.fallback_spec imgs idxs st st'
    /\ (Exhibit.assigned_images st = [] ->
        Exhibit.last_image_idx_used st = 0%Z)
    /\ Exhibit.assign_exhibits imgs 0 1 1 "Look at the EXHIBIT."
       = Some ("Look at the EXHIBIT."
               +:+ Spec.refs (Exhibit.assigned_images st'),
               Exhibit.last_image_idx_used st').
Proof.
  apply (exhibit_assignment Samples.exam_images 0 1 1 "Look at the EXHIBIT.").
  exists "look at the ", ".". reflexivity.
Defined.

Lemma unusable_span_dropped_witness :
  loop_body Samples.no_body_text [(0, 0)] [] loop_init
    (Samples.whole Samples.no_body_text) = Some loop_init
  /\ run_loop Samples.no_body_text [(0, 0)] [] loop_init
       [Samples.whole Samples.no_body_text]
     = run_loop Samples.no_body_text [(0, 0)] [] loop_init [].
Proof.
  apply (unusable_span_dropped _ _ _ _ _ _ Samples.no_body_state).
  - vm_compute. reflexivity.
  - left. reflexivity.
Defined.

Example b64encode_examples :
  Base64.b64encode (list_byte_of_string "Man") = "TWFu"
  /\ Base64.b64encode (list_byte_of_string "Ma") = "TWE="
  /\ Base64.b64encode (list_byte_of_string "M") = "TQ=="
  /\ Base64.b64encode [xff; xd8; xff] = "/9j/".
Proof. repeat split. Qed.

Example data_uri_examples :
  ImageData.get_image_base64_from_data [xff; xd8; xff] "/Im0.png"
  = Some "data:image/jpg;base64,/9j/"
  /\ ImageData.get_image_base64_from_data (list_byte_of_string "GIF")
       "/Im1" = Some "data:image/gif;base64,R0lG"
  /\ ImageData.get_image_base64_from_data [x00] "/Im2.v1.JPEG"
     = Some "data:image/jpeg;base64,AA=="
  /\ ImageData.get_image_base64_from_data [x00] "/Im3.bmp"
     = Some "data:image/png;base64,AA==".
Proof. repeat split. Qed.

Example exam_segments :
  Samples.exam_offsets = [(0, 0); (239, 1)]
  /\ Samples.exam_spans = [(22, 98); (98, 168); (168, 239); (239, 324)].
Proof. split; vm_compute; reflexivity. Qed.

Example exam_parsed :
  parse_vce_pdf Samples.exam_pages Samples.exam_images
  = Some ("Sample Exam",
      [{| qtype := "@mc";
          qtext := "Refer to the Exhibit. Which one?"
                   +:+ Spec.image_reference "data:image/png;base64,AA==";
          qoptions := ["a) one"; "b) two"];
          qanswer := "b" |};
       {| qtype := "@tf";
          qtext := "Same exhibit. Is it so?"
                   +:+ Spec.image_reference "data:image/png;base64,AA==";
          qoptions := [];
          qanswer := "true" |};
       {| qtype := "@sata";
          qtext := "Pick two.";
          qoptions := ["a) one"; "b) two or so"; "c) three"];
          qanswer := "a, c" |};
       {| qtype := "@mc";
          qtext := "Look at the EXHIBIT. Explanation: none"
                   +:+ Spec.image_reference "data:image/gif;base64,R0lG";
          qoptions := ["a) left"; "b) right"];
          qanswer := "a" |}]).
Proof. vm_compute. reflexivity. Qed.

(** The second question reuses occurrence 0 through the fallback; the
    fourth consumes occurrences 1 and 2 and assigns their data once. *)
Example exam_log :
  Spec.run_log Samples.exam_text Samples.exam_offsets Samples.exam_images
    (-1) Samples.exam_spans
  = [{| Spec.hwm_before := -1; Spec.consumed_idxs := [0];
        Spec.reused_idx := None; Spec.hwm_after := 0 |};
     {| Spec.hwm_before := 0; Spec.consumed_idxs := [];
        Spec.reused_idx := Some 0; Spec.hwm_after := 0 |};
     {| Spec.hwm_before := 0; Spec.consumed_idxs := [];
        Spec.reused_idx := None; Spec.hwm_after := 0 |};
     {| Spec.hwm_before := 0; Spec.consumed_idxs := [1; 2];
        Spec.reused_idx := None; Spec.hwm_after := 2 |}].
Proof. vm_compute. reflexivity. Qed.

Example format_example :
  Formatter.format_flashquiz "T"
    [{| qtype := "@tf"; qtext := "Is it so?"; qoptions := [];
        qanswer := "true" |};
     {| qtype := "@mc"; qtext := "Which?"; qoptions := ["a) x"; "b) y"];
        qanswer := "b" |}]
  = Text.join nl
      ["---"; "quiz-title: " +:+ dquote +:+ "T" +:+ dquote; "time-limit: 0";
       "pass-score: 80"; "shuffle: true"; "show-answer: true";
       "exam-range: " +:+ dquote +:+ "-" +:+ dquote; "---"; "";
       "@tf 1) Is it so?"; "= true"; "";
       "@mc 2) Which?"; "a) x"; "b) y"; "= b"; ""].
Proof. vm_compute. reflexivity. Qed.

(** * Further properties *)

(** ** More on strings *)

Lemma length_append (a b : string) :
  String.length (a +:+ b) = String.length a + String.length b.
Proof.
  induction a as [|c a IH]; [done|].
  change (S (String.length (a +:+ b)) = S (String.length a + String.length b)).
  by rewrite IH.
Qed.

Lemma drop_app_length (a b : string) :
  Text.drop (String.length a) (a +:+ b) = b.
Proof. induction a as [|c a IH]; [done|]. exact IH. Qed.

Lemma take_app_length (a b : string) :
  Text.take (String.length a) (a +:+ b) = a.
Proof.
  induction a as [|c a IH]; [done|].
  change (String c (Text.take (String.length a) (a +:+ b)) = String c a).
  by rewrite IH.
Qed.

Lemma drop_add (n m : nat) (s : string) :
  Text.drop (n + m) s = Text.drop m (Text.drop n s).
Proof.
  revert s; induction n as [|n IH]; intros s; [done|].
  destruct s as [|c s]; [by rewrite !drop_empty|]. exact (IH s).
Qed.

Lemma length_drop (n : nat) (s : string) :
  String.length (Text.drop n s) = String.length s - n.
Proof.
  revert s; induction n as [|n IH]; intros [|c s]; cbn; try done; lia.
Qed.

Lemma take_all (n : nat) (s : string) :
  String.length s <= n -> Text.take n s = s.
Proof.
  revert s; induction n as [|n IH]; intros [|c s]; cbn; try done; try lia.
  intros H. by rewrite IH by lia.
Qed.

Lemma slice_app (a b c : string) :
  Text.slice (String.length a) (String.length a + String.length b)
    (a +:+ b +:+ c) = b.
Proof.
  unfold Text.slice. rewrite drop_app_length.
  replace (String.length a + String.length b - String.length a)
    with (String.length b) by lia.
  apply take_app_length.
Qed.

(** ** The text buffer and the offset table *)

Lemma add_pages_buffer (pages : list string) (n : nat) (b : Segmenter.buffer) :
  let b' := fold_left Segmenter.add_page (enumerate_from n pages) b in
  Segmenter.full_text b'
  = Segmenter.full_text b +:+ Props.concat_pages pages
  /\ Segmenter.current_offset b'
     = Segmenter.current_offset b + String.length (Props.concat_pages pages)
  /\ Segmenter.page_offsets b'
     = Segmenter.page_offsets b
       ++ Props.offsets_from (Segmenter.current_offset b) n pages.
Proof.
  revert n b; induction pages as [|t pages IH]; intros n b; cbn zeta.
  { cbn. rewrite append_empty_r, app_nil_r. split; [done|]. split; [lia|done]. }
  cbn [enumerate_from fold_left].
  destruct (IH (S n) (Segmenter.add_page b (n, t))) as (Ht & Hc & Ho).
  rewrite Ht, Hc, Ho. cbn [Segmenter.add_page Segmenter.full_text
    Segmenter.current_offset Segmenter.page_offsets Props.concat_pages
    Props.offsets_from].
  rewrite !append_assoc, <- app_assoc.
  split; [done|]. split; [rewrite !length_append; lia|done].
Qed.

Lemma read_pages_buffer (pages : list string) :
  let b := Segmenter.read_pages pages in
  Segmenter.full_text b = Props.concat_pages pages
  /\ Segmenter.current_offset b = String.length (Segmenter.full_text b)
  /\ Segmenter.page_offsets b = Props.offsets_from 0 0 pages.
Proof.
  destruct (add_pages_buffer pages 0 Segmenter.empty_buffer) as (Ht & Hc & Ho).
  cbn zeta. unfold Segmenter.read_pages, enumerate.
  rewrite Ht, Hc, Ho. done.
Qed.

Lemma offsets_from_lookup (pages : list string) (off n i : nat) (t : string) :
  pages !! i = Some t ->
  exists before after,
    Props.concat_pages pages = before +:+ (t +:+ nl) +:+ after
    /\ Props.offsets_from off n pages !! i
       = Some (off + String.length before, n + i).
Proof.
  revert off n i; induction pages as [|u pages IH]; intros off n i; [done|].
  destruct i as [|i]; cbn [lookup list_lookup].
  - intros [= ->]. exists EmptyString, (Props.concat_pages pages).
    split; [done|]. cbn. by rewrite !Nat.add_0_r.
  - intros H.
    destruct (IH (off + String.length (u +:+ nl)) (S n) i H)
      as (before & after & Hc & Hl).
    exists ((u +:+ nl) +:+ before), after. split.
    + cbn [Props.concat_pages]. by rewrite Hc, !append_assoc.
    + cbn [Props.offsets_from]. change (Props.offsets_from
        (off + String.length (u +:+ nl)) (S n) pages !! i
        = Some (off + String.length ((u +:+ nl) +:+ before), n + S i)).
      rewrite Hl, !length_append. do 2 f_equal; lia.
Qed.

(** X1. The offset recorded for a page is where that page starts in the
    text buffer: the entry of page [i] is [(off, i)], the [len(text) + 1]
    characters of the buffer from [off] on are the text of the page
    followed by a line feed, and they lie inside the buffer, whose length
    is the final value of [current_offset]. *)
Theorem page_offset_locates_page (pages : list string) (i : nat)
    (t : string) :
  pages !! i = Some t ->
  let b := Segmenter.read_pages pages in
  exists off,
    Segmenter.page_offsets b !! i = Some (off, i)
    /\ Text.slice off (off + String.length (t +:+ nl)) (Segmenter.full_text b)
       = t +:+ nl
    /\ off + String.length (t +:+ nl) <= Segmenter.current_offset b
    /\ Segmenter.current_offset b = String.length (Segmenter.full_text b).
Proof.
  intros Hi. cbn zeta.
  destruct (read_pages_buffer pages) as (Ht & Hc & Ho).
  destruct (offsets_from_lookup pages 0 0 i t Hi)
    as (before & after & Hcat & Hl).
  exists (String.length before). rewrite Ho, Hl, Hc, Ht, Hcat.
  split; [done|]. split; [apply slice_app|]. split; [|done].
  rewrite !length_append. lia.
Qed.

Lemma page_offset_locates_page_witness :
  let b := Segmenter.read_pages Samples.exam_pages in
  exists off,
    Segmenter.page_offsets b !! 1 = Some (off, 1)
    /\ Text.slice off
         (off + String.length
            (Samples.page_of ["QUESTION 4"; "Look at the EXHIBIT.";
               "A. left"; "B. right"; "Correct Answer: A";
               "Explanation: none"] +:+ nl))
         (Segmenter.full_text b)
       = Samples.page_of ["QUESTION 4"; "Look at the EXHIBIT."; "A. left";
           "B. right"; "Correct Answer: A"; "Explanation: none"] +:+ nl
    /\ off + String.length
         (Samples.page_of ["QUESTION 4"; "Look at the EXHIBIT."; "A. left";
            "B. right"; "Correct Answer: A"; "Explanation: none"] +:+ nl)
       <= Segmenter.current_offset b
    /\ Segmenter.current_offset b = String.length (Segmenter.full_text b).
Proof.
  apply (page_offset_locates_page Samples.exam_pages 1). reflexivity.
Defined.

(** ** Markers and spans *)

Lemma span_len_le (p : ascii -> bool) (s : string) :
  Text.span_len p s <= String.length s.
Proof.
  induction s as [|c s IH]; [done|]. cbn. destruct (p c); lia.
Qed.

(** A match has at least ten characters and lies inside the string. *)
Lemma marker_len_bounds (s : string) (n : nat) :
  Segmenter.marker_len s = Some n ->
  10 <= n <= String.length s /\ String.prefix "QUESTION" s = true.
Proof.
  unfold Segmenter.marker_len.
  destruct (String.prefix "QUESTION" s) eqn:Hp; [|done].
  pose proof (prefix_drop _ _ Hp) as Hs.
  apply (f_equal String.length) in Hs. rewrite length_append in Hs.
  change (String.length "QUESTION") with 8 in Hs.
  remember (Text.drop 8 s) as r eqn:Hr.
  pose proof (span_len_le Text.is_space r) as Hw.
  remember (Text.span_len Text.is_space r) as w eqn:Ew.
  pose proof (span_len_le Text.is_digit (Text.drop w r)) as Hd.
  rewrite length_drop in Hd.
  remember (Text.span_len Text.is_digit (Text.drop w r)) as d eqn:Ed.
  clear Hr Ew Ed.
  destruct (Nat.ltb_spec 0 w); [|done].
  destruct (Nat.ltb_spec 0 d); [|done].
  cbn [andb]. intros Heq. assert (n = 8 + w + d) as -> by congruence.
  split; [lia|done].
Qed.

Lemma well_spaced_shift (pos : nat) (c : ascii) (s : string) (ms : list nat) :
  Props.well_spaced (S pos) s ms ->
  Props.well_spaced pos (String c s) ms.
Proof.
  induction ms as [|m rest IH]; [done|].
  intros [(n & Hle & Hm & Hn & Hend & Hnext) Hrest].
  split; [|by apply IH]. exists n.
  replace (m - pos) with (S (m - S pos)) by lia. cbn [Text.drop String.length].
  repeat split; try done; lia.
Qed.

Lemma scan_markers_spaced (s : string) (pos skip : nat) :
  Props.well_spaced pos s (Segmenter.scan_markers pos skip s)
  /\ Forall (fun m => pos + skip <= m) (Segmenter.scan_markers pos skip s).
Proof.
  revert pos skip; induction s as [|c s IH]; intros pos skip; [done|].
  cbn [Segmenter.scan_markers]. destruct skip as [|k].
  - destruct (Segmenter.marker_len (String c s)) as [n|] eqn:Hm.
    + destruct (IH (S pos) (n - 1)) as [Hsp Hall].
      destruct (marker_len_bounds _ _ Hm) as [[Hn1 Hn2] _].
      cbn [String.length] in Hn2. split.
      * split; [|by apply well_spaced_shift].
        exists n. rewrite Nat.sub_diag. cbn [Text.drop String.length].
        repeat split; try done; try lia.
        destruct (Segmenter.scan_markers _ _ _) as [|m' ?]; [done|].
        inversion Hall; subst. lia.
      * constructor; [lia|]. eapply Forall_impl; [exact Hall|].
        cbn. intros; lia.
    + destruct (IH (S pos) 0) as [Hsp Hall].
      split; [by apply well_spaced_shift|].
      eapply Forall_impl; [exact Hall|]. cbn. intros; lia.
  - destruct (IH (S pos) k) as [Hsp Hall].
    split; [by apply well_spaced_shift|].
    eapply Forall_impl; [exact Hall|]. cbn. intros; lia.
Qed.

Lemma markers_spaced (text : string) :
  Props.well_spaced 0 text (Segmenter.markers text).
Proof. apply scan_markers_spaced. Qed.

Lemma slice_then_drop (a b : nat) (s : string) :
  a <= b ->
  Text.slice a b s +:+ Text.drop b s = Text.drop a s.
Proof.
  intros H. unfold Text.slice.
  replace b with (a + (b - a)) at 2 by lia.
  rewrite drop_add. apply take_drop.
Qed.

Lemma slice_to_end (a : nat) (s : string) :
  Text.slice a (String.length s) s = Text.drop a s.
Proof.
  unfold Text.slice. apply take_all. rewrite length_drop. lia.
Qed.

Lemma spans_tile (text : string) (ms : list nat) :
  Props.well_spaced 0 text ms ->
  let spans := Segmenter.question_spans ms (String.length text) in
  Props.contiguous spans (String.length text)
  /\ List.map fst spans = ms
  /\ Props.concat_all (Props.span_parts text spans)
     = match ms with m0 :: _ => Text.drop m0 text | [] => EmptyString end.
Proof.
  induction ms as [|m rest IH]; [done|].
  intros [(n & _ & Hm & Hn & Hend & Hnext) Hrest]. cbn zeta.
  destruct (IH Hrest) as (Hc & Hfst & Hcat). clear IH.
  destruct rest as [|m' rest];
    cbn [Segmenter.question_spans Props.contiguous List.map fst snd
         Props.span_parts Props.concat_all] in *.
  - rewrite append_empty_r, slice_to_end. repeat split; try done; lia.
  - rewrite Hcat, slice_then_drop by lia. injection Hfst as Hfst.
    rewrite Hfst.
    destruct Hrest as [(n' & _ & _ & _ & Hend' & _) _].
    destruct Hc as (? & ? & ? & ?).
    repeat split; try done; lia.
Qed.

Lemma prefix_take (p s : string) (k : nat) :
  String.prefix p s = true ->
  String.length p <= k ->
  String.prefix p (Text.take k s) = true.
Proof.
  revert s k; induction p as [|c p IH]; intros s k; [by destruct (Text.take k s)|].
  destruct s as [|d s]; [done|]. cbn [String.prefix String.length].
  destruct (ascii_dec c d) as [->|]; [|done].
  intros Hp Hk. destruct k as [|k]; [lia|]. cbn [Text.take String.prefix].
  destruct (ascii_dec d d); [|done]. apply IH; [done|lia].
Qed.

Lemma parts_start_with_marker (text : string) (ms : list nat) :
  Props.well_spaced 0 text ms ->
  Forall (fun part => String.prefix "QUESTION" part = true)
    (Props.span_parts text
       (Segmenter.question_spans ms (String.length text))).
Proof.
  induction ms as [|m rest IH]; [constructor|].
  intros [(n & _ & Hm & Hn & Hend & Hnext) Hrest].
  cbn [Segmenter.question_spans Props.span_parts List.map fst snd].
  constructor; [|by apply IH].
  rewrite Nat.sub_0_r in Hm.
  destruct (marker_len_bounds _ _ Hm) as [_ Hp].
  unfold Text.slice. apply prefix_take; [done|].
  change (String.length "QUESTION") with 8.
  destruct rest; lia.
Qed.

(** X2. The spans cut the text buffer without loss or overlap: each span is
    non-empty and ends where the next one starts, the last one ends with
    the buffer, every span starts at a marker and its text begins with the
    word QUESTION, and the text before the first marker followed by the
    texts of the spans, in order, is the buffer itself. *)
Theorem spans_partition_text (text : string) :
  let ms := Segmenter.markers text in
  let spans := Segmenter.question_spans ms (String.length text) in
  Props.contiguous spans (String.length text)
  /\ List.map fst spans = ms
  /\ Forall (fun part => String.prefix "QUESTION" part = true)
       (Props.span_parts text spans)
  /\ text
     = Text.take (match ms with m0 :: _ => m0 | [] => String.length text end)
         text
       +:+ Props.concat_all (Props.span_parts text spans).
Proof.
  cbn zeta. pose proof (markers_spaced text) as Hsp.
  destruct (spans_tile text _ Hsp) as (Hc & Hfst & Hcat).
  split; [done|]. split; [done|].
  split; [by apply parts_start_with_marker|].
  rewrite Hcat. destruct (Segmenter.markers text) as [|m0 ms].
  - by rewrite append_empty_r, take_all.
  - by rewrite take_drop.
Qed.

(** ** Line 99 never fires *)

Lemma rstrip_keeps_head (c : ascii) (s : string) :
  Text.is_space c = false ->
  exists r, Text.rstrip (String c s) = String c r.
Proof.
  intros Hc. cbn [Text.rstrip]. destruct (Text.rstrip s).
  - rewrite Hc. by eexists.
  - by eexists.
Qed.

Lemma strip_keeps_head (c : ascii) (s : string) :
  Text.is_space c = false ->
  exists r, Text.strip (String c s) = String c r.
Proof.
  intros Hc. unfold Text.strip. cbn [Text.lstrip]. rewrite Hc.
  by apply rstrip_keeps_head.
Qed.

Lemma split_on_keeps_head (sep c : ascii) (s : string) :
  Ascii.eqb c sep = false ->
  exists w ws, Text.split_on sep (String c s) = String c w :: ws.
Proof.
  intros Hc. cbn [Text.split_on]. rewrite Hc.
  destruct (Text.split_on sep s); by eexists _, _.
Qed.

Lemma span_lines_nonempty (part : string) :
  String.prefix "QUESTION" part = true ->
  Parser.span_lines part <> [].
Proof.
  intros Hp. apply prefix_drop in Hp.
  change ("QUESTION" +:+ Text.drop (String.length "QUESTION") part)
    with (String "Q" ("UESTION" +:+ Text.drop 8 part)) in Hp.
  rewrite Hp. unfold Parser.span_lines.
  destruct (strip_keeps_head "Q" ("UESTION" +:+ Text.drop 8 part) eq_refl)
    as [r ->].
  destruct (split_on_keeps_head LF "Q" r eq_refl) as (w & ws & ->).
  cbn [List.filter].
  destruct (strip_keeps_head "Q" w eq_refl) as [r' Hr']. rewrite Hr'.
  cbn [Text.nonempty List.map]. done.
Qed.

(** X3. The test of line 99 never succeeds: the text of every span that the
    segmenter produces begins with the marker, so its list of non-blank
    lines is not empty and the line classifier is always run. *)
Theorem span_always_has_lines (text : string) :
  Forall (fun span => is_Some (span_state text span))
    (Segmenter.question_spans (Segmenter.markers text) (String.length text)).
Proof.
  pose proof (parts_start_with_marker text _ (markers_spaced text))
    as Hparts.
  unfold Props.span_parts in Hparts.
  apply Forall_forall. intros [a b] Hin.
  rewrite Forall_forall in Hparts.
  assert (String.prefix "QUESTION" (Text.slice a b text) = true) as Hp.
  { apply Hparts. apply list_elem_of_In, List.in_map_iff.
    exists (a, b). split; [done|]. by apply list_elem_of_In. }
  apply span_lines_nonempty in Hp. unfold span_state.
  destruct (Parser.span_lines (Text.slice a b text)); [done|by eexists].
Qed.

(** ** The page of an offset *)

Lemma offsets_from_ge (pages : list string) (off n : nat) (e : nat * nat) :
  e ∈ Props.offsets_from off n pages ->
  off <= e.1 /\ n <= e.2 < n + length pages.
Proof.
  revert off n; induction pages as [|t pages IH]; intros off n.
  { by intros ?%elem_of_nil. }
  cbn [Props.offsets_from length].
  intros [->|H]%elem_of_cons; [cbn; lia|].
  apply IH in H. lia.
Qed.

Lemma fold_pick_above (q a : nat) (l : list (nat * nat)) :
  Forall (fun e => q < e.1) l -> fold_left (Spec.pick q) l a = a.
Proof.
  induction 1 as [|e l He _ IH]; [done|].
  cbn [fold_left]. unfold Spec.pick at 2.
  destruct (Nat.leb_spec e.1 q); [lia|done].
Qed.

Lemma pick_offsets_from (pages : list string) (off n a q : nat) :
  off <= q ->
  q < off + String.length (Props.concat_pages pages) ->
  exists i t before,
    pages !! i = Some t
    /\ Props.offsets_from off n pages !! i
       = Some (off + String.length before, n + i)
    /\ fold_left (Spec.pick q) (Props.offsets_from off n pages) a = n + i
    /\ off + String.length before <= q
    /\ q < off + String.length before + String.length (t +:+ nl).
Proof.
  revert off n a; induction pages as [|t pages IH]; intros off n a Hle Hlt.
  { cbn in Hlt. lia. }
  cbn [Props.offsets_from fold_left Props.concat_pages] in *.
  rewrite length_append in Hlt.
  replace (Spec.pick q a (off, n)) with n
    by (unfold Spec.pick; cbn; by destruct (Nat.leb_spec off q); [|lia]).
  destruct (Nat.lt_ge_cases q (off + String.length (t +:+ nl))) as [Hin|Hout].
  - exists 0, t, EmptyString. cbn [lookup list_lookup String.length].
    rewrite !Nat.add_0_r. split; [done|]. split; [done|].
    split; [|lia]. apply fold_pick_above, Forall_forall.
    intros e He%offsets_from_ge. lia.
  - destruct (IH (off + String.length (t +:+ nl)) (S n) n Hout)
      as (i & u & before & Hi & Hl & Hfold & Hlo & Hhi); [lia|].
    exists (S i), u, ((t +:+ nl) +:+ before).
    rewrite (length_append (t +:+ nl) before), Hfold.
    split; [exact Hi|]. split; [|lia].
    etrans; [exact Hl|]. do 2 f_equal; lia.
Qed.

(** X4. For a span that starts inside the text buffer, [q_start_page] is
    the index of the page whose text contains the offset [q_start]: that
    page is recorded at an offset [off] with
    [off <= q_start < off + len(text) + 1].  Moreover, when
    [q_start <= q_end], [q_start_page <= q_end_page], and [q_end_page] is
    the index of a page of the document. *)
Theorem span_starts_on_its_page (pages : list string) (q_start q_end : nat) :
  let b := Segmenter.read_pages pages in
  q_start < String.length (Segmenter.full_text b) ->
  q_start <= q_end ->
  let sp := (Segmenter.span_pages (Segmenter.page_offsets b) q_start q_end).1 in
  let ep := (Segmenter.span_pages (Segmenter.page_offsets b) q_start q_end).2 in
  (exists t off,
     pages !! sp = Some t
     /\ Segmenter.page_offsets b !! sp = Some (off, sp)
     /\ off <= q_start < off + String.length (t +:+ nl))
  /\ sp <= ep < length pages.
Proof.
  cbn zeta. destruct (read_pages_buffer pages) as (Ht & _ & Ho).
  rewrite Ht, Ho. intros Hlt Hle.
  unfold Segmenter.span_pages. rewrite span_pages_split. cbn [fst snd].
  destruct (pick_offsets_from pages 0 0 0 q_start)
    as (i & t & before & Hi & Hl & Hfold & Hlo & Hhi); [lia|lia|].
  cbn in Hl, Hfold, Hlo, Hhi. rewrite Hfold. split.
  { exists t, (String.length before). split; [done|]. split; [done|lia]. }
  pose proof (page_offsets_sorted pages) as Hs. rewrite Ho in Hs.
  destruct (pick_largest q_end _ 0 Hs) as [(off & Hin & Hq & Hmax)|[Hnone _]].
  - apply offsets_from_ge in Hin as Hb. cbn in Hb. split; [|lia].
    eapply Hmax; [by eapply list_elem_of_lookup_2|lia].
  - exfalso. eapply Hnone; [by eapply list_elem_of_lookup_2|lia].
Qed.

Lemma span_starts_on_its_page_witness :
  let b := Segmenter.read_pages Samples.exam_pages in
  let sp := (Segmenter.span_pages (Segmenter.page_offsets b) 239 324).1 in
  let ep := (Segmenter.span_pages (Segmenter.page_offsets b) 239 324).2 in
  (exists t off,
     Samples.exam_pages !! sp = Some t
     /\ Segmenter.page_offsets b !! sp = Some (off, sp)
     /\ off <= 239 < off + String.length (t +:+ nl))
  /\ sp <= ep < length Samples.exam_pages.
Proof.
  apply (span_starts_on_its_page Samples.exam_pages 239 324).
  - vm_compute. lia.
  - lia.
Defined.

(** ** The line classifier on the layout it is written for *)

Lemma classify_plain_body (st : Parser.lines_state) (ls : list string) :
  Parser.parsing_options st = false ->
  Forall Props.plain ls ->
  fold_left Parser.classify ls st
  = {| Parser.question_text_lines := Parser.question_text_lines st ++ ls;
       Parser.options := Parser.options st;
       Parser.correct_answer_str := Parser.correct_answer_str st;
       Parser.parsing_options := false |}.
Proof.
  intros Hp Hls; revert st Hp.
  induction Hls as [|l ls [Hl1 Hl2] _ IH]; intros st Hp.
  { cbn. rewrite app_nil_r. destruct st; cbn in *. by subst. }
  cbn [fold_left]. rewrite IH.
  - unfold Parser.classify. rewrite Hl1, Hl2, Hp. cbn.
    by rewrite <- app_assoc.
  - unfold Parser.classify. by rewrite Hl1, Hl2, Hp.
Qed.

Lemma extend_last_snoc (os : list string) (o s : string) :
  Parser.extend_last (os ++ [o]) s = os ++ [o +:+ s].
Proof.
  induction os as [|o' os IH]; [done|].
  cbn [app]. destruct (os ++ [o]) as [|x xs] eqn:E.
  { by destruct os. }
  change (o' :: Parser.extend_last (x :: xs) s = o' :: os ++ [o +:+ s]).
  by rewrite IH.
Qed.

(** Continuation lines are glued to the last option, one space each. *)
Lemma classify_continuations (st : Parser.lines_state) (os : list string)
    (o : string) (cs : list string) :
  Parser.parsing_options st = true ->
  Parser.options st = os ++ [o] ->
  Forall Props.plain cs ->
  fold_left Parser.classify cs st
  = {| Parser.question_text_lines := Parser.question_text_lines st;
       Parser.options :=
         os ++ [fold_left (fun acc c => acc +:+ " " +:+ c) cs o];
       Parser.correct_answer_str := Parser.correct_answer_str st;
       Parser.parsing_options := true |}.
Proof.
  intros Hp Ho Hcs; revert st o Hp Ho.
  induction Hcs as [|c cs [Hc1 Hc2] _ IH]; intros st o Hp Ho.
  { cbn. destruct st; cbn in *. by subst. }
  cbn [fold_left].
  assert (Parser.classify st c
          = {| Parser.question_text_lines := Parser.question_text_lines st;
               Parser.options := os ++ [o +:+ " " +:+ c];
               Parser.correct_answer_str := Parser.correct_answer_str st;
               Parser.parsing_options := true |}) as ->.
  { unfold Parser.classify. rewrite Hc1, Hc2, Hp, Ho. cbn [negb].
    destruct (os ++ [o]) as [|x xs] eqn:E; [by destruct os|].
    rewrite <- E, extend_last_snoc. done. }
  by rewrite (IH _ (o +:+ " " +:+ c)).
Qed.

Lemma concat_head_app (sep a b : string) (cs : list string) :
  String.concat sep ((a +:+ b) :: cs) = a +:+ String.concat sep (b :: cs).
Proof.
  destruct cs as [|c cs]; [done|].
  change (((a +:+ b) +:+ sep +:+ String.concat sep (c :: cs))
          = a +:+ b +:+ sep +:+ String.concat sep (c :: cs)).
  by rewrite append_assoc.
Qed.

Lemma join_fold (sep o : string) (cs : list string) :
  fold_left (fun acc c => acc +:+ sep +:+ c) cs o = Text.join sep (o :: cs).
Proof.
  unfold Text.join. revert o; induction cs as [|c cs IH]; intros o; [done|].
  cbn [fold_left]. rewrite IH.
  change (String.concat sep (o :: c :: cs))
    with (o +:+ sep +:+ String.concat sep (c :: cs)).
  by rewrite !concat_head_app.
Qed.

Lemma classify_groups (gs : list (string * list string))
    (st : Parser.lines_state) :
  Forall Props.option_group gs ->
  gs <> [] ->
  fold_left Parser.classify (List.concat (List.map Props.group_lines gs)) st
  = {| Parser.question_text_lines := Parser.question_text_lines st;
       Parser.options :=
         Parser.options st
         ++ List.map (fun g => Text.join " " (Props.group_lines g)) gs;
       Parser.correct_answer_str := Parser.correct_answer_str st;
       Parser.parsing_options := true |}.
Proof.
  intros Hgs; revert st.
  induction Hgs as [|[o cs] gs [Ho Hcs] Hrest IH]; intros st Hne; [done|].
  cbn [List.map List.concat fst snd] in *.
  change (Props.group_lines (o, cs)) with (o :: cs).
  rewrite fold_left_app. cbn [app fold_left].
  assert (Parser.classify st o
          = {| Parser.question_text_lines := Parser.question_text_lines st;
               Parser.options := Parser.options st ++ [o];
               Parser.correct_answer_str := Parser.correct_answer_str st;
               Parser.parsing_options := true |}) as ->.
  { unfold Parser.classify. by rewrite Ho. }
  rewrite (classify_continuations _ (Parser.options st) o cs) by done.
  cbn [Parser.question_text_lines Parser.correct_answer_str].
  rewrite join_fold. destruct gs as [|g gs].
  - done.
  - rewrite IH by done.
    cbn [Parser.question_text_lines Parser.options
         Parser.correct_answer_str]. by rewrite <- app_assoc.
Qed.

(** X5. On a span laid out as it is meant to be (plain body lines, then
    options, each an option line followed by plain continuation lines,
    then one answer line, then plain trailing lines) the line classifier
    ends with: the body lines followed by the trailing lines as the body,
    one entry per option with its continuation lines joined by single
    spaces, and the trimmed text after the marker as the answer.  So
    trailing lines such as a section or an explanation become part of the
    question body. *)
Theorem classify_question_layout (body : list string)
    (groups : list (string * list string)) (ans after : string)
    (trailer : list string) :
  Forall Props.plain body ->
  Forall Props.option_group groups ->
  Parser.is_option_line ans = false ->
  Text.split_second Parser.answer_marker ans = Some after ->
  Forall Props.plain trailer ->
  Parser.classify_lines
    (body ++ List.concat (List.map Props.group_lines groups)
     ++ [ans] ++ trailer)
  = {| Parser.question_text_lines := body ++ trailer;
       Parser.options :=
         List.map (fun g => Text.join " " (Props.group_lines g)) groups;
       Parser.correct_answer_str := Text.strip after;
       Parser.parsing_options := false |}.
Proof.
  intros Hbody Hgroups Hans1 Hans2 Htrail.
  unfold Parser.classify_lines. rewrite !fold_left_app.
  rewrite (classify_plain_body _ body) by done.
  cbn [Parser.lines_init Parser.question_text_lines Parser.options
       Parser.correct_answer_str app].
  set (st1 := {| Parser.question_text_lines := body; Parser.options := [];
                 Parser.correct_answer_str := EmptyString;
                 Parser.parsing_options := false |}).
  assert (exists p,
    fold_left Parser.classify
      (List.concat (List.map Props.group_lines groups)) st1
    = {| Parser.question_text_lines := body;
         Parser.options :=
           List.map (fun g => Text.join " " (Props.group_lines g)) groups;
         Parser.correct_answer_str := EmptyString;
         Parser.parsing_options := p |}) as [p ->].
  { destruct groups as [|g gs]; [by exists false|].
    exists true. by rewrite classify_groups. }
  cbn [fold_left].
  assert (forall st, Parser.classify st ans
          = {| Parser.question_text_lines := Parser.question_text_lines st;
               Parser.options := Parser.options st;
               Parser.correct_answer_str := Text.strip after;
               Parser.parsing_options := false |}) as ->.
  { intros st. unfold Parser.classify. by rewrite Hans1, Hans2. }
  by rewrite classify_plain_body.
Qed.

Lemma classify_question_layout_witness :
  Parser.classify_lines
    (["Pick two."]
     ++ List.concat (List.map Props.group_lines
          [("A. one", []); ("B. two", ["or so"]); ("C. three", []);
           ("D. four", [])])
     ++ ["Correct Answer: B, D"] ++ ["Section: none"])
  = {| Parser.question_text_lines := ["Pick two."] ++ ["Section: none"];
       Parser.options :=
         List.map (fun g => Text.join " " (Props.group_lines g))
           [("A. one", []); ("B. two", ["or so"]); ("C. three", []);
            ("D. four", [])];
       Parser.correct_answer_str := Text.strip " B, D";
       Parser.parsing_options := false |}.
Proof.
  apply classify_question_layout.
  - repeat constructor.
  - repeat constructor.
  - reflexivity.
  - reflexivity.
  - repeat constructor.
Defined.

(** ** The images a question receives *)

Lemma visit_seen_is_assigned (imgs : list occurrence)
    (st st' : Exhibit.walk_state) (idx : nat) :
  Exhibit.visit imgs st idx = Some st' ->
  Props.seen_is_assigned st -> Props.seen_is_assigned st'.
Proof.
  intros Hv [Hnd Hseen].
  apply visit_inv in Hv
    as [[_ ->]|(_ & _ & img & _ & [(Hnew & Ha & Hs)|(_ & Ha & Hs)])].
  - done.
  - split.
    + rewrite Ha. apply NoDup_app. split; [done|]. split.
      * intros b Hb ->%list_elem_of_singleton. by apply Hnew, Hseen.
      * apply NoDup_singleton.
    + intros b. rewrite Hs, Ha, elem_of_union, elem_of_app, Hseen.
      by rewrite elem_of_singleton, list_elem_of_singleton.
  - split; [by rewrite Ha|]. intros b. by rewrite Hs, Ha.
Qed.

Lemma walk_seen_is_assigned (imgs : list occurrence) (idxs : list nat)
    (st st' : Exhibit.walk_state) :
  Exhibit.walk imgs st idxs = Some st' ->
  Props.seen_is_assigned st -> Props.seen_is_assigned st'.
Proof.
  revert st; induction idxs as [|idx idxs IH]; intros st.
  { by intros [= <-]. }
  intros (st1 & Hv & Hw)%walk_cons_inv Hinv.
  eapply IH; [exact Hw|]. by eapply visit_seen_is_assigned.
Qed.

Lemma walk_assigned_from (imgs : list occurrence) (idxs : list nat)
    (st st' : Exhibit.walk_state) (b : string) :
  Exhibit.walk imgs st idxs = Some st' ->
  b ∈ Exhibit.assigned_images st' ->
  b ∈ Exhibit.assigned_images st
  \/ exists i img, i ∈ idxs /\ imgs !! i = Some img /\ b64 img = b.
Proof.
  revert st; induction idxs as [|idx idxs IH]; intros st.
  { intros [= <-] Hb. by left. }
  intros (st1 & Hv & Hw)%walk_cons_inv Hb.
  destruct (IH _ Hw Hb) as [Hb1|(i & img & Hi & Hl & <-)].
  - apply visit_inv in Hv
      as [[_ ->]|(_ & _ & img & Hl & [(_ & Ha & _)|(_ & Ha & _)])].
    + by left.
    + rewrite Ha in Hb1. apply elem_of_app in Hb1 as [?|Hb1]; [by left|].
      apply list_elem_of_singleton in Hb1 as ->.
      right. exists idx, img. split; [by left|done].
    + rewrite Ha in Hb1. by left.
  - right. exists i, img. split; [by right|done].
Qed.

Lemma walk_last_cases (imgs : list occurrence) (idxs : list nat)
    (st st' : Exhibit.walk_state) :
  Exhibit.walk imgs st idxs = Some st' ->
  Exhibit.last_image_idx_used st' = Exhibit.last_image_idx_used st
  \/ exists i, i ∈ idxs /\ Exhibit.last_image_idx_used st' = Z.of_nat i.
Proof.
  revert st; induction idxs as [|idx idxs IH]; intros st.
  { intros [= <-]. by left. }
  intros (st1 & Hv & Hw)%walk_cons_inv.
  destruct (IH _ Hw) as [Heq|(i & Hi & Heq)].
  - apply visit_inv in Hv as [[_ ->]|(_ & Hlast & _)]; [by left|].
    right. exists idx. split; [by left|congruence].
  - right. exists i. split; [by right|done].
Qed.

Lemma in_span_nonempty (imgs : list occurrence) (sp ep : nat) :
  Exhibit.images_in_span_indices imgs sp ep <> [] <->
  exists b, Props.image_in_span imgs sp ep b.
Proof.
  split.
  - destruct (Exhibit.images_in_span_indices imgs sp ep) as [|i l] eqn:E;
      [done|].
    intros _. assert (i ∈ Exhibit.images_in_span_indices imgs sp ep) as Hi
      by (rewrite E; by left).
    apply elem_of_in_span in Hi as (img & Hl & Hp).
    by exists (b64 img), i, img.
  - intros (b & i & img & Hl & Hp & _) E.
    assert (i ∈ Exhibit.images_in_span_indices imgs sp ep) as Hi
      by (apply elem_of_in_span; by exists img).
    rewrite E in Hi. by apply elem_of_nil in Hi.
Qed.

Lemma assign_exhibits_images (imgs : list occurrence) (last : Z) (sp ep : nat)
    (q_text : string) :
  exists bs l,
    Exhibit.assign_exhibits imgs last sp ep q_text
    = Some (q_text +:+ Spec.refs bs, l)
    /\ NoDup bs
    /\ Forall (Props.image_in_span imgs sp ep) bs
    /\ (bs <> [] <->
        Exhibit.mentions_exhibit q_text = true
        /\ Exhibit.images_in_span_indices imgs sp ep <> [])
    /\ (last <= l)%Z
    /\ (l = last \/ exists i, i < length imgs /\ l = Z.of_nat i).
Proof.
  destruct (Exhibit.mentions_exhibit q_text) eqn:Hm.
  2:{ exists [], last. rewrite assign_exhibits_skip by done.
      cbn [Spec.refs]. rewrite append_empty_r.
      split; [done|]. split; [constructor|]. split; [constructor|].
      split; [|split; [lia|by left]]. split; [done|by intros [? _]]. }
  pose proof (in_span_valid imgs sp ep) as Hv.
  set (idxs := Exhibit.images_in_span_indices imgs sp ep) in *.
  destruct (walk_sound imgs idxs (Exhibit.walk_init last) Hv)
    as (st & Hw & _).
  destruct (fallback_sound imgs idxs st Hv) as (st' & Hf & Hfs).
  exists (Exhibit.assigned_images st'), (Exhibit.last_image_idx_used st').
  assert (Props.seen_is_assigned st) as [Hnd _].
  { eapply walk_seen_is_assigned; [exact Hw|]. split; [constructor|].
    intros b. cbn. set_solver. }
  split.
  { unfold Exhibit.assign_exhibits. rewrite Hm. fold idxs.
    rewrite Hw. cbn. rewrite Hf. cbn. by rewrite append_refs_eq. }
  rewrite (fallback_last _ _ _ _ Hf).
  split; [|split; [|split; [|split]]].
  - destruct Hfs as [i img st' _ _ _ Ha _ _|_]; [|done].
    rewrite Ha. apply NoDup_singleton.
  - apply Forall_forall. intros b Hb.
    destruct Hfs as [i img st' _ Hlast Hl Ha _ _|_].
    + rewrite Ha in Hb. apply list_elem_of_singleton in Hb as ->.
      apply last_Some_elem_of, elem_of_in_span in Hlast
        as (img' & Hl' & Hp).
      exists i, img. split; [done|]. split; [|done]. congruence.
    + destruct (walk_assigned_from _ _ _ _ _ Hw Hb)
        as [Hb0|(i & img & Hi & Hl & <-)].
      * by apply elem_of_nil in Hb0.
      * apply elem_of_in_span in Hi as (img' & Hl' & Hp).
        exists i, img. split; [done|]. split; [|done]. congruence.
  - split.
    + intros Hne. split; [done|]. intros E. fold idxs in E.
      rewrite E in Hw, Hfs. cbn in Hw. injection Hw as <-.
      destruct Hfs as [i img st' _ Hlast _ _ _ _|_]; [done|].
      by apply Hne.
    + intros [_ Hne].
      destruct Hfs as [i img st' _ _ _ Ha _ _|[?|?]]; [|done..].
      by rewrite Ha.
  - apply (walk_mono _ _ _ _ Hw).
  - destruct (walk_last_cases _ _ _ _ Hw) as [Heq|(i & Hi & Heq)].
    + by left.
    + right. exists i. split; [|done]. rewrite Forall_forall in Hv.
      destruct (Hv _ Hi) as [img Hl]. by eapply lookup_lt_Some.
Qed.

(** X6. The images a question receives: its body is extended by the
    references of a list of data URIs that has no duplicate and holds only
    data of occurrences drawn on the pages of the question's span; the list
    is non-empty exactly when the body mentions an exhibit and some
    occurrence is drawn on those pages; and the high-water mark does not
    decrease and stays the old mark or the index of an occurrence. *)
Theorem exhibit_images_sound (imgs : list occurrence) (last : Z)
    (sp ep : nat) (q_text : string) :
  exists bs l,
    Exhibit.assign_exhibits imgs last sp ep q_text
    = Some (q_text +:+ Spec.refs bs, l)
    /\ NoDup bs
    /\ Forall (Props.image_in_span imgs sp ep) bs
    /\ (bs <> [] <->
        Spec.mentions_exhibit q_text
        /\ exists b, Props.image_in_span imgs sp ep b)
    /\ (last <= l)%Z
    /\ (l = last \/ exists i, i < length imgs /\ l = Z.of_nat i).
Proof.
  destruct (assign_exhibits_images imgs last sp ep q_text)
    as (bs & l & Ha & Hnd & Hin & Hne & Hle & Hl).
  exists bs, l. rewrite <- mentions_exhibit_iff, <- in_span_nonempty.
  done.
Qed.

(** ** The question list *)

Lemma loop_body_shape (text : string) (offsets : list (nat * nat))
    (imgs : list occurrence) (ls ls' : loop_state) (span : nat * nat) :
  loop_body text offsets imgs ls span = Some ls' ->
  match read_span text span with
  | None => questions ls' = questions ls
  | Some st =>
      exists q, questions ls' = questions ls ++ [q]
                /\ Props.question_of imgs st q
  end.
Proof.
  destruct (read_span text span) as [st|] eqn:Hread.
  - destruct (loop_body_kept text offsets imgs ls span st Hread)
      as (q_text & last & Ha & ->).
    intros [= <-]. cbn [questions]. eexists. split; [reflexivity|].
    destruct (assign_exhibits_images imgs (last_image_idx_used ls)
                (Segmenter.span_pages offsets span.1 span.2).1
                (Segmenter.span_pages offsets span.1 span.2).2
                (Text.join " " (Parser.question_text_lines st)))
      as (bs & l & Ha' & Hnd & Hin & _).
    rewrite Ha in Ha'. injection Ha' as -> _.
    exists bs. split; [done|]. split; [done|].
    eapply Forall_impl; [exact Hin|].
    intros b (i & img & Hl & _ & Hb). exists img.
    split; [by eapply list_elem_of_lookup_2|done].
  - rewrite loop_body_dropped by done. by intros [= <-].
Qed.

Lemma run_loop_shape (text : string) (offsets : list (nat * nat))
    (imgs : list occurrence) (spans : list (nat * nat))
    (ls ls' : loop_state) :
  run_loop text offsets imgs ls spans = Some ls' ->
  exists new,
    questions ls' = questions ls ++ new
    /\ Forall2 (Props.question_of imgs) (omap (read_span text) spans) new.
Proof.
  revert ls; induction spans as [|span spans IH]; intros ls.
  { intros [= <-]. exists []. by rewrite app_nil_r. }
  cbn [run_loop].
  destruct (loop_body text offsets imgs ls span) as [ls1|] eqn:Hb; [|done].
  cbn [mbind option_bind]. intros (new & Hq & Hall)%IH.
  apply loop_body_shape in Hb.
  rewrite omap_cons_eq. destruct (read_span text span) as [st|].
  - destruct Hb as (q & Hq1 & Hof). exists (q :: new).
    split; [by rewrite Hq, Hq1, <- app_assoc|by constructor].
  - exists new. split; [by rewrite Hq, Hb|done].
Qed.

Lemma build_question_fields (st : Parser.lines_state) (t t0 : string) :
  qtext (Parser.build_question st t) = t
  /\ qtype (Parser.build_question st t) = qtype (Parser.build_question st t0)
  /\ qoptions (Parser.build_question st t)
     = qoptions (Parser.build_question st t0)
  /\ qanswer (Parser.build_question st t)
     = qanswer (Parser.build_question st t0).
Proof.
  unfold Parser.build_question. by destruct (Parser.is_tf _).
Qed.

Lemma question_of_nil (st : Parser.lines_state) (q0 : question) :
  Props.question_of [] st q0 ->
  q0 = Parser.build_question st (Props.base_text st).
Proof.
  intros (bs & -> & _ & Hbs). destruct bs as [|b bs].
  - cbn. by rewrite append_empty_r.
  - inversion Hbs as [|? ? (img & Himg & _) _]. by apply elem_of_nil in Himg.
Qed.

Lemma questions_same_but_images (imgs : list occurrence)
    (sts : list Parser.lines_state) (qs qs0 : list question) :
  Forall2 (Props.question_of imgs) sts qs ->
  Forall2 (Props.question_of []) sts qs0 ->
  Forall2 (Props.same_but_images imgs) qs qs0.
Proof.
  intros H; revert qs0.
  induction H as [|st q sts qs (bs & -> & Hnd & Hbs) _ IH]; intros qs0 H0.
  { inversion H0. constructor. }
  inversion H0 as [|? q0 ? qs0' Hq0 Hrest]; subst.
  constructor; [|by apply IH].
  apply question_of_nil in Hq0 as ->.
  destruct (build_question_fields st
              (Props.base_text st +:+ Spec.refs bs) (Props.base_text st))
    as (Ht & Hty & Hop & Han).
  destruct (build_question_fields st (Props.base_text st) EmptyString)
    as (Ht0 & _).
  split; [done|]. split; [done|]. split; [done|].
  exists bs. by rewrite Ht, Ht0.
Qed.

(** X7. The images change nothing but the bodies: parsing a document with
    its images and without any image gives the same title and two lists of
    questions of the same length whose questions have, pairwise, the same
    type, options and answer; each body with images is the body without
    images followed by the references of distinct data URIs taken from the
    image list. *)
Theorem images_only_extend_bodies (pages : list string)
    (imgs : list occurrence) :
  exists title qs qs0,
    parse_vce_pdf pages imgs = Some (title, qs)
    /\ parse_vce_pdf pages [] = Some (title, qs0)
    /\ Forall2 (Props.same_but_images imgs) qs qs0.
Proof.
  unfold parse_vce_pdf.
  set (text := Segmenter.full_text (Segmenter.read_pages pages)).
  set (offs := Segmenter.page_offsets (Segmenter.read_pages pages)).
  set (spans := Segmenter.question_spans (Segmenter.markers text)
                  (String.length text)).
  destruct (run_loop_total text offs imgs spans loop_init) as [ls Hls].
  destruct (run_loop_total text offs [] spans loop_init) as [ls0 Hls0].
  rewrite Hls, Hls0. cbn.
  destruct (run_loop_shape _ _ _ _ _ _ Hls) as (new & Hq & Hall).
  destruct (run_loop_shape _ _ _ _ _ _ Hls0) as (new0 & Hq0 & Hall0).
  cbn in Hq, Hq0. subst new new0.
  eexists _, _, _. split; [reflexivity|]. split; [reflexivity|].
  by eapply questions_same_but_images.
Qed.

(** ** What the formatter is handed *)

Lemma span_lines_nonblank (part : string) :
  Forall (fun l => l <> EmptyString) (Parser.span_lines part).
Proof.
  unfold Parser.span_lines. apply List.Forall_map, Forall_forall.
  intros l [_ Hl]%list_elem_of_In%List.filter_In.
  by destruct (Text.strip l).
Qed.

Lemma clean_first_nonblank (lines : list string) :
  Forall (fun l => l <> EmptyString) lines ->
  Forall (fun l => l <> EmptyString) (Parser.clean_first lines).
Proof.
  intros H. destruct lines as [|l ls]; [done|].
  inversion H; subst. cbn.
  destruct (Text.strip (Parser.strip_marker l)) eqn:E; cbn; [done|].
  by constructor.
Qed.

Lemma classify_body_nonblank (st : Parser.lines_state) (line : string) :
  line <> EmptyString ->
  Forall (fun l => l <> EmptyString) (Parser.question_text_lines st) ->
  Forall (fun l => l <> EmptyString)
    (Parser.question_text_lines (Parser.classify st line)).
Proof.
  intros Hl Hst. unfold Parser.classify.
  destruct (Parser.is_option_line line); [done|].
  destruct (Text.split_second _ _); [done|].
  destruct (Parser.parsing_options st); cbn.
  - destruct (Parser.options st); cbn; [|done].
    apply Forall_app. split; [done|]. by constructor.
  - apply Forall_app. split; [done|]. by constructor.
Qed.

Lemma fold_classify_body_nonblank (lines : list string)
    (st : Parser.lines_state) :
  Forall (fun l => l <> EmptyString) lines ->
  Forall (fun l => l <> EmptyString) (Parser.question_text_lines st) ->
  Forall (fun l => l <> EmptyString)
    (Parser.question_text_lines (fold_left Parser.classify lines st)).
Proof.
  intros Hn; revert st.
  induction Hn as [|x xs Hx _ IH]; intros st Hst; [done|].
  cbn [fold_left]. apply IH. by apply classify_body_nonblank.
Qed.

Lemma span_state_body_nonblank (text : string) (span : nat * nat)
    (st : Parser.lines_state) :
  span_state text span = Some st ->
  Forall (fun l => l <> EmptyString) (Parser.question_text_lines st).
Proof.
  unfold span_state. destruct span as [a b].
  pose proof (span_lines_nonblank (Text.slice a b text)) as Hn.
  destruct (Parser.span_lines _) as [|l ls]; [done|]. intros [= <-].
  apply clean_first_nonblank in Hn.
  apply fold_classify_body_nonblank; [done|constructor].
Qed.

Lemma join_nonempty (sep l : string) (ls : list string) :
  l <> EmptyString -> Text.join sep (l :: ls) <> EmptyString.
Proof.
  intros Hl. destruct l as [|c l]; [done|]. unfold Text.join.
  by destruct ls.
Qed.

Lemma base_text_nonempty (text : string) (span : nat * nat)
    (st : Parser.lines_state) :
  read_span text span = Some st -> Props.base_text st <> EmptyString.
Proof.
  intros [Hst Hu]%read_span_inv.
  pose proof (span_state_body_nonblank _ _ _ Hst) as Hb.
  unfold Props.base_text.
  destruct (Parser.question_text_lines st) as [|l ls] eqn:E.
  - unfold Parser.unusable in Hu. by rewrite E in Hu.
  - inversion Hb; subst. by apply join_nonempty.
Qed.

Lemma lower_AZ_az (c : ascii) :
  Text.is_AZ c = true -> Props.is_az (Text.lower_char c) = true.
Proof.
  destruct c as [b0 b1 b2 b3 b4 b5 b6 b7].
  destruct b0, b1, b2, b3, b4, b5, b6, b7; by vm_compute.
Qed.

Lemma answers_single_az (s : string) :
  Forall Props.single_az (Parser.answers_of s).
Proof.
  induction s as [|c s IH]; [constructor|]. cbn [Parser.answers_of].
  destruct (Text.is_AZ c) eqn:Hc; [|done].
  constructor; [|done]. exists (Text.lower_char c).
  split; [by apply lower_AZ_az|done].
Qed.

Lemma reformatted_shape (o : string) :
  Spec.option_ok o -> Props.option_shape (Spec.reformatted o).
Proof.
  intros [Hline _]. destruct o as [|c [|d rest]]; try done.
  cbn in Hline. apply andb_true_iff in Hline as [Hc _].
  exists (Text.lower_char c), (Spec.option_body (String c (String d rest))).
  split; [by apply lower_AZ_az|done].
Qed.

Lemma build_question_well_formed (st : Parser.lines_state) (t : string) :
  Forall Spec.option_ok (Parser.options st) ->
  t <> EmptyString ->
  Props.well_formed (Parser.build_question st t).
Proof.
  intros Hok Ht. unfold Parser.build_question.
  pose proof (answers_single_az (Parser.correct_answer_str st)) as Hans.
  destruct (Parser.is_tf (Parser.options st)) eqn:Htf; cbn.
  - split; [done|]. split; [constructor|]. left.
    split; [done|]. split; [done|].
    destruct (Parser.answers_of _) as [|a ?]; [by left|].
    destruct (String.eqb a "a"); [by left|by right].
  - split; [done|]. split.
    { rewrite formatted_options_map by done.
      apply List.Forall_map. eapply Forall_impl; [exact Hok|].
      apply reformatted_shape. }
    right.
    destruct (Nat.eqb_spec
      (length (Parser.answers_of (Parser.correct_answer_str st))) 1)
      as [Hlen|Hlen].
    + left. split; [done|].
      destruct (Parser.answers_of _) as [|a [|? ?]]; try done.
      by inversion Hans.
    + right. split; [done|]. by eexists.
Qed.

Lemma append_nonempty (a b : string) :
  a <> EmptyString -> a +:+ b <> EmptyString.
Proof. by destruct a. Qed.

Lemma question_of_well_formed (text : string) (imgs : list occurrence)
    (spans : list (nat * nat)) (qs : list question) :
  Forall2 (Props.question_of imgs) (omap (read_span text) spans) qs ->
  Forall Props.well_formed qs.
Proof.
  revert qs; induction spans as [|span spans IH]; intros qs.
  { cbn. by intros ->%Forall2_nil_inv_l. }
  rewrite omap_cons_eq.
  destruct (read_span text span) as [st|] eqn:Hread; [|apply IH].
  intros H. inversion H as [|? q ? qs' (bs & -> & _) Hrest]; subst.
  constructor; [|by apply IH].
  apply build_question_well_formed; [by eapply read_span_ok|].
  by eapply append_nonempty, base_text_nonempty.
Qed.

Lemma length_omap_le {A B} (f : A -> option B) (l : list A) :
  length (omap f l) <= length l.
Proof.
  induction l as [|x l IH]; [done|].
  rewrite omap_cons_eq. destruct (f x); cbn; lia.
Qed.

Lemma length_question_spans (ms : list nat) (len : nat) :
  length (Segmenter.question_spans ms len) = length ms.
Proof. induction ms as [|m ms IH]; [done|]. cbn. by rewrite IH. Qed.

(** X8. Every question of the parsed list is fit for the formatter: its
    text is not empty; its options have the form ["<a-z>) ..."]; it is
    tagged [@tf] with no option and the answer "true" or "false", or
    [@mc] with one letter of [a-z] as the answer, or [@sata] with a
    number of letters of [a-z] other than one, joined by [", "].  There is
    one question for each span that is not dropped, hence at most one for
    each marker. *)
Theorem parsed_questions_well_formed (pages : list string)
    (imgs : list occurrence) :
  let text := Segmenter.full_text (Segmenter.read_pages pages) in
  let spans := Segmenter.question_spans (Segmenter.markers text)
                 (String.length text) in
  exists title qs,
    parse_vce_pdf pages imgs = Some (title, qs)
    /\ Forall Props.well_formed qs
    /\ length qs = length (omap (read_span text) spans)
    /\ length qs <= length (Segmenter.markers text).
Proof.
  cbn zeta. unfold parse_vce_pdf.
  set (text := Segmenter.full_text (Segmenter.read_pages pages)).
  set (offs := Segmenter.page_offsets (Segmenter.read_pages pages)).
  set (spans := Segmenter.question_spans (Segmenter.markers text)
                  (String.length text)).
  destruct (run_loop_total text offs imgs spans loop_init) as [ls Hls].
  rewrite Hls. cbn.
  destruct (run_loop_shape _ _ _ _ _ _ Hls) as (new & Hq & Hall).
  cbn in Hq. subst new.
  eexists _, _. split; [reflexivity|].
  split; [by eapply question_of_well_formed|].
  apply Forall2_length in Hall as Hlen. split; [done|].
  rewrite <- Hlen, <- (length_question_spans (Segmenter.markers text)
                         (String.length text)).
  apply length_omap_le.
Qed.

(** ** The image extractor *)

Lemma get_image_nonempty (data : list byte) (name b : string) :
  ImageData.get_image_base64_from_data data name = Some b ->
  Text.nonempty b = true.
Proof.
  unfold ImageData.get_image_base64_from_data. by intros [= <-].
Qed.

Lemma run_operations_step (i : nat) (images : gmap string Pdf.xobject)
    (op : Pdf.operation) (rest : list Pdf.operation)
    (acc : list occurrence) :
  Pdf.run_operations i images (op :: rest) acc
  = if Props.raises images op then (acc, true)
    else Pdf.run_operations i images rest
           (acc ++ option_list (Props.occurrence_of i images op)).
Proof.
  cbn [Pdf.run_operations].
  unfold Props.raises, Props.occurrence_of, Props.drawn, Props.is_do.
  destruct (Pdf.bytes_eqb _ _);
    cbn -[ImageData.get_image_base64_from_data]; [|by rewrite app_nil_r].
  destruct (Pdf.operands op) as [|[name| |] ?];
    cbn -[ImageData.get_image_base64_from_data];
    try done; try (by rewrite app_nil_r).
  destruct (images !! name) as [obj|];
    cbn -[ImageData.get_image_base64_from_data]; [|by rewrite app_nil_r].
  destruct (Pdf.stream_data obj) as [data|];
    cbn -[ImageData.get_image_base64_from_data]; [|done].
  destruct (ImageData.get_image_base64_from_data data name) as [b|] eqn:Hb;
    cbn; [|by rewrite app_nil_r].
  by rewrite (get_image_nonempty _ _ _ Hb).
Qed.

(** Without a raising operation, every painted image is recorded. *)
Lemma run_operations_clean (i : nat) (images : gmap string Pdf.xobject)
    (ops : list Pdf.operation) (acc : list occurrence) :
  Forall (fun op => Props.raises images op = false) ops ->
  Pdf.run_operations i images ops acc
  = (acc ++ omap (Props.occurrence_of i images) ops, false).
Proof.
  intros H; revert acc; induction H as [|op ops Hop _ IH]; intros acc.
  { cbn. by rewrite app_nil_r. }
  rewrite run_operations_step, Hop, IH, omap_cons_eq, <- app_assoc.
  by destruct (Props.occurrence_of i images op).
Qed.

(** At a raising operation the loop stops with what it has. *)
Lemma run_operations_raise (i : nat) (images : gmap string Pdf.xobject)
    (before after : list Pdf.operation) (bad : Pdf.operation)
    (acc : list occurrence) :
  Forall (fun op => Props.raises images op = false) before ->
  Props.raises images bad = true ->
  Pdf.run_operations i images (before ++ bad :: after) acc
  = (acc ++ omap (Props.occurrence_of i images) before, true).
Proof.
  intros H Hbad; revert acc; induction H as [|op ops Hop _ IH]; intros acc.
  { cbn [app omap]. rewrite run_operations_step, Hbad.
    by rewrite app_nil_r. }
  cbn [app]. rewrite run_operations_step, Hop, IH, omap_cons_eq, <- app_assoc.
  by destruct (Props.occurrence_of i images op).
Qed.

(** Every list of operations is of one of the two kinds. *)
Lemma operations_split (images : gmap string Pdf.xobject)
    (ops : list Pdf.operation) :
  Forall (fun op => Props.raises images op = false) ops
  \/ exists before bad after,
       ops = before ++ bad :: after
       /\ Forall (fun op => Props.raises images op = false) before
       /\ Props.raises images bad = true.
Proof.
  induction ops as [|op ops IH]; [by left|].
  destruct (Props.raises images op) eqn:Hop.
  - right. exists [], op, ops. by repeat split.
  - destruct IH as [H|(before & bad & after & -> & H & Hbad)].
    + left. by constructor.
    + right. exists (op :: before), bad, after.
      split; [done|]. split; [by constructor|done].
Qed.

(** A page adds to the list an initial part of its painted images, the
    same whatever its index and whatever was found before. *)
Lemma page_occurrences_shape (images : gmap string Pdf.xobject)
    (p : Pdf.pdf_page) :
  exists ops raised,
    (forall i acc,
       Pdf.page_occurrences i images p acc
       = (acc ++ omap (Props.occurrence_of i images) ops, raised))
    /\ (forall op, op ∈ ops ->
          exists all, Pdf.contents p = Pdf.Operations all /\ op ∈ all).
Proof.
  unfold Pdf.page_occurrences. destruct (Pdf.contents p) as [| |all].
  - exists [], false. split; [|by intros ? ?%elem_of_nil].
    intros i acc. cbn. by rewrite app_nil_r.
  - exists [], true. split; [|by intros ? ?%elem_of_nil].
    intros i acc. cbn. by rewrite app_nil_r.
  - destruct (operations_split images all)
      as [H|(before & bad & after & -> & H & Hbad)].
    + exists all, false. split.
      * intros i acc. by rewrite run_operations_clean.
      * intros op Hop. by exists all.
    + exists before, true. split.
      * intros i acc. by rewrite run_operations_raise.
      * intros op Hop. eexists. split; [done|]. apply elem_of_app. by left.
Qed.

Lemma occurrence_of_shift (n i : nat) (images : gmap string Pdf.xobject)
    (ops : list Pdf.operation) :
  omap (Props.occurrence_of (n + i) images) ops
  = List.map (Props.shift_page n) (omap (Props.occurrence_of i images) ops).
Proof.
  induction ops as [|op ops IH]; [done|].
  rewrite !omap_cons_eq, IH. unfold Props.occurrence_of.
  destruct (Props.drawn images op) as [[name data]|]; [|done].
  cbn -[ImageData.get_image_base64_from_data].
  by destruct (ImageData.get_image_base64_from_data data name).
Qed.

Lemma add_page_images_eq (p : Pdf.pdf_page)
    (images : gmap string Pdf.xobject) (ops : list Pdf.operation)
    (raised : bool) (i : nat) (acc : list occurrence) (warned : list nat) :
  Pdf.image_objects p = Some images ->
  (forall i acc,
     Pdf.page_occurrences i images p acc
     = (acc ++ omap (Props.occurrence_of i images) ops, raised)) ->
  Pdf.add_page_images (acc, warned) (i, p)
  = Some (acc ++ omap (Props.occurrence_of i images) ops,
          warned ++ if raised then [i + 1] else []).
Proof.
  intros Hi Hp. unfold Pdf.add_page_images. rewrite Hi.
  cbn [mbind option_bind]. rewrite Hp.
  destruct raised; [done|by rewrite app_nil_r].
Qed.

(** When lines 33 to 38 raise on a page, the call ends there. *)
Lemma add_page_images_none (p : Pdf.pdf_page)
    (st : list occurrence * list nat) (i : nat) :
  Pdf.image_objects p = None -> Pdf.add_page_images st (i, p) = None.
Proof.
  intros Hi. unfold Pdf.add_page_images. destruct st. by rewrite Hi.
Qed.

Lemma extract_pages_shift (pages : list Pdf.pdf_page) (n : nat)
    (acc : list occurrence) (warned : list nat) :
  Pdf.extract_pages (enumerate_from n pages) (acc, warned)
  = r ← Pdf.extract_pages (enumerate_from 0 pages) ([], []);
    Some (acc ++ List.map (Props.shift_page n) r.1,
          warned ++ List.map (Nat.add n) r.2).
Proof.
  revert n acc warned; induction pages as [|p pages IH]; intros n acc warned.
  { cbn. by rewrite !app_nil_r. }
  cbn [enumerate_from Pdf.extract_pages].
  destruct (Pdf.image_objects p) as [images|] eqn:Hi.
  2:{ by rewrite !add_page_images_none. }
  destruct (page_occurrences_shape images p) as (ops & raised & Hp & _).
  rewrite !(add_page_images_eq p images ops raised) by done.
  cbn [mbind option_bind]. rewrite (IH (S n)), (IH 1).
  destruct (Pdf.extract_pages (enumerate_from 0 pages) ([], []))
    as [[o w]|]; cbn [mbind option_bind fst snd app]; [|done].
  assert (forall l, List.map (Props.shift_page n)
                      (List.map (Props.shift_page 1) l)
                    = List.map (Props.shift_page (S n)) l) as Hs.
  { intros l. rewrite List.map_map. apply List.map_ext.
    intros [pg b]. unfold Props.shift_page. cbn. f_equal. lia. }
  assert (forall l, List.map (Nat.add n) (List.map (Nat.add 1) l)
                    = List.map (Nat.add (S n)) l) as Ha.
  { intros l. rewrite List.map_map. apply List.map_ext. intros k. lia. }
  rewrite !List.map_app, Hs, Ha, <- !app_assoc.
  replace n with (n + 0) at 1 by lia. rewrite occurrence_of_shift.
  destruct raised; reflexivity.
Qed.

Lemma enumerate_from_app {A : Type} (l1 l2 : list A) (n : nat) :
  enumerate_from n (l1 ++ l2)
  = enumerate_from n l1 ++ enumerate_from (n + length l1) l2.
Proof.
  revert n; induction l1 as [|x l1 IH]; intros n; cbn.
  - by rewrite Nat.add_0_r.
  - rewrite IH. do 3 f_equal. lia.
Qed.

Lemma extract_pages_app (l1 l2 : list (nat * Pdf.pdf_page))
    (st : list occurrence * list nat) :
  Pdf.extract_pages (l1 ++ l2) st
  = st' ← Pdf.extract_pages l1 st; Pdf.extract_pages l2 st'.
Proof.
  revert st; induction l1 as [|ip l1 IH]; intros st; [done|].
  cbn [app Pdf.extract_pages].
  destruct (Pdf.add_page_images st ip); [apply IH|done].
Qed.

(** The call raises exactly when lines 33 to 38 raise on a page. *)
Lemma extract_pages_some (pages : list Pdf.pdf_page) (n : nat)
    (st : list occurrence * list nat) :
  is_Some (Pdf.extract_pages (enumerate_from n pages) st)
  <-> Forall (fun p => is_Some (Pdf.image_objects p)) pages.
Proof.
  revert n st; induction pages as [|p pages IH]; intros n st.
  { cbn. split; [by constructor|by eexists]. }
  cbn [enumerate_from Pdf.extract_pages]. rewrite Forall_cons.
  destruct (Pdf.image_objects p) as [images|] eqn:Hi.
  - destruct (page_occurrences_shape images p) as (ops & raised & Hp & _).
    destruct st as [acc warned].
    rewrite (add_page_images_eq p images ops raised) by done.
    cbn [mbind option_bind]. rewrite IH. split; [by split|by intros [_ ?]].
  - rewrite add_page_images_none by done. cbn.
    split; [by intros [? ?]|by intros [[? ?] _]].
Qed.

(** X9. Pages are extracted independently: the occurrences of a document
    made of two parts are those of the first part followed by those of the
    second part with their page indices moved on by the length of the first
    part, and likewise for the numbers of the pages that raised a warning.
    So a page whose content stream fails inside the [try], or a page
    without images, changes nothing for the other pages.  A page on which
    lines 33 to 38 raise is another matter: they stand outside the [try],
    and the whole call raises exactly when there is such a page. *)
Theorem extract_pages_independent (ps1 ps2 : list Pdf.pdf_page) :
  Pdf.extract_all_image_occurrences (ps1 ++ ps2)
  = (r1 ← Pdf.extract_all_image_occurrences ps1;
     r2 ← Pdf.extract_all_image_occurrences ps2;
     Some (r1.1 ++ List.map (Props.shift_page (length ps1)) r2.1,
           r1.2 ++ List.map (Nat.add (length ps1)) r2.2))
  /\ (is_Some (Pdf.extract_all_image_occurrences (ps1 ++ ps2))
      <-> Forall (fun p => is_Some (Pdf.image_objects p)) (ps1 ++ ps2)).
Proof.
  split; [|apply extract_pages_some].
  unfold Pdf.extract_all_image_occurrences, enumerate.
  rewrite enumerate_from_app, extract_pages_app. cbn [Nat.add].
  destruct (Pdf.extract_pages (enumerate_from 0 ps1) ([], []))
    as [[acc warned]|]; cbn [mbind option_bind]; [|done].
  apply extract_pages_shift.
Qed.

(** One entry of an [/XObject] dictionary that is not a dictionary loses
    the images of every page. *)
Example torn_page_ends_the_call :
  Pdf.extract_all_image_occurrences Cases.exam_document
  = Some (Samples.exam_images, [])
  /\ Pdf.extract_all_image_occurrences
       (Cases.exam_document ++ [Cases.torn_page]) = None
  /\ Pdf.parse_document (Cases.exam_document ++ [Cases.torn_page]) = None.
Proof. repeat split; vm_compute; reflexivity. Qed.

Lemma occurrence_of_inv (i : nat) (images : gmap string Pdf.xobject)
    (op : Pdf.operation) (o : occurrence) :
  Props.occurrence_of i images op = Some o ->
  page o = i
  /\ exists name data,
       Props.drawn images op = Some (name, data)
       /\ ImageData.get_image_base64_from_data data name = Some (b64 o).
Proof.
  unfold Props.occurrence_of.
  destruct (Props.drawn images op) as [[name data]|]; [|done].
  cbn -[ImageData.get_image_base64_from_data].
  destruct (ImageData.get_image_base64_from_data data name) as [b|] eqn:Hb;
    [|done].
  cbn. intros [= <-]. split; [done|]. by exists name, data.
Qed.

Lemma drawn_image_objects (p : Pdf.pdf_page)
    (images : gmap string Pdf.xobject) (op : Pdf.operation)
    (name : string) (data : list byte) :
  Pdf.image_objects p = Some images ->
  Props.drawn images op = Some (name, data) ->
  exists entries obj,
    Pdf.xobjects p = Pdf.XObjects entries
    /\ entries !! name = Some (Pdf.Object obj)
    /\ Pdf.subtype obj = "/Image"
    /\ Pdf.stream_data obj = Some data.
Proof.
  unfold Pdf.image_objects.
  destruct (Pdf.xobjects p) as [entries|]; [|done].
  case_bool_decide; [|done]. intros [= <-].
  unfold Props.drawn. destruct (Props.is_do op); [|done].
  destruct (Pdf.operands op) as [|[n| |] ?]; try done.
  rewrite lookup_omap.
  destruct (entries !! n) as [[obj0|]|] eqn:Hl; try done.
  cbn [mbind option_bind Pdf.image_entry].
  destruct (Pdf.is_image obj0) eqn:Himg; [|done].
  cbn [mbind option_bind].
  destruct (Pdf.stream_data obj0) as [d|] eqn:Hd; [|done]. cbn.
  intros [= <- <-]. exists entries, obj0.
  split; [done|]. split; [done|]. split; [|done]. by apply String.eqb_eq.
Qed.

Lemma extract_sound_from (pages : list Pdf.pdf_page) (n : nat)
    (new : list occurrence) (warned : list nat) :
  Pdf.extract_pages (enumerate_from n pages) ([], []) = Some (new, warned) ->
  StronglySorted Props.page_le new
  /\ Forall (fun o =>
       n <= page o
       /\ exists p name data,
            pages !! (page o - n) = Some p
            /\ Props.paints p name data
            /\ ImageData.get_image_base64_from_data data name
               = Some (b64 o)) new.
Proof.
  revert n new warned; induction pages as [|p pages IH];
    intros n new warned.
  { cbn. intros [= <- <-]. split; constructor. }
  cbn [enumerate_from Pdf.extract_pages].
  destruct (Pdf.image_objects p) as [images|] eqn:Himages.
  2:{ by rewrite add_page_images_none. }
  destruct (page_occurrences_shape images p) as (ops & raised & Hp & Hops).
  rewrite (add_page_images_eq p images ops raised) by done.
  cbn [mbind option_bind]. rewrite extract_pages_shift.
  destruct (Pdf.extract_pages (enumerate_from 0 pages) ([], []))
    as [[rest w]|] eqn:Hrest; cbn [mbind option_bind fst snd app]; [|done].
  intros [= <- <-].
  destruct (IH 0 rest w Hrest) as [Hs Hall].
  assert (Forall (fun o =>
       page o = n
       /\ exists name data,
            Props.paints p name data
            /\ ImageData.get_image_base64_from_data data name
               = Some (b64 o))
      (omap (Props.occurrence_of n images) ops)) as Hhere.
  { apply Forall_forall. intros o Ho.
    apply list_elem_of_In in Ho.
    assert (exists op, op ∈ ops
              /\ Props.occurrence_of n images op = Some o)
      as (op & Hop & Hocc).
    { clear -Ho. induction ops as [|op ops IH]; [done|].
      rewrite omap_cons_eq in Ho.
      destruct (Props.occurrence_of n images op) as [o'|] eqn:E.
      - destruct Ho as [->|Ho].
        + exists op. split; [by left|done].
        + destruct (IH Ho) as (op' & ? & ?). exists op'. split; [by right|done].
      - destruct (IH Ho) as (op' & ? & ?). exists op'. split; [by right|done]. }
    apply occurrence_of_inv in Hocc as (Hpage & name & data & Hd & Hb).
    split; [done|]. exists name, data. split; [|done].
    destruct (drawn_image_objects _ _ _ _ _ Himages Hd)
      as (entries & obj & Hx & Hentry & Hsub & Hdata).
    destruct (Hops op Hop) as (all & Hall' & Hin).
    by exists entries, images, obj, all, op. }
  split.
  - apply StronglySorted_app_2.
    + intros a b Ha Hb. rewrite Forall_forall in Hhere.
      destruct (Hhere a Ha) as [Hpa _].
      apply list_elem_of_In, List.in_map_iff in Hb as (b' & <- & _).
      unfold Props.page_le, Props.shift_page. cbn. lia.
    + clear -Hhere.
      induction Hhere as [|o l [Ho _] Hl IH]; constructor; [done|].
      apply Forall_forall. intros o' Ho'.
      rewrite Forall_forall in Hl. destruct (Hl o' Ho') as [Heq _].
      unfold Props.page_le. lia.
    + clear -Hs. induction Hs as [|o l _ IH Hall]; constructor; [done|].
      apply Forall_forall. intros o' Ho'.
      apply list_elem_of_In, List.in_map_iff in Ho' as (b' & <- & Hb').
      rewrite Forall_forall in Hall.
      apply list_elem_of_In, Hall in Hb'.
      unfold Props.page_le, Props.shift_page in *. cbn. lia.
  - apply Forall_app. split.
    + eapply Forall_impl; [exact Hhere|].
      intros o (Hpage & name & data & Hpaint & Hb). split; [lia|].
      exists p, name, data. rewrite Hpage, Nat.sub_diag. done.
    + apply Forall_forall. intros o Ho.
      apply list_elem_of_In, List.in_map_iff in Ho as (o' & <- & Ho').
      rewrite Forall_forall in Hall.
      apply list_elem_of_In, Hall in Ho'
        as (_ & q & name & data & Hq & Hpaint & Hb).
      rewrite Nat.sub_0_r in Hq.
      unfold Props.shift_page. cbn. split; [lia|].
      exists q, name, data.
      replace (_ - n) with (S (page o')) by lia. done.
Qed.

(** X10. The occurrences the call returns come in page order, and each one
    is an image of its page: the page of that index exists; its [/XObject]
    dictionary names an object of subtype [/Image] whose data could be
    read; an operation [Do] of its content stream paints that name; and the
    encoded data is the data URI of those bytes under that name. *)
Theorem extracted_occurrences_sound (pages : list Pdf.pdf_page)
    (occs : list occurrence) (warned : list nat) :
  Pdf.extract_all_image_occurrences pages = Some (occs, warned) ->
  StronglySorted Props.page_le occs
  /\ Forall (Props.occurrence_sound pages) occs.
Proof.
  intros He. destruct (extract_sound_from pages 0 occs warned He)
    as [Hs Hall].
  split; [exact Hs|].
  eapply Forall_impl; [exact Hall|].
  intros o (_ & p & name & data & Hp & Hpaint & Hb).
  rewrite Nat.sub_0_r in Hp. by exists p, name, data.
Qed.

Lemma extracted_occurrences_sound_witness :
  StronglySorted Props.page_le Samples.exam_images
  /\ Forall (Props.occurrence_sound Cases.exam_document) Samples.exam_images.
Proof.
  apply (extracted_occurrences_sound Cases.exam_document
           Samples.exam_images []).
  vm_compute. reflexivity.
Defined.

(** The occurrences and the warnings of a document around one of its
    pages. *)
Lemma extract_around (ps1 ps2 : list Pdf.pdf_page) (p : Pdf.pdf_page)
    (images : gmap string Pdf.xobject) (ops : list Pdf.operation)
    (raised : bool) :
  Pdf.image_objects p = Some images ->
  (forall i acc,
     Pdf.page_occurrences i images p acc
     = (acc ++ omap (Props.occurrence_of i images) ops, raised)) ->
  Pdf.extract_all_image_occurrences (ps1 ++ p :: ps2)
  = (r1 ← Pdf.extract_all_image_occurrences ps1;
     r2 ← Pdf.extract_all_image_occurrences ps2;
     Some (r1.1
           ++ omap (Props.occurrence_of (length ps1) images) ops
           ++ List.map (Props.shift_page (S (length ps1))) r2.1,
           r1.2
           ++ (if raised then [length ps1 + 1] else [])
           ++ List.map (Nat.add (S (length ps1))) r2.2)).
Proof.
  intros Hi Hp. unfold Pdf.extract_all_image_occurrences, enumerate.
  rewrite enumerate_from_app, extract_pages_app. cbn [Nat.add].
  destruct (Pdf.extract_pages (enumerate_from 0 ps1) ([], []))
    as [[acc warned]|]; cbn [mbind option_bind]; [|done].
  cbn [enumerate_from Pdf.extract_pages fst snd].
  rewrite (add_page_images_eq p images ops raised) by done.
  cbn [mbind option_bind]. rewrite extract_pages_shift.
  destruct (Pdf.extract_pages (enumerate_from 0 ps2) ([], []))
    as [[o w]|]; cbn [mbind option_bind fst snd]; [|done].
  by rewrite <- !app_assoc.
Qed.

(** X11. A page whose content stream raises in the middle keeps what it
    had: when the operations before [bad] do not raise and [bad] does (a
    [Do] without operand, with an operand that cannot be hashed, or naming
    an image whose data cannot be read), the page contributes the images
    painted before [bad] and none of those painted after it, one warning
    with the page number [i + 1] is printed, and the pages before and
    after contribute what they contribute on their own. *)
Theorem failing_page_keeps_earlier_images (ps1 ps2 : list Pdf.pdf_page)
    (p : Pdf.pdf_page) (images : gmap string Pdf.xobject)
    (before after : list Pdf.operation) (bad : Pdf.operation) :
  Pdf.image_objects p = Some images ->
  Pdf.contents p = Pdf.Operations (before ++ bad :: after) ->
  Forall (fun op => Props.raises images op = false) before ->
  Props.raises images bad = true ->
  Pdf.extract_all_image_occurrences (ps1 ++ p :: ps2)
  = (r1 ← Pdf.extract_all_image_occurrences ps1;
     r2 ← Pdf.extract_all_image_occurrences ps2;
     Some (r1.1
           ++ omap (Props.occurrence_of (length ps1) images) before
           ++ List.map (Props.shift_page (S (length ps1))) r2.1,
           r1.2
           ++ [length ps1 + 1]
           ++ List.map (Nat.add (S (length ps1))) r2.2)).
Proof.
  intros Hi Hc Hbefore Hbad.
  apply (extract_around ps1 ps2 p images before true Hi).
  intros i acc. unfold Pdf.page_occurrences. rewrite Hc.
  by apply run_operations_raise.
Qed.

Lemma failing_page_keeps_earlier_images_witness :
  Pdf.extract_all_image_occurrences
    (Cases.exam_document ++ Cases.damaged_page :: Cases.exam_document)
  = (r1 ← Pdf.extract_all_image_occurrences Cases.exam_document;
     r2 ← Pdf.extract_all_image_occurrences Cases.exam_document;
     Some (r1.1
           ++ omap (Props.occurrence_of (length Cases.exam_document)
                      {[ "/Im1" := Cases.plain_image [x00];
                         "/Bad" := Cases.no_data_image ]})
                [Cases.paint "/Im1"]
           ++ List.map (Props.shift_page (S (length Cases.exam_document)))
                r2.1,
           r1.2
           ++ [length Cases.exam_document + 1]
           ++ List.map (Nat.add (S (length Cases.exam_document))) r2.2)).
Proof.
  apply (failing_page_keeps_earlier_images Cases.exam_document
           Cases.exam_document Cases.damaged_page
           {[ "/Im1" := Cases.plain_image [x00];
              "/Bad" := Cases.no_data_image ]}
           [Cases.paint "/Im1"] [Cases.paint "/Im1"] (Cases.paint "/Bad")).
  - vm_compute. reflexivity.
  - reflexivity.
  - repeat constructor.
  - vm_compute. reflexivity.
Defined.

(** X12. A page whose content stream does not raise records every
    drawing: each operation [Do] that names an image of the page gives one
    occurrence, in the order of the stream and as often as the image is
    painted; the other operations, and a [Do] of a name that is not an
    image of the page, give nothing; and no warning is printed for the
    page. *)
Theorem clean_page_records_every_drawing (ps1 ps2 : list Pdf.pdf_page)
    (p : Pdf.pdf_page) (images : gmap string Pdf.xobject)
    (ops : list Pdf.operation) :
  Pdf.image_objects p = Some images ->
  Pdf.contents p = Pdf.Operations ops ->
  Forall (fun op => Props.raises images op = false) ops ->
  Pdf.extract_all_image_occurrences (ps1 ++ p :: ps2)
  = (r1 ← Pdf.extract_all_image_occurrences ps1;
     r2 ← Pdf.extract_all_image_occurrences ps2;
     Some (r1.1
           ++ omap (Props.occurrence_of (length ps1) images) ops
           ++ List.map (Props.shift_page (S (length ps1))) r2.1,
           r1.2 ++ List.map (Nat.add (S (length ps1))) r2.2)).
Proof.
  intros Hi Hc Hops.
  rewrite (extract_around ps1 ps2 p images ops false Hi); [done|].
  intros i acc. unfold Pdf.page_occurrences. rewrite Hc.
  by apply run_operations_clean.
Qed.

Lemma clean_page_records_every_drawing_witness :
  Pdf.extract_all_image_occurrences
    ([Cases.damaged_page] ++ Cases.redrawn_page :: [])
  = (r1 ← Pdf.extract_all_image_occurrences [Cases.damaged_page];
     r2 ← Pdf.extract_all_image_occurrences [];
     Some (r1.1
           ++ omap (Props.occurrence_of 1
                      {[ "/Im2" := Cases.plain_image [x00; x01] ]})
                [Cases.paint "/Im2"; Cases.other "Tj"; Cases.paint "/Im7";
                 Cases.paint "/Im2"]
           ++ List.map (Props.shift_page 2) r2.1,
           r1.2 ++ List.map (Nat.add 2) r2.2)).
Proof.
  apply (clean_page_records_every_drawing [Cases.damaged_page] []
           Cases.redrawn_page
           {[ "/Im2" := Cases.plain_image [x00; x01] ]}).
  - vm_compute. reflexivity.
  - reflexivity.
  - repeat constructor.
Defined.

(** ** Command line *)

Lemma page_texts_some (pages : list Pdf.pdf_page) :
  is_Some (Pdf.page_texts pages)
  <-> Forall (fun p => is_Some (Pdf.text p)) pages.
Proof.
  induction pages as [|p pages IH].
  { cbn. split; [by constructor|by eexists]. }
  cbn [Pdf.page_texts]. rewrite Forall_cons, <- IH.
  destruct (Pdf.text p) as [t|]; cbn [mbind option_bind].
  - destruct (Pdf.page_texts pages); cbn.
    + split; [by split|by eexists].
    + split; [by intros [? ?]|by intros [_ [? ?]]].
  - split; [by intros [? ?]|by intros [[? ?] _]].
Qed.

(** Reading the document raises exactly when a page cannot be read; the
    rest of the parser never raises. *)
Lemma parse_document_some (pages : list Pdf.pdf_page) :
  is_Some (Pdf.parse_document pages) <-> Forall Props.readable pages.
Proof.
  unfold Pdf.parse_document, Pdf.extract_all_image_occurrences, enumerate.
  pose proof (extract_pages_some pages 0 ([], [])) as He.
  pose proof (page_texts_some pages) as Ht.
  assert (Forall Props.readable pages
          <-> Forall (fun p => is_Some (Pdf.image_objects p)) pages
              /\ Forall (fun p => is_Some (Pdf.text p)) pages) as ->.
  { unfold Props.readable. rewrite !Forall_forall. split.
    - intros H. split; intros p Hp; by destruct (H p Hp).
    - intros [H1 H2] p Hp. split; [by apply H1|by apply H2]. }
  rewrite <- He, <- Ht.
  destruct (Pdf.extract_pages (enumerate_from 0 pages) ([], []))
    as [occurrences|]; cbn [mbind option_bind].
  2:{ split; [by intros [? ?]|by intros [[? ?] _]]. }
  destruct (Pdf.page_texts pages) as [texts|]; cbn [mbind option_bind].
  2:{ split; [by intros [? ?]|by intros [_ [? ?]]]. }
  split; [by split|]. intros _. unfold parse_vce_pdf.
  destruct (run_loop_total
              (Segmenter.full_text (Segmenter.read_pages texts))
              (Segmenter.page_offsets (Segmenter.read_pages texts))
              occurrences.1
              (Segmenter.question_spans
                 (Segmenter.markers
                    (Segmenter.full_text (Segmenter.read_pages texts)))
                 (String.length
                    (Segmenter.full_text (Segmenter.read_pages texts))))
              loop_init)
    as [ls Hls].
  cbn zeta. rewrite Hls. by eexists.
Qed.

#[local] Instance path_le_total : Total Cli.path_le.
Proof. intros a b. apply String.leb_total. Qed.

Lemma process_one_outcome (w : Cli.world) (f : string) :
  omap Props.outcome_file (Cli.process_one w f) = [f].
Proof.
  unfold Cli.process_one, Cli.process_pdf.
  destruct (Cli.open_pdf w f) as [pages|]; [|done]. cbn [mbind option_bind].
  destruct (Pdf.parse_document pages) as [[title questions]|]; [|done].
  cbn [mbind option_bind].
  destruct (Text.nonempty (Cli.md_path w f)); [|done].
  by destruct (Cli.can_write w (Cli.md_path w f)).
Qed.

Lemma batch_outcomes (w : Cli.world) (files : list string) :
  omap Props.outcome_file (List.concat (List.map (Cli.process_one w) files))
  = files.
Proof.
  induction files as [|f files IH]; [done|].
  cbn [List.map List.concat]. rewrite omap_app, process_one_outcome, IH. done.
Qed.

(** X13. Directory mode reports every file once and never aborts: when
    the directory lists at least one PDF file, [main] returns normally
    whatever happens to the single files; it announces the number of
    files, then reports for every listed file, in the order of the sorted
    paths, either [Created] or [Failed], and closes with the same number.
    A file both patterns list is processed twice. *)
Theorem batch_reports_every_file (w : Cli.world) (input_path : string) :
  let pdf_files := Cli.glob_lower w ++ Cli.glob_upper w in
  Cli.is_dir w = true ->
  pdf_files <> [] ->
  exists body,
    Cli.main w input_path
    = (Cli.FoundFiles (length pdf_files) :: body
       ++ [Cli.DoneFiles (length pdf_files)], Cli.Returns)
    /\ omap Props.outcome_file body = Cli.sorted pdf_files
    /\ Sorted Cli.path_le (Cli.sorted pdf_files)
    /\ Cli.sorted pdf_files ≡ₚ pdf_files.
Proof.
  cbn zeta. intros Hdir Hfiles. unfold Cli.main. rewrite Hdir.
  destruct (Cli.glob_lower w ++ Cli.glob_upper w) as [|f files] eqn:E;
    [done|].
  eexists. split; [reflexivity|]. split; [apply batch_outcomes|].
  split; [apply Sorted_merge_sort, _|apply merge_sort_Permutation].
Qed.

Lemma batch_reports_every_file_witness :
  exists body,
    Cli.main Cases.batch_world "exams"
    = (Cli.FoundFiles 3 :: body ++ [Cli.DoneFiles 3], Cli.Returns)
    /\ omap Props.outcome_file body
       = Cli.sorted (["b.pdf"; "a.pdf"] ++ ["C.PDF"])
    /\ Sorted Cli.path_le (Cli.sorted (["b.pdf"; "a.pdf"] ++ ["C.PDF"]))
    /\ Cli.sorted (["b.pdf"; "a.pdf"] ++ ["C.PDF"])
       ≡ₚ ["b.pdf"; "a.pdf"] ++ ["C.PDF"].
Proof.
  apply (batch_reports_every_file Cases.batch_world "exams").
  - reflexivity.
  - discriminate.
Defined.

(** X14. In directory mode a file is reported as failed exactly when it
    cannot be opened, or a page of it cannot be read (lines 33 to 38 or
    line 68 raise on it, outside any [try]), or its output cannot be
    written: on a document whose pages can be read, the rest of the parser
    and the formatter never raise.  A file that is read and written gives
    the markup of its own document, written to its [.md] path before
    [Created] is reported; the outcome does not depend on the other
    files. *)
Theorem batch_file_outcome (w : Cli.world) (pdf_file : string) :
  Text.nonempty (Cli.md_path w pdf_file) = true ->
  (Cli.process_one w pdf_file = [Cli.Failed pdf_file]
   <-> Cli.open_pdf w pdf_file = None
       \/ (exists pages, Cli.open_pdf w pdf_file = Some pages
                         /\ ¬ Forall Props.readable pages)
       \/ Cli.can_write w (Cli.md_path w pdf_file) = false)
  /\ (forall pages,
        Cli.open_pdf w pdf_file = Some pages ->
        Forall Props.readable pages ->
        Cli.can_write w (Cli.md_path w pdf_file) = true ->
        exists title questions,
          Pdf.parse_document pages = Some (title, questions)
          /\ Cli.process_one w pdf_file
             = [Cli.WroteFile (Cli.md_path w pdf_file)
                  (Formatter.format_flashquiz title questions);
                Cli.Created pdf_file]).
Proof.
  intros Hmd. unfold Cli.process_one, Cli.process_pdf. rewrite Hmd.
  destruct (Cli.open_pdf w pdf_file) as [pages|]; cbn [mbind option_bind].
  2:{ split; [split; [by left|done]|done]. }
  pose proof (parse_document_some pages) as Hsome.
  destruct (Pdf.parse_document pages) as [[title questions]|] eqn:Hparse;
    cbn [mbind option_bind].
  - assert (Forall Props.readable pages) as Hr by (apply Hsome; by eexists).
    destruct (Cli.can_write w (Cli.md_path w pdf_file)); split.
    + split; [done|].
      intros [?|[(? & [= <-] & Hn)|?]];
        [discriminate|exfalso; by apply Hn|discriminate].
    + intros ? [= <-] _ _. by exists title, questions.
    + split; [by right; right|done].
    + done.
  - assert (¬ Forall Props.readable pages) as Hn.
    { intros Hr. apply Hsome in Hr. by destruct Hr. }
    split.
    + split; [|done]. intros _. right. left. by exists pages.
    + intros ? [= <-] Hr. by destruct Hn.
Qed.

Lemma batch_file_outcome_witness :
  (Cli.process_one Cases.batch_world "b.pdf" = [Cli.Failed "b.pdf"]
   <-> Cli.open_pdf Cases.batch_world "b.pdf" = None
       \/ (exists pages, Cli.open_pdf Cases.batch_world "b.pdf" = Some pages
                         /\ ¬ Forall Props.readable pages)
       \/ Cli.can_write Cases.batch_world
            (Cli.md_path Cases.batch_world "b.pdf") = false)
  /\ (forall pages,
        Cli.open_pdf Cases.batch_world "b.pdf" = Some pages ->
        Forall Props.readable pages ->
        Cli.can_write Cases.batch_world
          (Cli.md_path Cases.batch_world "b.pdf") = true ->
        exists title questions,
          Pdf.parse_document pages = Some (title, questions)
          /\ Cli.process_one Cases.batch_world "b.pdf"
             = [Cli.WroteFile (Cli.md_path Cases.batch_world "b.pdf")
                  (Formatter.format_flashquiz title questions);
                Cli.Created "b.pdf"]).
Proof.
  apply (batch_file_outcome Cases.batch_world "b.pdf"). reflexivity.
Defined.

(** X15. For a single file [main] does what [process_pdf] does without an
    output path: when the argument is a file whose name ends in [.pdf] in
    any case, the document is printed and [main] returns, or the exception
    of the parser escapes; no file is written. *)
Theorem single_file_is_process_pdf (w : Cli.world) (input_path : string) :
  Cli.is_dir w = false ->
  Cli.is_file w = true ->
  Cli.endswith ".pdf" (Text.lower input_path) = true ->
  Cli.main w input_path
  = match Cli.process_pdf w input_path None with
    | Some events => (events, Cli.Returns)
    | None => ([], Cli.Raises)
    end
  /\ Forall (fun e => forall path markup, e <> Cli.WroteFile path markup)
       (Cli.main w input_path).1.
Proof.
  intros Hdir Hfile Hpdf. unfold Cli.main, Cli.process_pdf.
  rewrite Hdir, Hfile, Hpdf. cbn [negb].
  destruct (Cli.open_pdf w input_path) as [pages|]; cbn [mbind option_bind];
    [|by split].
  destruct (Pdf.parse_document pages) as [[title questions]|];
    cbn [mbind option_bind]; [|by split].
  split; [done|]. by repeat constructor.
Qed.

Lemma single_file_is_process_pdf_witness :
  Cli.main
    {| Cli.is_dir := false; Cli.is_file := true;
       Cli.glob_lower := []; Cli.glob_upper := [];
       Cli.md_path := Cli.md_path Cases.batch_world;
       Cli.open_pdf := Cli.open_pdf Cases.batch_world;
       Cli.can_write := fun _ => false |} "a.Pdf"
  = match Cli.process_pdf
            {| Cli.is_dir := false; Cli.is_file := true;
               Cli.glob_lower := []; Cli.glob_upper := [];
               Cli.md_path := Cli.md_path Cases.batch_world;
               Cli.open_pdf := Cli.open_pdf Cases.batch_world;
               Cli.can_write := fun _ => false |} "a.Pdf" None with
    | Some events => (events, Cli.Returns)
    | None => ([], Cli.Raises)
    end
  /\ Forall (fun e => forall path markup, e <> Cli.WroteFile path markup)
       (Cli.main
          {| Cli.is_dir := false; Cli.is_file := true;
             Cli.glob_lower := []; Cli.glob_upper := [];
             Cli.md_path := Cli.md_path Cases.batch_world;
             Cli.open_pdf := Cli.open_pdf Cases.batch_world;
             Cli.can_write := fun _ => false |} "a.Pdf").1.
Proof.
  apply single_file_is_process_pdf; reflexivity.
Defined.

(** ** The data URI determines the image *)

Lemma land_63_lt (n : N) : (N.land n 63 < 64)%N.
Proof.
  change 63%N with (N.ones 6). rewrite N.land_ones.
  by apply N.mod_lt.
Qed.

Lemma sextet_index_below (k : nat) :
  k < 64 ->
  exists c, String.get k Base64.alphabet = Some c
            /\ Props.sextet_index c = N.of_nat k
            /\ c <> Base64.pad.
Proof.
  intros Hk.
  do 64 (destruct k as [|k];
         [eexists; split; [reflexivity|]; split; [reflexivity|discriminate]|]).
  lia.
Qed.

Lemma sextet_index_sextet (n : N) :
  Props.sextet_index (Base64.sextet n) = N.land n 63
  /\ Ascii.eqb (Base64.sextet n) Base64.pad = false.
Proof.
  unfold Base64.sextet. pose proof (land_63_lt n) as Hlt.
  destruct (sextet_index_below (N.to_nat (N.land n 63))) as (c & -> & Hc & Hp);
    [lia|].
  split; [rewrite Hc; lia|]. by apply Ascii.eqb_neq.
Qed.

Lemma field_lor (k x y : N) :
  Props.field k (N.lor x y) = N.lor (Props.field k x) (Props.field k y).
Proof. unfold Props.field. by rewrite N.shiftr_lor, N.land_lor_distr_l. Qed.

Lemma lor_swap (p q r s : N) :
  N.lor (N.lor p q) (N.lor r s) = N.lor (N.lor p r) (N.lor q s).
Proof.
  rewrite <- !N.lor_assoc. f_equal.
  rewrite !N.lor_assoc. f_equal. apply N.lor_comm.
Qed.

Lemma first_byte_lor (x y : N) :
  Props.first_byte (N.lor x y)
  = N.lor (Props.first_byte x) (Props.first_byte y).
Proof.
  unfold Props.first_byte, Props.byte_a.
  by rewrite !field_lor, N.shiftl_lor, N.shiftr_lor, lor_swap.
Qed.

Lemma second_byte_lor (x y : N) :
  Props.second_byte (N.lor x y)
  = N.lor (Props.second_byte x) (Props.second_byte y).
Proof.
  unfold Props.second_byte, Props.byte_b.
  by rewrite !field_lor, N.land_lor_distr_l, N.shiftl_lor, N.shiftr_lor,
    lor_swap.
Qed.

Lemma third_byte_lor (x y : N) :
  Props.third_byte (N.lor x y)
  = N.lor (Props.third_byte x) (Props.third_byte y).
Proof.
  unfold Props.third_byte, Props.byte_c.
  by rewrite !field_lor, N.land_lor_distr_l, N.shiftl_lor, lor_swap.
Qed.

(** What each byte of a group contributes to the three decoded bytes. *)
Lemma high_byte (x : byte) :
  Props.first_byte (N.shiftl (Byte.to_N x) 16) = Byte.to_N x
  /\ Props.second_byte (N.shiftl (Byte.to_N x) 16) = 0%N
  /\ Props.third_byte (N.shiftl (Byte.to_N x) 16) = 0%N.
Proof. destruct x; vm_compute; done. Qed.

Lemma middle_byte (x : byte) :
  Props.first_byte (N.shiftl (Byte.to_N x) 8) = 0%N
  /\ Props.second_byte (N.shiftl (Byte.to_N x) 8) = Byte.to_N x
  /\ Props.third_byte (N.shiftl (Byte.to_N x) 8) = 0%N.
Proof. destruct x; vm_compute; done. Qed.

Lemma low_byte (x : byte) :
  Props.first_byte (Byte.to_N x) = 0%N
  /\ Props.second_byte (Byte.to_N x) = 0%N
  /\ Props.third_byte (Byte.to_N x) = Byte.to_N x.
Proof. destruct x; vm_compute; done. Qed.

Lemma byte_of_to_N (x : byte) : Props.byte_of (Byte.to_N x) = x.
Proof. unfold Props.byte_of. by rewrite Byte.of_to_N. Qed.

Lemma b64decode_group (n : N) (c2 c3 : ascii) (rest : string) :
  Props.b64decode
    (String (Base64.sextet (N.shiftr n 18))
       (String (Base64.sextet (N.shiftr n 12)) (String c2 (String c3 rest))))
  = if Ascii.eqb c2 Base64.pad then
      [Props.byte_of
         (Props.byte_a (Props.field 18 n) (Props.field 12 n))]
    else if Ascii.eqb c3 Base64.pad then
      [Props.byte_of (Props.byte_a (Props.field 18 n) (Props.field 12 n));
       Props.byte_of
         (Props.byte_b (Props.field 12 n) (Props.sextet_index c2))]
    else
      Props.byte_of (Props.byte_a (Props.field 18 n) (Props.field 12 n))
      :: Props.byte_of
           (Props.byte_b (Props.field 12 n) (Props.sextet_index c2))
      :: Props.byte_of
           (Props.byte_c (Props.sextet_index c2) (Props.sextet_index c3))
      :: Props.b64decode rest.
Proof.
  cbn [Props.b64decode].
  destruct (sextet_index_sextet (N.shiftr n 18)) as [-> _].
  destruct (sextet_index_sextet (N.shiftr n 12)) as [-> _].
  reflexivity.
Qed.

Lemma list_ind3 {A : Type} (P : list A -> Prop) :
  P [] ->
  (forall a, P [a]) ->
  (forall a b, P [a; b]) ->
  (forall a b c rest, P rest -> P (a :: b :: c :: rest)) ->
  forall l, P l.
Proof.
  intros H0 H1 H2 H3 l.
  assert (forall n l, length l <= n -> P l) as H; [|by apply (H (length l))].
  clear l. induction n as [|n IH]; intros l Hl.
  { destruct l; [done|cbn in Hl; lia]. }
  destruct l as [|a [|b [|c rest]]]; [done..|].
  apply H3, IH. cbn in Hl. lia.
Qed.

(** Decoding what was encoded gives the bytes back. *)
Lemma b64decode_b64encode (data : list byte) :
  Props.b64decode (Base64.b64encode data) = data.
Proof.
  induction data as [|a|a b|a b c rest IH] using list_ind3.
  - reflexivity.
  - cbn [Base64.b64encode]. cbn zeta. rewrite b64decode_group.
    change (Ascii.eqb Base64.pad Base64.pad) with true. cbn iota.
    change (Props.byte_a _ _)
      with (Props.first_byte (N.shiftl (Byte.to_N a) 16)).
    destruct (high_byte a) as (-> & _). by rewrite byte_of_to_N.
  - cbn [Base64.b64encode]. cbn zeta. rewrite b64decode_group.
    destruct (sextet_index_sextet
                (N.shiftr (N.lor (N.shiftl (Byte.to_N a) 16)
                                 (N.shiftl (Byte.to_N b) 8)) 6))
      as [-> ->].
    change (Ascii.eqb Base64.pad Base64.pad) with true. cbn iota.
    change (Props.byte_a _ _)
      with (Props.first_byte (N.lor (N.shiftl (Byte.to_N a) 16)
                                    (N.shiftl (Byte.to_N b) 8))).
    change (Props.byte_b _ _)
      with (Props.second_byte (N.lor (N.shiftl (Byte.to_N a) 16)
                                     (N.shiftl (Byte.to_N b) 8))).
    rewrite first_byte_lor, second_byte_lor.
    destruct (high_byte a) as (-> & -> & _).
    destruct (middle_byte b) as (-> & -> & _).
    by rewrite N.lor_0_r, N.lor_0_l, !byte_of_to_N.
  - cbn [Base64.b64encode]. cbn zeta. rewrite b64decode_group.
    set (n := N.lor (N.lor (N.shiftl (Byte.to_N a) 16)
                           (N.shiftl (Byte.to_N b) 8)) (Byte.to_N c)).
    destruct (sextet_index_sextet (N.shiftr n 6)) as [-> ->].
    destruct (sextet_index_sextet n) as [Hn ->]. rewrite Hn.
    change (N.land n 63) with (N.land (N.shiftr n 0) 63).
    change (Props.byte_a _ _) with (Props.first_byte n).
    change (Props.byte_b _ _) with (Props.second_byte n).
    change (Props.byte_c _ _) with (Props.third_byte n).
    subst n.
    rewrite !first_byte_lor, !second_byte_lor, !third_byte_lor.
    destruct (high_byte a) as (-> & -> & ->).
    destruct (middle_byte b) as (-> & -> & ->).
    destruct (low_byte c) as (-> & -> & ->).
    rewrite !N.lor_0_r, !N.lor_0_l, !byte_of_to_N. by rewrite IH.
Qed.

Lemma get_image_shape (data : list byte) (name : string) :
  exists ext,
    ext ∈ Spec.recognised
    /\ ImageData.get_image_base64_from_data data name
       = Some ("data:image/" +:+ ext +:+ ";base64,"
               +:+ Base64.b64encode data).
Proof.
  unfold ImageData.get_image_base64_from_data.
  destruct (ImageData.startswith ImageData.sig_jpeg data).
  { exists "jpg". split; [|done]. unfold Spec.recognised. set_solver. }
  destruct (ImageData.startswith ImageData.sig_png data).
  { exists "png". split; [|done]. unfold Spec.recognised. set_solver. }
  destruct (ImageData.startswith ImageData.sig_gif data).
  { exists "gif". split; [|done]. unfold Spec.recognised. set_solver. }
  destruct (ImageData.known_ext _) eqn:Hk; cbn [negb].
  - eexists. split; [|done]. by apply bool_decide_eq_true in Hk.
  - exists "png". split; [|done]. unfold Spec.recognised. set_solver.
Qed.

(** X16. The data URI determines the image: two calls of
    [get_image_base64_from_data] that return the same string were given
    the same bytes, whatever the names were.  So the set [seen_b64], which
    holds data URIs, never takes two different images for one. *)
Theorem data_uri_determines_image (data1 data2 : list byte)
    (name1 name2 : string) :
  ImageData.get_image_base64_from_data data1 name1
  = ImageData.get_image_base64_from_data data2 name2 ->
  data1 = data2.
Proof.
  destruct (get_image_shape data1 name1) as (e1 & He1 & ->).
  destruct (get_image_shape data2 name2) as (e2 & He2 & ->).
  intros Heq.
  rewrite <- (b64decode_b64encode data1), <- (b64decode_b64encode data2).
  remember (Base64.b64encode data1) as b1 eqn:E1.
  remember (Base64.b64encode data2) as b2 eqn:E2.
  clear E1 E2. f_equal.
  unfold Spec.recognised in He1, He2.
  repeat (apply elem_of_cons in He1 as [->|He1]);
    [..|by apply elem_of_nil in He1];
    (repeat (apply elem_of_cons in He2 as [->|He2]);
       [..|by apply elem_of_nil in He2]);
    cbv [String.append] in Heq; congruence.
Qed.

Lemma data_uri_determines_image_witness :
  ImageData.get_image_base64_from_data [x00; x01] "/Im1.PNG"
  = ImageData.get_image_base64_from_data [x00; x01] "/Im2"
  /\ [x00; x01] = [x00; x01].
Proof.
  split; [reflexivity|].
  apply (data_uri_determines_image [x00; x01] [x00; x01] "/Im1.PNG" "/Im2").
  reflexivity.
Defined.

(** ** The marker and the first line *)

Lemma digit_not_space (c : ascii) :
  Text.is_digit c = true -> Text.is_space c = false.
Proof.
  unfold Text.is_digit, Text.is_space. cbn zeta.
  generalize (Text.code c). intros n Hn.
  apply andb_true_iff in Hn as [H1 H2].
  apply N.leb_le in H1. apply N.leb_le in H2.
  repeat match goal with
         | |- context [(?a <=? ?b)%N] =>
             destruct (N.leb_spec a b); try lia
         | |- context [(?a =? ?b)%N] =>
             destruct (N.eqb_spec a b); try lia
         end; done.
Qed.

Lemma span_len_app (p : ascii -> bool) (a b : string) :
  Text.span_len p a = String.length a ->
  Text.span_len p (a +:+ b) = String.length a + Text.span_len p b.
Proof.
  induction a as [|c a IH]; [done|].
  change (String c a +:+ b) with (String c (a +:+ b)).
  cbn [Text.span_len String.length]. destruct (p c); [|done].
  intros [= H]. by rewrite IH.
Qed.

Lemma span_len_split (p : ascii -> bool) (s : string) :
  Text.span_len p (Text.take (Text.span_len p s) s)
  = String.length (Text.take (Text.span_len p s) s)
  /\ String.length (Text.take (Text.span_len p s) s) = Text.span_len p s
  /\ Text.span_len p (Text.drop (Text.span_len p s) s) = 0.
Proof.
  induction s as [|c s (IH1 & IH2 & IH3)]; [done|].
  cbn [Text.span_len]. destruct (p c) eqn:Hc.
  - cbn [Text.take Text.drop Text.span_len String.length]. rewrite Hc.
    by rewrite IH1, IH2, IH3.
  - cbn. by rewrite Hc.
Qed.

(** A match of the marker is the word, white space and digits, and no
    digit follows. *)
Lemma marker_split (part : string) (n : nat) :
  Segmenter.marker_len part = Some n ->
  exists ws ds,
    part = "QUESTION" +:+ ws +:+ ds +:+ Text.drop n part
    /\ n = 8 + String.length ws + String.length ds
    /\ Text.span_len Text.is_space ws = String.length ws
    /\ 0 < String.length ws
    /\ Text.span_len Text.is_digit ds = String.length ds
    /\ 0 < String.length ds
    /\ Text.span_len Text.is_digit (Text.drop n part) = 0.
Proof.
  unfold Segmenter.marker_len.
  destruct (String.prefix "QUESTION" part) eqn:Hp; [|done].
  apply prefix_drop in Hp.
  change (String.length "QUESTION") with 8 in Hp.
  remember (Text.drop 8 part) as r eqn:Hr.
  destruct (span_len_split Text.is_space r) as (Hw1 & Hw2 & _).
  pose proof (take_drop (Text.span_len Text.is_space r) r) as Hwr.
  remember (Text.span_len Text.is_space r) as w eqn:Ew.
  remember (Text.drop w r) as r2 eqn:Hr2.
  destruct (span_len_split Text.is_digit r2) as (Hd1 & Hd2 & Hd3).
  pose proof (take_drop (Text.span_len Text.is_digit r2) r2) as Hdr.
  remember (Text.span_len Text.is_digit r2) as d eqn:Ed.
  destruct (Nat.ltb_spec 0 w); [|done].
  destruct (Nat.ltb_spec 0 d); [|done].
  cbn [andb]. intros Heq. assert (n = 8 + w + d) as -> by congruence.
  assert (Text.drop (8 + w + d) part = Text.drop d r2) as Hrest.
  { rewrite Hr2, Hr, !drop_add. f_equal. }
  exists (Text.take w r), (Text.take d r2). rewrite Hrest.
  split.
  { rewrite Hdr, Hwr. exact Hp. }
  rewrite Hw2, Hd2. rewrite Hw2 in Hw1. rewrite Hd2 in Hd1.
  by repeat split.
Qed.

Lemma marker_len_build (ws ds x : string) :
  Text.span_len Text.is_space ws = String.length ws ->
  0 < String.length ws ->
  Text.span_len Text.is_digit ds = String.length ds ->
  0 < String.length ds ->
  Text.span_len Text.is_digit x = 0 ->
  Segmenter.marker_len ("QUESTION" +:+ ws +:+ ds +:+ x)
  = Some (8 + String.length ws + String.length ds).
Proof.
  intros Hws Hw Hds Hd Hx. unfold Segmenter.marker_len.
  rewrite prefix_app.
  change (Text.drop 8 ("QUESTION" +:+ ws +:+ ds +:+ x))
    with (ws +:+ ds +:+ x).
  assert (Text.span_len Text.is_space (ds +:+ x) = 0) as H0.
  { destruct ds as [|c ds]; [cbn in Hd; lia|].
    change (String c ds +:+ x) with (String c (ds +:+ x)).
    cbn [Text.span_len] in Hds |- *.
    destruct (Text.is_digit c) eqn:Hc; [|done].
    by rewrite (digit_not_space c Hc). }
  rewrite (span_len_app _ ws (ds +:+ x) Hws), H0, Nat.add_0_r.
  rewrite drop_app_length, (span_len_app _ ds x Hds), Hx, Nat.add_0_r.
  destruct (Nat.ltb_spec 0 (String.length ws)); [|lia].
  destruct (Nat.ltb_spec 0 (String.length ds)); [|lia].
  done.
Qed.

Lemma rstrip_app_nonblank (a b : string) :
  Text.rstrip b <> EmptyString ->
  Text.rstrip (a +:+ b) = a +:+ Text.rstrip b.
Proof.
  intros Hb. induction a as [|c a IH]; [done|].
  change (String c a +:+ b) with (String c (a +:+ b)).
  change (String c a +:+ Text.rstrip b)
    with (String c (a +:+ Text.rstrip b)).
  cbn [Text.rstrip]. rewrite IH.
  destruct (a +:+ Text.rstrip b) eqn:E; [|done].
  destruct a; [by apply Hb in E|discriminate].
Qed.

Lemma rstrip_app_blank (a b : string) :
  Text.rstrip b = EmptyString ->
  Text.rstrip (a +:+ b) = Text.rstrip a.
Proof.
  intros Hb. induction a as [|c a IH]; [done|].
  change (String c a +:+ b) with (String c (a +:+ b)).
  cbn [Text.rstrip]. by rewrite IH.
Qed.

Lemma rstrip_digits (ds : string) :
  Text.span_len Text.is_digit ds = String.length ds ->
  Text.rstrip ds = ds.
Proof.
  induction ds as [|c ds IH]; [done|].
  cbn [Text.span_len String.length Text.rstrip].
  destruct (Text.is_digit c) eqn:Hc; [|done].
  intros [= H]. rewrite (IH H), (digit_not_space c Hc). by destruct ds.
Qed.

(** Nothing is stripped from the right of a string that ends in a digit. *)
Lemma rstrip_after_digits (a ds y : string) :
  Text.span_len Text.is_digit ds = String.length ds ->
  0 < String.length ds ->
  Text.rstrip (a +:+ ds +:+ y) = a +:+ ds +:+ Text.rstrip y.
Proof.
  intros Hds Hd.
  assert (Text.rstrip ds <> EmptyString) as Hne.
  { rewrite rstrip_digits by done. destruct ds; [cbn in Hd; lia|done]. }
  destruct (Text.rstrip y) eqn:Hy.
  - rewrite <- append_assoc, (rstrip_app_blank _ y Hy).
    rewrite append_empty_r, rstrip_app_nonblank by done.
    by rewrite rstrip_digits.
  - rewrite <- Hy, <- !append_assoc. apply rstrip_app_nonblank. by rewrite Hy.
Qed.

Lemma rstrip_idem (s : string) : Text.rstrip (Text.rstrip s) = Text.rstrip s.
Proof.
  induction s as [|c s IH]; [done|]. cbn [Text.rstrip].
  destruct (Text.rstrip s) as [|d r] eqn:E.
  - destruct (Text.is_space c) eqn:Hc; [done|]. cbn. by rewrite Hc.
  - cbn [Text.rstrip]. cbn [Text.rstrip] in IH. by rewrite IH.
Qed.

Lemma lstrip_rstrip (s : string) :
  Text.lstrip (Text.rstrip s) = Text.rstrip (Text.lstrip s).
Proof.
  induction s as [|c s IH]; [done|]. cbn [Text.rstrip Text.lstrip].
  destruct (Text.is_space c) eqn:Hc.
  - destruct (Text.rstrip s) as [|d r] eqn:E.
    + by rewrite <- IH.
    + rewrite <- IH. cbn [Text.lstrip]. by rewrite Hc.
  - cbn [Text.rstrip].
    destruct (Text.rstrip s); cbn [Text.lstrip]; by rewrite Hc.
Qed.

Lemma strip_rstrip (s : string) : Text.strip (Text.rstrip s) = Text.strip s.
Proof. unfold Text.strip. by rewrite lstrip_rstrip, rstrip_idem. Qed.

Lemma split_on_app_free (sep : ascii) (a b l0 : string) (ls : list string) :
  Spec.free_of sep a = true ->
  Text.split_on sep b = l0 :: ls ->
  Text.split_on sep (a +:+ b) = (a +:+ l0) :: ls.
Proof.
  intros Ha Hb. induction a as [|c a IH]; [done|].
  change (String c a +:+ b) with (String c (a +:+ b)).
  cbn [Spec.free_of] in Ha. apply andb_true_iff in Ha as [Hc Ha].
  cbn [Text.split_on]. apply negb_true_iff in Hc. rewrite Hc, (IH Ha). done.
Qed.

Lemma lines_skip_space (c : ascii) (s : string) :
  Text.is_space c = true ->
  Props.lines_of (String c s) = Props.lines_of s.
Proof.
  intros Hc. unfold Props.lines_of. cbn [Text.split_on].
  destruct (Ascii.eqb c LF); [done|].
  destruct (split_on_cons LF s) as (w & ws & ->).
  cbn [List.filter].
  assert (Text.strip (String c w) = Text.strip w) as Hw.
  { unfold Text.strip. cbn [Text.lstrip]. by rewrite Hc. }
  rewrite Hw. destruct (Text.nonempty (Text.strip w)); [|done].
  cbn [List.map]. by rewrite Hw.
Qed.

Lemma lines_lstrip (s : string) :
  Props.lines_of (Text.lstrip s) = Props.lines_of s.
Proof.
  induction s as [|c s IH]; [done|]. cbn [Text.lstrip].
  destruct (Text.is_space c) eqn:Hc; [|done].
  by rewrite IH, lines_skip_space.
Qed.

Lemma span_len_rstrip (p : ascii -> bool) (s : string) :
  Text.span_len p s = 0 -> Text.span_len p (Text.rstrip s) = 0.
Proof.
  destruct s as [|c s]; [done|]. cbn [Text.span_len Text.rstrip].
  destruct (p c) eqn:Hc; [done|]. intros _.
  destruct (Text.rstrip s); [destruct (Text.is_space c)|]; cbn;
    by rewrite ?Hc.
Qed.

Lemma span_len_first_line (p : ascii -> bool) (sep : ascii) (s l0 : string)
    (ls : list string) :
  Text.span_len p s = 0 ->
  Text.split_on sep s = l0 :: ls ->
  Text.span_len p l0 = 0.
Proof.
  destruct s as [|c s]; [by intros _ [= <- _]|].
  cbn [Text.span_len Text.split_on]. destruct (p c) eqn:Hc; [done|].
  intros _. destruct (Ascii.eqb c sep); [by intros [= <- _]|].
  destruct (Text.split_on sep s); intros [= <- _]; cbn; by rewrite Hc.
Qed.

(** X17. The marker does not reach the question: when the marker of a span
    stands on one line (no line feed between the word and its number), the
    lines handed to the classifier are the stripped non-blank lines of what
    follows the marker.  The marker is cut off whether or not anything
    follows it on its line. *)
Theorem marker_removed_from_first_line (part : string) (n : nat) :
  Segmenter.marker_len part = Some n ->
  Spec.free_of LF (Text.take n part) = true ->
  Parser.clean_first (Parser.span_lines part)
  = Parser.span_lines (Text.drop n part).
Proof.
  intros Hm Hfree.
  destruct (marker_split part n Hm)
    as (ws & ds & Hpart & Hn & Hws & Hw & Hds & Hd & Hrest).
  remember (Text.drop n part) as rest eqn:Erest.
  assert (forall x, "QUESTION" +:+ ws +:+ ds +:+ x
                    = ("QUESTION" +:+ ws +:+ ds) +:+ x) as Hflat.
  { intros x. by rewrite !append_assoc. }
  assert (String.length ("QUESTION" +:+ ws +:+ ds) = n) as Hlen.
  { rewrite !length_append. cbn. lia. }
  assert (forall y, Text.strip ("QUESTION" +:+ ws +:+ ds +:+ y)
                    = "QUESTION" +:+ ws +:+ ds +:+ Text.rstrip y) as Hstrip.
  { intros y. unfold Text.strip.
    change (Text.lstrip ("QUESTION" +:+ ws +:+ ds +:+ y))
      with ("QUESTION" +:+ ws +:+ ds +:+ y).
    rewrite <- (append_assoc "QUESTION" ws), rstrip_after_digits by done.
    by rewrite append_assoc. }
  assert (Text.take n part = "QUESTION" +:+ ws +:+ ds) as Htake.
  { rewrite Hpart, Hflat, <- Hlen. apply take_app_length. }
  rewrite Htake in Hfree.
  change (Parser.span_lines part) with (Props.lines_of (Text.strip part)).
  change (Parser.span_lines rest) with (Props.lines_of (Text.strip rest)).
  unfold Text.strip at 2. rewrite <- lstrip_rstrip, lines_lstrip.
  rewrite Hpart, Hstrip.
  destruct (split_on_cons LF (Text.rstrip rest)) as (l0 & ls & Hsplit).
  unfold Props.lines_of.
  rewrite Hflat, (split_on_app_free LF _ _ l0 ls Hfree Hsplit), Hsplit.
  rewrite <- Hflat. cbn [List.filter]. rewrite Hstrip.
  change (Text.nonempty ("QUESTION" +:+ ws +:+ ds +:+ Text.rstrip l0))
    with true.
  cbn [List.map]. rewrite Hstrip. cbn [Parser.clean_first].
  unfold Parser.strip_marker.
  rewrite marker_len_build; try done.
  2:{ apply span_len_rstrip.
      eapply span_len_first_line; [|exact Hsplit].
      by apply span_len_rstrip. }
  rewrite <- Hn, <- Hlen, Hflat, drop_app_length, strip_lstrip, strip_rstrip.
  by destruct (Text.nonempty (Text.strip l0)).
Qed.

Lemma marker_removed_from_first_line_witness :
  Parser.clean_first
    (Parser.span_lines
       ("QUESTION 12" +:+ nl +:+ "Pick one." +:+ nl +:+ "A. x" +:+ nl))
  = Parser.span_lines
      (Text.drop 11
         ("QUESTION 12" +:+ nl +:+ "Pick one." +:+ nl +:+ "A. x" +:+ nl)).
Proof.
  apply (marker_removed_from_first_line
           ("QUESTION 12" +:+ nl +:+ "Pick one." +:+ nl +:+ "A. x" +:+ nl)
           11).
  - reflexivity.
  - reflexivity.
Defined.

Lemma span_len_digits_no_space (ds x : string) :
  Text.span_len Text.is_digit ds = String.length ds ->
  0 < String.length ds ->
  Text.span_len Text.is_space (ds +:+ x) = 0
  /\ Text.lstrip (ds +:+ x) = ds +:+ x.
Proof.
  intros Hds Hd. destruct ds as [|c ds]; [cbn in Hd; lia|].
  change (String c ds +:+ x) with (String c (ds +:+ x)).
  cbn [Text.span_len Text.lstrip] in Hds |- *.
  destruct (Text.is_digit c) eqn:Hc; [|done].
  by rewrite (digit_not_space c Hc).
Qed.

Lemma span_len_full_app (p : ascii -> bool) (a b : string) :
  Text.span_len p (a +:+ b) = String.length (a +:+ b) ->
  Text.span_len p a = String.length a
  /\ Text.span_len p b = String.length b.
Proof.
  induction a as [|c a IH]; [done|].
  change (String c a +:+ b) with (String c (a +:+ b)).
  cbn [Text.span_len String.length]. destruct (p c); [|done].
  intros [= H]. destruct (IH H) as [-> ->]. done.
Qed.

Lemma rstrip_spaces (s : string) :
  Text.span_len Text.is_space s = String.length s ->
  Text.rstrip s = EmptyString.
Proof.
  induction s as [|c s IH]; [done|].
  cbn [Text.span_len String.length Text.rstrip].
  destruct (Text.is_space c) eqn:Hc; [|done].
  intros [= H]. by rewrite (IH H).
Qed.

Lemma lines_skip_spaces (ws s : string) :
  Text.span_len Text.is_space ws = String.length ws ->
  Props.lines_of (ws +:+ s) = Props.lines_of s.
Proof.
  induction ws as [|c ws IH]; [done|].
  change (String c ws +:+ s) with (String c (ws +:+ s)).
  cbn [Text.span_len String.length].
  destruct (Text.is_space c) eqn:Hc; [|done].
  intros [= H]. by rewrite lines_skip_space, IH.
Qed.

(** The first occurrence of a character a string is not free of. *)
Lemma free_of_split (c : ascii) (s : string) :
  Spec.free_of c s = false ->
  exists a b, s = a +:+ String c b /\ Spec.free_of c a = true.
Proof.
  induction s as [|d s IH]; [done|]. cbn [Spec.free_of].
  destruct (Ascii.eqb_spec d c) as [->|Hne]; cbn [negb andb].
  - intros _. by exists EmptyString, s.
  - intros H. destruct (IH H) as (a & b & -> & Ha).
    exists (String d a), b. split; [done|]. cbn [Spec.free_of].
    rewrite Ha. by destruct (Ascii.eqb_spec d c).
Qed.

Lemma split_on_at_sep (sep : ascii) (a b : string) :
  Spec.free_of sep a = true ->
  Text.split_on sep (a +:+ String sep b) = a :: Text.split_on sep b.
Proof.
  intros Ha.
  assert (Text.split_on sep (String sep b)
          = EmptyString :: Text.split_on sep b) as Hb.
  { cbn [Text.split_on]. by rewrite Ascii.eqb_refl. }
  rewrite (split_on_app_free sep a _ _ _ Ha Hb). by rewrite append_empty_r.
Qed.

Lemma free_of_digits (ds : string) :
  Text.span_len Text.is_digit ds = String.length ds ->
  Spec.free_of LF ds = true.
Proof.
  induction ds as [|c ds IH]; [done|].
  cbn [Text.span_len String.length Spec.free_of].
  destruct (Text.is_digit c) eqn:Hc; [|done].
  intros [= H]. rewrite (IH H), andb_true_r.
  destruct (Ascii.eqb_spec c LF) as [->|]; [done|done].
Qed.

(** X18. A marker broken over two lines stays in the question: when a line
    feed stands between the word and its number, the first line of the
    span is the bare word, which the pattern of line 102 does not match;
    the lines handed to the classifier are ["QUESTION"] followed by the
    stripped non-blank lines of the span from the number on. *)
Theorem broken_marker_stays (part : string) (n : nat) :
  Segmenter.marker_len part = Some n ->
  Spec.free_of LF (Text.take n part) = false ->
  Parser.clean_first (Parser.span_lines part)
  = "QUESTION"
    :: Parser.span_lines
         (Text.drop
            (8 + Text.span_len Text.is_space (Text.drop 8 part)) part).
Proof.
  intros Hm Hfree.
  destruct (marker_split part n Hm)
    as (ws & ds & Hpart & Hn & Hws & Hw & Hds & Hd & Hrest).
  remember (Text.drop n part) as rest eqn:Erest.
  assert (forall x, "QUESTION" +:+ ws +:+ ds +:+ x
                    = ("QUESTION" +:+ ws +:+ ds) +:+ x) as Hflat.
  { intros x. by rewrite !append_assoc. }
  assert (String.length ("QUESTION" +:+ ws +:+ ds) = n) as Hlen.
  { rewrite !length_append. cbn. lia. }
  assert (Text.take n part = "QUESTION" +:+ ws +:+ ds) as Htake.
  { rewrite Hpart, Hflat, <- Hlen. apply take_app_length. }
  destruct (span_len_digits_no_space ds rest Hds Hd) as [Hsp Hls].
  assert (Text.drop 8 part = ws +:+ ds +:+ rest) as Hdrop8.
  { by rewrite Hpart. }
  assert (Text.drop (8 + Text.span_len Text.is_space (Text.drop 8 part)) part
          = ds +:+ rest) as ->.
  { rewrite Hdrop8, (span_len_app _ ws _ Hws), Hsp, Nat.add_0_r.
    rewrite drop_add, Hdrop8. apply drop_app_length. }
  (* the line feed inside the marker *)
  assert (Spec.free_of LF ws = false) as Hlf.
  { rewrite Htake in Hfree.
    change (Spec.free_of LF ("QUESTION" +:+ ws +:+ ds))
      with (Spec.free_of LF (ws +:+ ds)) in Hfree.
    rewrite free_of_app, (free_of_digits ds Hds), andb_true_r in Hfree.
    exact Hfree. }
  destruct (free_of_split LF ws Hlf) as (ws1 & ws2 & -> & Hws1).
  destruct (span_len_full_app _ _ _ Hws) as [Hs1 Hs2].
  cbn [Text.span_len String.length] in Hs2.
  change (Text.is_space LF) with true in Hs2. cbn iota in Hs2.
  assert (Text.span_len Text.is_space ws2 = String.length ws2) as Hs2'
    by congruence.
  change (Parser.span_lines part) with (Props.lines_of (Text.strip part)).
  change (Parser.span_lines (ds +:+ rest))
    with (Props.lines_of (Text.strip (ds +:+ rest))).
  assert (Text.strip (ds +:+ rest) = ds +:+ Text.rstrip rest) as ->.
  { unfold Text.strip. rewrite Hls.
    apply (rstrip_after_digits EmptyString ds rest Hds Hd). }
  assert (Text.strip part
          = ("QUESTION" +:+ ws1)
            +:+ String LF (ws2 +:+ ds +:+ Text.rstrip rest)) as ->.
  { rewrite Hpart. unfold Text.strip.
    change (Text.lstrip ("QUESTION" +:+ (ws1 +:+ String LF ws2)
                         +:+ ds +:+ rest))
      with ("QUESTION" +:+ (ws1 +:+ String LF ws2) +:+ ds +:+ rest).
    rewrite <- (append_assoc "QUESTION"), rstrip_after_digits by done.
    rewrite <- (append_assoc "QUESTION" ws1), !append_assoc. done. }
  unfold Props.lines_of at 1. rewrite split_on_at_sep.
  2:{ change (Spec.free_of LF ("QUESTION" +:+ ws1))
        with (Spec.free_of LF ws1). exact Hws1. }
  assert (Text.strip ("QUESTION" +:+ ws1) = "QUESTION") as Hq.
  { unfold Text.strip.
    change (Text.lstrip ("QUESTION" +:+ ws1)) with ("QUESTION" +:+ ws1).
    by rewrite rstrip_app_blank by (by apply rstrip_spaces). }
  cbn [List.filter]. rewrite Hq. cbn [Text.nonempty List.map].
  rewrite Hq. cbn [Parser.clean_first].
  change (Text.strip (Parser.strip_marker "QUESTION")) with "QUESTION".
  cbn [Text.nonempty]. f_equal.
  exact (lines_skip_spaces ws2 _ Hs2').
Qed.

Lemma broken_marker_stays_witness :
  Parser.clean_first
    (Parser.span_lines
       ("QUESTION" +:+ nl +:+ "12 Pick one." +:+ nl +:+ "A. x" +:+ nl))
  = "QUESTION"
    :: Parser.span_lines
         (Text.drop
            (8 + Text.span_len Text.is_space
                   (Text.drop 8
                      ("QUESTION" +:+ nl +:+ "12 Pick one." +:+ nl
                       +:+ "A. x" +:+ nl)))
            ("QUESTION" +:+ nl +:+ "12 Pick one." +:+ nl +:+ "A. x" +:+ nl)).
Proof.
  apply (broken_marker_stays
           ("QUESTION" +:+ nl +:+ "12 Pick one." +:+ nl +:+ "A. x" +:+ nl)
           11).
  - reflexivity.
  - reflexivity.
Defined.
